(** * Verification of [src/hashmap.h]

    An insertion-ordered hash map: a [std::list] of bucket items owns the
    entries, and a [std::vector] of list iterators is an open-addressed probe
    table with Robin Hood displacement and backward-shift deletion.

    The file first embeds the code (floating-point load test, prime search,
    the container operations), then proves the properties of the container. *)

From stdpp Require Import gmap list.
From Stdlib Require Import ZArith Floats.SpecFloat Znumtheory Wellfounded Lia.

Open Scope Z_scope.

(** ** Results of running a member function

    A call either returns, leaves with a C++ exception, does not return,
    or has undefined behaviour (dereferencing [end()], indexing outside the
    bucket array, [% 0]). *)

Inductive exn := out_of_range | alloc_error.

Inductive outcome (A : Type) :=
| Ret (a : A)
| Throw (e : exn)
| Diverge
| Undefined.
Arguments Ret {A} a.
Arguments Throw {A} e.
Arguments Diverge {A}.
Arguments Undefined {A}.

#[global] Instance outcome_ret : MRet outcome := fun _ a => Ret a.
#[global] Instance outcome_bind : MBind outcome := fun _ _ f x =>
  match x with
  | Ret a => f a
  | Throw e => Throw e
  | Diverge => Diverge
  | Undefined => Undefined
  end.

(** ** The load-factor test of [rehash_if_needed]

    [static_cast<double>(size() + 1) / table_.size() < MAX_LOAD_FACTOR]
    is evaluated in IEEE-754 binary64; [MAX_LOAD_FACTOR] is the binary32
    value nearest to the literal [0.6], widened for the comparison. *)

Definition cast_double (n : Z) : spec_float := binary_normalize 53 1024 n 0 false.

Definition literal_0_6 : spec_float :=
  SFdiv 53 1024 (cast_double 6) (cast_double 10).

Definition narrow_float (d : spec_float) : spec_float :=
  match d with
  | S754_finite s m e => binary_normalize 24 128 (cond_Zopp s (Zpos m)) e s
  | _ => d
  end.

Definition widen_double (f : spec_float) : spec_float :=
  match f with
  | S754_finite s m e => binary_normalize 53 1024 (cond_Zopp s (Zpos m)) e s
  | _ => f
  end.

Definition MAX_LOAD_FACTOR : spec_float := narrow_float literal_0_6.

Definition START_BUCKET_COUNT : nat := 37.

(** [load_below sz buckets] is the test with [size() = sz] and
    [table_.size() = buckets]. *)
Definition load_below (sz buckets : Z) : bool :=
  SFltb (SFdiv 53 1024 (cast_double (sz + 1)) (cast_double buckets))
        (widen_double MAX_LOAD_FACTOR).

(** The same test as a comparison of integers; [load_below_exact] proves the
    two equal for all sizes below 2^53. *)
Definition load_threshold : Z := 10808639535185919.

Definition load_below_Z (sz buckets : Z) : bool :=
  (sz + 1) * 2 ^ 54 <? load_threshold * buckets.

(** ** The prime search of [rehash_if_needed]

    [no_divisor] is the inner loop [for (div = 2; div * div <= n; ++div)];
    it runs at most [sqrt n] times. *)

Fixpoint no_divisor (fuel : nat) (div n : Z) : bool :=
  match fuel with
  | O => true
  | S fuel' =>
      if div * div <=? n
      then if n mod div =? 0 then false else no_divisor fuel' (div + 1) n
      else true
  end.

Definition trial_division (n : Z) : bool :=
  no_divisor (Z.to_nat (Z.sqrt n)) 2 n.

(** One round of the outer loop [for ( ; ; ++min_bucket_count)] steps from
    a composite candidate to the next one. *)
Definition next_candidate (m n : Z) : Prop :=
  m = n + 1 ∧ trial_division n = false.

(** The outer loop ends: some candidate above any [n] passes the test. *)

Lemma no_divisor_true fuel div n :
  0 <= div →
  no_divisor fuel div n = true ↔
  ∀ d, div <= d < div + Z.of_nat fuel → d * d <= n → n mod d ≠ 0.
Proof.
  revert div. induction fuel as [|fuel IH]; intros div Hdiv; simpl no_divisor.
  - split; [intros _ d ?; lia|done].
  - destruct (Z.leb_spec (div * div) n) as [Hle|Hgt].
    + destruct (Z.eqb_spec (n mod div) 0) as [H0|H0].
      * split; [done|]. intros H. exfalso. apply (H div); [lia|done|done].
      * rewrite IH by lia. split; intros H d Hd Hdd.
        -- destruct (Z.eq_dec d div) as [->|]; [done|]. apply H; [lia|done].
        -- apply H; [lia|done].
    + split; [|done]. intros _ d Hd Hdd. nia.
Qed.

Lemma trial_division_true n :
  trial_division n = true ↔ ∀ d, 2 <= d → d * d <= n → n mod d ≠ 0.
Proof.
  unfold trial_division. rewrite no_divisor_true by lia.
  split; intros H d Hd Hdd; apply H; try done; try lia.
  assert (0 <= n) by nia.
  assert (d <= Z.sqrt n) by (apply Z.sqrt_le_square; lia).
  rewrite Z2Nat.id by apply Z.sqrt_nonneg. lia.
Qed.

Fixpoint zfact (k : nat) : Z :=
  match k with
  | O => 1
  | S k' => Z.of_nat k * zfact k'
  end.

Lemma zfact_pos k : 0 < zfact k.
Proof. induction k; simpl zfact; lia. Qed.

Lemma zfact_divide k d : 1 <= d <= Z.of_nat k → (d | zfact k).
Proof.
  induction k as [|k IH]; intros Hd; [lia|].
  change (zfact (S k)) with (Z.of_nat (S k) * zfact k).
  destruct (Z.eq_dec d (Z.of_nat (S k))) as [->|].
  - apply Z.divide_factor_l.
  - apply Z.divide_mul_r, IH. lia.
Qed.

Lemma least_divisor N :
  2 <= N → ∃ p, 2 <= p <= N ∧ (p | N) ∧ ∀ d, 2 <= d → (d | N) → p <= d.
Proof.
  intros HN.
  assert (∀ b : nat,
            (∀ d, 2 <= d < 2 + Z.of_nat b → ¬ (d | N)) ∨
            (∃ p, 2 <= p <= N ∧ (p | N) ∧ ∀ d, 2 <= d → (d | N) → p <= d)) as H.
  { induction b as [|b [IH|IH]]; [left; intros; lia| |by right].
    destruct (Z.eq_dec (N mod (2 + Z.of_nat b)) 0) as [Hd|Hd];
      rewrite Z.mod_divide in Hd by lia.
    - right. exists (2 + Z.of_nat b). split_and!; try lia; [|done|].
      + apply Z.divide_pos_le in Hd; lia.
      + intros d Hd2 HdN. destruct (Z.le_gt_cases (2 + Z.of_nat b) d); [done|].
        exfalso. apply (IH d); [lia|done].
    - left. intros d Hd2. destruct (Z.eq_dec d (2 + Z.of_nat b)) as [->|]; [done|].
      apply IH. lia. }
  destruct (H (Z.to_nat N)) as [Hno|Hp]; [|done].
  exfalso. apply (Hno N); [lia|]. apply Z.divide_refl.
Qed.

Lemma trial_division_above n : ∃ p, n <= p ∧ trial_division p = true.
Proof.
  destruct (least_divisor (zfact (Z.to_nat n) + 1)) as (p & Hp & HpN & Hleast).
  { pose proof (zfact_pos (Z.to_nat n)). lia. }
  exists p. split.
  - destruct (Z.le_gt_cases n p); [done|]. exfalso.
    assert (p | zfact (Z.to_nat n)) as Hf by (apply zfact_divide; lia).
    assert (p | 1) as H1.
    { apply (Z.divide_add_cancel_r p (zfact (Z.to_nat n))); done. }
    apply Z.divide_1_r_nonneg in H1; lia.
  - apply trial_division_true. intros d Hd Hdd Hmod.
    assert (d | p) as Hdp by (apply Z.mod_divide; [lia|done]).
    assert (p <= d) by (apply Hleast; [done|]; by etrans).
    nia.
Qed.

Lemma next_candidate_wf : well_founded next_candidate.
Proof.
  intros n. destruct (trial_division_above n) as (p & Hp & Hprime).
  assert (∀ k : nat, ∀ m, m + Z.of_nat k = p → Acc next_candidate m) as H.
  { induction k as [|k IH]; intros m Hm; constructor; intros m' [-> Hc].
    - replace m with p in Hc by lia. congruence.
    - apply IH. lia. }
  apply (H (Z.to_nat (p - n))). lia.
Qed.

Definition next_prime_body (n : Z) (rec : ∀ m, next_candidate m n → Z) : Z :=
  match decide (trial_division n = false) with
  | left H => rec (n + 1) (conj eq_refl H)
  | right _ => n
  end.

Definition next_prime : Z → Z :=
  Fix (Acc_intro_generator 64 next_candidate_wf) (λ _, Z) next_prime_body.

Lemma next_prime_body_ext n (f g : ∀ m, next_candidate m n → Z) :
  (∀ m H, f m H = g m H) → next_prime_body n f = next_prime_body n g.
Proof. intros Hfg. unfold next_prime_body. destruct (decide _); [apply Hfg|done]. Qed.

Lemma next_prime_unfold n :
  next_prime n = if trial_division n then n else next_prime (n + 1).
Proof.
  transitivity (next_prime_body n (λ m _, next_prime m)).
  - exact (Fix_eq (Acc_intro_generator 64 next_candidate_wf) (λ _, Z)
             next_prime_body next_prime_body_ext n).
  - unfold next_prime_body. destruct (decide _) as [->|H]; [done|].
    by destruct (trial_division n).
Qed.


#[global] Opaque next_prime.

(** ** The growth sequence

    [grow n sz] is the bucket count after [rehash_if_needed] on a map with
    [n] buckets and [sz] entries; [buckets_after n sz k] is the bucket count
    after [k] further insertions of new keys. *)

Definition grow (n sz : Z) : Z :=
  if load_below sz n then n else next_prime (n * 2).

Definition grow_step (st : Z * Z) : Z * Z :=
  (grow (fst st) (snd st), snd st + 1).

Definition buckets_after (n sz : Z) (k : nat) : Z :=
  fst (Nat.iter k grow_step (n, sz)).

(** The same count, skipping each run of insertions that find room. *)
Fixpoint buckets_after_fast (fuel : nat) (n sz k : Z) : option Z :=
  match fuel with
  | O => None
  | S fuel' =>
      if negb ((1 <=? n) && (n <? 2 ^ 53) && (0 <=? sz) && (0 <=? k)
               && (sz + k <? 2 ^ 53))
      then None
      else
        let room := Z.max 0 ((load_threshold * n - 1) / 2 ^ 54 - sz) in
        if k <=? room then Some n
        else buckets_after_fast fuel' (next_prime (n * 2)) (sz + room + 1)
               (k - room - 1)
  end.

Inductive bucket_count : Z → Prop :=
| bucket_count_start : bucket_count (Z.of_nat START_BUCKET_COUNT)
| bucket_count_next n : bucket_count n → bucket_count (next_prime (n * 2)).

(** ** The container *)

(** Address of a node of [items_]; a [ListIterator] is such an address, or
    [None] for [items_.end()]. *)
Abbreviation node := nat.
Abbreviation ListIterator := (option node).

Section HashMap.
Context {Key Value : Type} `{EqDecision Key}.

(** [hasher_], the value [Value{}] and the largest bucket array that
    [table_.resize] can obtain; a larger request throws, and the exception
    leaves the container. *)
Variable hasher : Key → nat.
Variable default_value : Value.
Variable max_buckets : Z.

Abbreviation NodeType := (Key * Value)%type.

Record BucketItem := {
  data : NodeType;
  distance_to_ideal : nat;
  id_in_table : nat
}.

Definition set_distance (d : nat) (b : BucketItem) : BucketItem :=
  {| data := data b; distance_to_ideal := d; id_in_table := id_in_table b |}.
Definition set_id (i : nat) (b : BucketItem) : BucketItem :=
  {| data := data b; distance_to_ideal := distance_to_ideal b; id_in_table := i |}.
Definition set_second (v : Value) (b : BucketItem) : BucketItem :=
  {| data := (fst (data b), v); distance_to_ideal := distance_to_ideal b;
     id_in_table := id_in_table b |}.

(** [items_] is the sequence of node addresses of the [std::list], in list
    order; [nodes_] holds the bucket item stored in each node; [fresh_] is
    the next address the allocator hands out. *)
Record HashMap := {
  items_ : list node;
  nodes_ : gmap node BucketItem;
  table_ : list ListIterator;
  fresh_ : node
}.

Definition with_nodes (n : gmap node BucketItem) (m : HashMap) : HashMap :=
  {| items_ := items_ m; nodes_ := n; table_ := table_ m; fresh_ := fresh_ m |}.
Definition with_table (t : list ListIterator) (m : HashMap) : HashMap :=
  {| items_ := items_ m; nodes_ := nodes_ m; table_ := t; fresh_ := fresh_ m |}.

Definition buckets (m : HashMap) : nat := length (table_ m).

(** An empty list and [n] buckets holding [items_.end()]; [fr] is the next
    free address. *)
Definition cleared (n : nat) (fr : node) : HashMap :=
  {| items_ := []; nodes_ := ∅; table_ := replicate n None; fresh_ := fr |}.

(** [HashMap(Hash hash)] *)
Definition HashMap_new : HashMap := cleared START_BUCKET_COUNT 0%nat.

Definition size (m : HashMap) : nat := length (items_ m).
Definition empty (m : HashMap) : bool := (size m =? 0)%nat.

(** *** Iterators *)

Definition begin_ (m : HashMap) : ListIterator := head (items_ m).
Definition end_ (m : HashMap) : ListIterator := None.

(** [operator*] and [operator->] *)
Definition deref (m : HashMap) (it : ListIterator) : outcome NodeType :=
  match it with
  | None => Undefined
  | Some h => match nodes_ m !! h with
              | Some b => Ret (data b)
              | None => Undefined
              end
  end.

Fixpoint successor (l : list node) (h : node) : outcome ListIterator :=
  match l with
  | [] => Undefined
  | x :: l' => if decide (x = h) then Ret (head l') else successor l' h
  end.

(** [operator++] *)
Definition incr (m : HashMap) (it : ListIterator) : outcome ListIterator :=
  match it with
  | None => Undefined
  | Some h => successor (items_ m) h
  end.

(** [operator==] *)
Definition iterator_eqb (a b : ListIterator) : bool := bool_decide (a = b).

(** The pairs visited by [for (auto it = begin(); it != end(); ++it)]. *)
Fixpoint traverse (fuel : nat) (m : HashMap) (it : ListIterator)
  : outcome (list NodeType) :=
  if iterator_eqb it (end_ m) then Ret []
  else match fuel with
       | O => Diverge
       | S fuel' =>
           x ← deref m it;
           it' ← incr m it;
           rest ← traverse fuel' m it';
           Ret (x :: rest)
       end.

Definition pairs (m : HashMap) : list NodeType :=
  omap (λ h, data <$> nodes_ m !! h) (items_ m).

(** *** [find]

    The loop inspects one slot per round; once every slot has been
    inspected without leaving the loop, it never leaves it. *)
Fixpoint find_loop (fuel : nat) (key : Key) (hash : nat) (m : HashMap)
  : outcome ListIterator :=
  match table_ m !! hash with
  | None => Undefined
  | Some None => Ret None
  | Some (Some h) =>
      match nodes_ m !! h with
      | None => Undefined
      | Some b =>
          if decide (fst (data b) = key) then Ret (Some h)
          else match fuel with
               | O => Diverge
               | S fuel' => find_loop fuel' key ((hash + 1) mod buckets m)%nat m
               end
      end
  end.

Definition find (key : Key) (m : HashMap) : outcome ListIterator :=
  if (buckets m =? 0)%nat then Undefined
  else find_loop (buckets m) key (hasher key mod buckets m)%nat m.

(** *** [insert] *)

(** Assignment to the fields of the bucket item of node [h]. *)
Definition update_node (h : node) (f : BucketItem → BucketItem) (m : HashMap)
  : outcome HashMap :=
  match nodes_ m !! h with
  | Some b => Ret (with_nodes (<[h := f b]> (nodes_ m)) m)
  | None => Undefined
  end.

(** [table_[hash] = cur; table_[hash]->id_in_table = hash] *)
Definition store_at (hash : nat) (cur : node) (m : HashMap) : outcome HashMap :=
  update_node cur (set_id hash) (with_table (<[hash := Some cur]> (table_ m)) m).

(** The probing loop of [insert]; [cur] is [list_iterator].  One slot is
    inspected per round and the occupied slots stay occupied, so a loop
    that has run once per bucket never ends. *)
Fixpoint insert_loop (fuel : nat) (cur : node) (hash : nat) (m : HashMap)
  : outcome HashMap :=
  match table_ m !! hash with
  | None => Undefined
  | Some None => store_at hash cur m
  | Some (Some occ) =>
      match fuel with
      | O => Diverge
      | S fuel' =>
          match nodes_ m !! occ, nodes_ m !! cur with
          | Some bo, Some bc =>
              '(cur', m1) ←
                (if (distance_to_ideal bo <? distance_to_ideal bc)%nat
                 then m1 ← store_at hash cur m; Ret (occ, m1)
                 else Ret (cur, m));
              m2 ← update_node cur'
                     (λ b, set_distance (S (distance_to_ideal b)) b) m1;
              insert_loop fuel' cur' ((hash + 1) mod buckets m)%nat m2
          | _, _ => Undefined
          end
      end
  end.

(** [items_.emplace(items_.end(), x, 0, 0)] followed by the probing loop. *)
Definition place (x : NodeType) (m : HashMap) : outcome HashMap :=
  if (buckets m =? 0)%nat then Undefined
  else
    let h := fresh_ m in
    insert_loop (buckets m) h (hasher (fst x) mod buckets m)%nat
      {| items_ := items_ m ++ [h];
         nodes_ := <[h := {| data := x; distance_to_ideal := 0; id_in_table := 0 |}]>
                     (nodes_ m);
         table_ := table_ m;
         fresh_ := S h |}.

Fixpoint insert_all (ins : NodeType → HashMap → outcome HashMap)
    (l : list NodeType) (m : HashMap) : outcome HashMap :=
  match l with
  | [] => Ret m
  | x :: l' => m' ← ins x m; insert_all ins l' m'
  end.

(** [rehash_if_needed], with [ins] the [insert] it calls back. *)
Definition rehash_if_needed (ins : NodeType → HashMap → outcome HashMap)
    (m : HashMap) : outcome HashMap :=
  if load_below (Z.of_nat (size m)) (Z.of_nat (buckets m)) then Ret m
  else
    let min_bucket_count := next_prime (Z.of_nat (buckets m) * 2) in
    let old_items := pairs m in
    if max_buckets <? min_bucket_count then Throw alloc_error
    else
      insert_all ins old_items (cleared (Z.to_nat min_bucket_count) (fresh_ m)).

(** [insert] calls [rehash_if_needed], which calls [insert] on a map with
    fewer entries; [depth] bounds the nesting of these calls. *)
Fixpoint insert_rec (depth : nat) (x : NodeType) (m : HashMap)
  : outcome HashMap :=
  match depth with
  | O => Diverge
  | S depth' =>
      it ← find (fst x) m;
      if negb (iterator_eqb it (end_ m)) then Ret m
      else
        m1 ← rehash_if_needed (insert_rec depth') m;
        place x m1
  end.

Definition insert (x : NodeType) (m : HashMap) : outcome HashMap :=
  insert_rec (S (size m)) x m.

(** *** [erase] *)

(** The backward-shift loop of [erase(iterator)]. *)
Fixpoint erase_loop (fuel : nat) (hash next_hash : nat) (m : HashMap)
  : outcome HashMap :=
  match table_ m !! next_hash with
  | None => Undefined
  | Some None => Ret m
  | Some (Some h) =>
      match nodes_ m !! h with
      | None => Undefined
      | Some b =>
          if (0 <? distance_to_ideal b)%nat then
            match fuel, table_ m !! hash with
            | O, _ => Diverge
            | _, None => Undefined
            | S fuel', Some at_hash =>
                m1 ← update_node h
                       (λ b, set_distance (pred (distance_to_ideal b)) (set_id hash b))
                       (with_table
                          (<[next_hash := at_hash]> (<[hash := Some h]> (table_ m)))
                          m);
                erase_loop fuel' next_hash ((next_hash + 1) mod buckets m)%nat m1
            end
          else Ret m
      end
  end.

Definition erase_iterator (it : ListIterator) (m : HashMap) : outcome HashMap :=
  match it with
  | None => Undefined
  | Some h =>
      match nodes_ m !! h with
      | None => Undefined
      | Some b =>
          let hash := id_in_table b in
          if (hash <? buckets m)%nat then
            erase_loop (buckets m) hash ((hash + 1) mod buckets m)%nat
              {| items_ := filter (λ x, x ≠ h) (items_ m);
                 nodes_ := delete h (nodes_ m);
                 table_ := <[hash := None]> (table_ m);
                 fresh_ := fresh_ m |}
          else Undefined
      end
  end.

(** [erase(const Key&)] *)
Definition erase (key : Key) (m : HashMap) : outcome HashMap :=
  it ← find key m;
  if negb (iterator_eqb it (end_ m)) then erase_iterator it m else Ret m.

(** [clear]: the iterator is advanced before its node is erased, so the
    nodes are erased in list order. *)
Fixpoint clear_loop (l : list node) (m : HashMap) : outcome HashMap :=
  match l with
  | [] => Ret m
  | h :: l' => m' ← erase_iterator (Some h) m; clear_loop l' m'
  end.

Definition clear (m : HashMap) : outcome HashMap := clear_loop (items_ m) m.

(** *** Element access *)

(** The argument of [operator[]] is a [const Key&].  The key object it
    refers to lies outside the nodes of this map, or inside the bucket
    item of node [h] (the key of that entry, or its value where [Value] is
    [Key]); [sel] reads it from the pair stored there. *)
Inductive KeyRef :=
| outside (key : Key)
| inside (h : node) (sel : NodeType → Key).

Definition read_key (r : KeyRef) (m : HashMap) : outcome Key :=
  match r with
  | outside key => Ret key
  | inside h sel =>
      match nodes_ m !! h with
      | Some b => Ret (sel (data b))
      | None => Undefined
      end
  end.

(** [operator[]] returns the map and the node whose [second] the returned
    reference designates.  The key is read through the reference for the
    temporary pair handed to [insert], and again for [find] after [insert]
    has returned.  ([find], [at] and [erase(const Key&)] read their
    argument only while the map is as the caller left it; [insert] reads
    [x] after [rehash_if_needed], but an [x] inside a node of this map has
    a stored key, for which [insert] returns before.) *)
Definition index (r : KeyRef) (m : HashMap) : outcome (HashMap * node) :=
  key ← read_key r m;
  m1 ← insert (key, default_value) m;
  key' ← read_key r m1;
  it ← find key' m1;
  match it with
  | None => Undefined
  | Some h => Ret (m1, h)
  end.

(** Reading and assigning through a [Value&]. *)
Definition read_ref (h : node) (m : HashMap) : outcome Value :=
  match nodes_ m !! h with
  | Some b => Ret (snd (data b))
  | None => Undefined
  end.
Definition write_ref (h : node) (v : Value) (m : HashMap) : outcome HashMap :=
  match nodes_ m !! h with
  | Some b => Ret (with_nodes (<[h := set_second v b]> (nodes_ m)) m)
  | None => Undefined
  end.

Definition at_ (key : Key) (m : HashMap) : outcome Value :=
  it ← find key m;
  match it with
  | None => Throw out_of_range
  | Some h => read_ref h m
  end.

(** *** Construction from a range, copy construction and assignment *)

Definition HashMap_range (l : list NodeType) : outcome HashMap :=
  insert_all insert l HashMap_new.

(** [HashMap(const HashMap&)]: an empty list, [another.table_.size()]
    empty buckets, and [insert] of every pair of [another] in the order of
    its list; [fr] is the next address the allocator hands out. *)
Definition HashMap_copy (fr : node) (another : HashMap) : outcome HashMap :=
  insert_all insert (pairs another) (cleared (buckets another) fr).

(** [operator=] past the self-assignment guard: [items_.clear()],
    [table_.clear()], [table_.resize(another.table_.size(), items_.end())]
    and [insert] of every pair of [another]. *)
Definition assign_from (m another : HashMap) : outcome HashMap :=
  insert_all insert (pairs another)
    (cleared (buckets another) (fresh_ m)).

(** *** Map objects in one memory

    The nodes of all lists live in one heap, and [brk] is the next address
    the allocator hands out.  An object is the list and the bucket array
    of one [HashMap]; [objects] maps the address of an object to it. *)
Record Object := {
  obj_items : list node;
  obj_table : list ListIterator
}.

Record Memory := {
  heap : gmap node BucketItem;
  brk : node;
  objects : gmap nat Object
}.

(** The nodes of the list of [o]. *)
Definition own (mem : Memory) (o : Object) : gmap node BucketItem :=
  filter (λ p, p.1 ∈ obj_items o) (heap mem).

(** The object [o] as its member functions see it: they reach nodes
    through the list and the bucket array of [o] only. *)
Definition load (mem : Memory) (o : Object) : HashMap :=
  {| items_ := obj_items o; nodes_ := own mem o; table_ := obj_table o;
     fresh_ := brk mem |}.

(** The memory once a member function has turned the object at [this],
    which was [o], into [m']: the nodes of [o] that [m'] does not keep are
    freed. *)
Definition store (mem : Memory) (this : nat) (o : Object) (m' : HashMap)
  : Memory :=
  {| heap := nodes_ m' ∪ filter (λ p, p.1 ∉ obj_items o) (heap mem);
     brk := fresh_ m';
     objects := <[this := {| obj_items := items_ m'; obj_table := table_ m' |}]>
                  (objects mem) |}.

Definition no_object : Object := {| obj_items := []; obj_table := [] |}.

(** A member function [f] called on the object at [this]. *)
Definition call (this : nat) (f : HashMap → outcome HashMap) (mem : Memory)
  : outcome Memory :=
  match objects mem !! this with
  | Some o => m' ← f (load mem o); Ret (store mem this o m')
  | None => Undefined
  end.

(** [HashMap(Hash)] constructing an object at [this]. *)
Definition construct (this : nat) (mem : Memory) : outcome Memory :=
  match objects mem !! this with
  | Some _ => Undefined
  | None => Ret (store mem this no_object (cleared START_BUCKET_COUNT (brk mem)))
  end.

(** [HashMap(const HashMap& another)] constructing an object at [this]. *)
Definition copy_construct (this another : nat) (mem : Memory)
  : outcome Memory :=
  match objects mem !! this, objects mem !! another with
  | None, Some src =>
      m' ← HashMap_copy (brk mem) (load mem src);
      Ret (store mem this no_object m')
  | _, _ => Undefined
  end.

(** [operator=]: [&another == this] compares the addresses. *)
Definition assign (this another : nat) (mem : Memory) : outcome Memory :=
  match objects mem !! this, objects mem !! another with
  | Some o, Some src =>
      if decide (another = this) then Ret mem
      else m' ← assign_from (load mem o) (load mem src);
           Ret (store mem this o m')
  | _, _ => Undefined
  end.

(** An assignment through a [Value&] that designates the value in the
    node at [h]. *)
Definition assign_through (h : node) (v : Value) (mem : Memory)
  : outcome Memory :=
  match heap mem !! h with
  | Some b =>
      Ret {| heap := <[h := set_second v b]> (heap mem); brk := brk mem;
             objects := objects mem |}
  | None => Undefined
  end.

End HashMap.

(** * Properties of the embedded code *)

(** ** The load-factor test is an exact integer comparison *)

Lemma digits2_pos_size p : digits2_pos p = Pos.size p.
Proof. induction p; simpl; congruence. Qed.

Lemma Zdigits2_log2 z : 0 < z → Zdigits2 z = Z.log2 z + 1.
Proof.
  destruct z as [|p|p]; try lia. intros _. simpl. rewrite digits2_pos_size.
  destruct p; simpl; lia.
Qed.

Lemma Zdigits2_bounds z k : 2 ^ (k - 1) <= z < 2 ^ k → 1 <= k → Zdigits2 z = k.
Proof.
  intros Hz Hk. assert (0 < z) by (pose proof (Z.pow_pos_nonneg 2 (k-1)); lia).
  rewrite Zdigits2_log2 by done.
  rewrite (Z.log2_unique z (k - 1)); try lia.
  replace (Z.succ (k - 1)) with k by lia. lia.
Qed.

Lemma iter_xO p d : Zpos (Pos.iter xO p d) = Zpos p * 2 ^ Zpos d.
Proof.
  induction d as [|d IH] using Pos.peano_ind.
  - simpl. lia.
  - rewrite Pos.iter_succ, Pos2Z.inj_succ, Z.pow_succ_r by lia.
    rewrite Pos2Z.inj_xO, IH. lia.
Qed.


Lemma round_aux_normal s m e :
  2 ^ 52 <= Zpos m < 2 ^ 53 → -1022 <= e <= 971 →
  binary_round_aux 53 1024 s (Zpos m) e loc_Exact = S754_finite s m e.
Proof.
  intros Hm He. unfold binary_round_aux, shr_fexp.
  rewrite (Zdigits2_bounds (Zpos m) 53) by lia.
  unfold fexp, emin.
  replace (Z.max (53 + e - 53) (3 - 1024 - 53) - e) with 0 by lia.
  cbn [shr shr_record_of_loc shr_m loc_of_shr_record round_nearest_even].
  rewrite (Zdigits2_bounds (Zpos m) 53) by lia.
  replace (Z.max (53 + e - 53) (3 - 1024 - 53) - e) with 0 by lia.
  cbn [shr shr_record_of_loc shr_m].
  destruct (Z.leb_spec e (1024 - 53)); [done|lia].
Qed.

Lemma cast_double_normal x :
  1 <= x < 2 ^ 53 →
  ∃ m, cast_double x = S754_finite false m (Z.log2 x - 52) ∧
       Zpos m = x * 2 ^ (52 - Z.log2 x) ∧ 2 ^ 52 <= Zpos m < 2 ^ 53.
Proof.
  intros Hx. destruct x as [|p|p]; try lia.
  pose proof (Z.log2_spec (Zpos p) ltac:(lia)) as Hl.
  assert (0 <= Z.log2 (Zpos p) <= 52) as Hr.
  { split; [apply Z.log2_nonneg|]. apply Z.lt_succ_r, Z.log2_lt_pow2; lia. }
  unfold cast_double, binary_normalize, binary_round, shl_align.
  change (Zpos (digits2_pos p)) with (Zdigits2 (Zpos p)).
  rewrite Zdigits2_log2 by lia. unfold fexp, emin.
  replace (Z.max (Z.log2 (Zpos p) + 1 + 0 - 53) (3 - 1024 - 53) - 0)
    with (Z.log2 (Zpos p) - 52) by lia.
  destruct (Z.log2 (Zpos p) - 52) as [|d|d] eqn:Hd; try lia.
  - exists p. replace (Z.log2 (Zpos p)) with 52 in * by lia.
    rewrite round_aux_normal by lia.
    split; [done|]. change (2 ^ (52 - 52)) with 1. lia.
  - exists (Pos.iter xO p d).
    assert (Zpos (Pos.iter xO p d) = Zpos p * 2 ^ (52 - Z.log2 (Zpos p))) as Hm.
    { rewrite iter_xO. f_equal. f_equal. lia. }
    assert (2 ^ 52 <= Zpos (Pos.iter xO p d) < 2 ^ 53) as Hb.
    { rewrite Hm.
      replace (2 ^ 52) with (2 ^ Z.log2 (Zpos p) * 2 ^ (52 - Z.log2 (Zpos p))).
      2:{ rewrite <- Z.pow_add_r by lia. f_equal. lia. }
      replace (2 ^ 53) with (2 ^ Z.succ (Z.log2 (Zpos p)) * 2 ^ (52 - Z.log2 (Zpos p))).
      2:{ rewrite <- Z.pow_add_r by lia. f_equal. lia. }
      assert (0 < 2 ^ (52 - Z.log2 (Zpos p))) by (apply Z.pow_pos_nonneg; lia).
      nia. }
    replace (Z.max (Z.log2 (Zpos p) + 1 + 0 - 53) (3 - 1024 - 53)) with (Z.neg d) by lia.
    rewrite round_aux_normal by lia. done.
Qed.

Lemma SFltb_finite m1 e1 m2 e2 :
  SFltb (S754_finite false m1 e1) (S754_finite false m2 e2)
  = (e1 <? e2) || ((e1 =? e2) && (Zpos m1 <? Zpos m2)).
Proof.
  unfold SFltb, SFcompare.
  destruct (Z.compare_spec e1 e2) as [->|H|H].
  - rewrite Z.ltb_irrefl, Z.eqb_refl. simpl.
    change (Pos.compare_cont Eq m1 m2) with (Pos.compare m1 m2).
    destruct (Pos.compare_spec m1 m2) as [E|H|H];
      destruct (Z.ltb_spec (Zpos m1) (Zpos m2)); try done; lia.
  - destruct (Z.ltb_spec e1 e2); [done|lia].
  - destruct (Z.ltb_spec e1 e2); [lia|]. destruct (Z.eqb_spec e1 e2); [lia|done].
Qed.

Lemma div_core mx ex my ey :
  2 ^ 52 <= Zpos mx < 2 ^ 53 → 2 ^ 52 <= Zpos my < 2 ^ 53 →
  -60 <= ex <= 0 → -60 <= ey <= 0 →
  SFdiv_core_binary 53 1024 (Zpos mx) ex (Zpos my) ey
  = (Zpos mx * 2 ^ 53 / Zpos my, ex - ey - 53,
     new_location (Zpos my) (Zpos mx * 2 ^ 53 mod Zpos my)).
Proof.
  intros Hx Hy Hex Hey. unfold SFdiv_core_binary.
  rewrite !(Zdigits2_bounds _ 53) by lia. unfold fexp, emin.
  replace (Z.min (Z.max (53 + ex - (53 + ey) - 53) (3 - 1024 - 53)) (ex - ey))
    with (ex - ey - 53) by lia.
  replace (ex - ey - (ex - ey - 53)) with 53 by lia.
  rewrite Z.shiftl_mul_pow2 by lia.
  unfold Z.div, Z.modulo.
  destruct (Z.div_eucl (Zpos mx * 2 ^ 53) (Zpos my)); done.
Qed.


Lemma round_aux_53 q e l :
  2 ^ 52 <= q < 2 ^ 53 → -200 <= e <= 100 →
  binary_round_aux 53 1024 false q e l =
    if round_nearest_even q l <? 2 ^ 53
    then S754_finite false (Z.to_pos (round_nearest_even q l)) e
    else S754_finite false (Z.to_pos (2 ^ 52)) (e + 1).
Proof.
  intros Hq He. unfold binary_round_aux, shr_fexp.
  rewrite (Zdigits2_bounds q 53) by lia. unfold fexp, emin.
  replace (Z.max (53 + e - 53) (3 - 1024 - 53) - e) with 0 by lia.
  cbn [shr].
  assert (loc_of_shr_record (shr_record_of_loc q l) = l) as ->
    by (by destruct l as [|[]]).
  assert (shr_m (shr_record_of_loc q l) = q) as ->
    by (by destruct l as [|[]]).
  assert (q <= round_nearest_even q l <= q + 1) as Hr.
  { destruct l as [|[]]; simpl; try lia. destruct (Z.even q); lia. }
  destruct (Z.ltb_spec (round_nearest_even q l) (2 ^ 53)) as [Hlt|Hge].
  - rewrite (Zdigits2_bounds _ 53) by lia.
    replace (Z.max (53 + e - 53) (3 - 1024 - 53) - e) with 0 by lia.
    cbn [shr shr_record_of_loc shr_m].
    destruct (round_nearest_even q l) eqn:E; try lia.
    destruct (Z.leb_spec e (1024 - 53)); [done|lia].
  - replace (round_nearest_even q l) with (2 ^ 53) by lia.
    rewrite (Zdigits2_bounds _ 54) by lia.
    replace (Z.max (54 + e - 53) (3 - 1024 - 53) - e) with 1 by lia.
    change (shr (shr_record_of_loc (2 ^ 53) loc_Exact) e 1)
      with ({| shr_m := 2 ^ 52; shr_r := false; shr_s := false |}, e + 1).
    cbn [shr_m]. change (2 ^ 52) with 4503599627370496. cbn iota.
    destruct (Z.leb_spec (e + 1) (1024 - 53)); [done|lia].
Qed.

Lemma round_aux_54 q e l :
  2 ^ 53 <= q < 2 ^ 54 → -200 <= e <= 100 →
  let l' := loc_of_shr_record (shr_1 (shr_record_of_loc q l)) in
  binary_round_aux 53 1024 false q e l =
    if round_nearest_even (q / 2) l' <? 2 ^ 53
    then S754_finite false (Z.to_pos (round_nearest_even (q / 2) l')) (e + 1)
    else S754_finite false (Z.to_pos (2 ^ 52)) (e + 2).
Proof.
  intros Hq He l'. unfold binary_round_aux, shr_fexp.
  rewrite (Zdigits2_bounds q 54) by lia. unfold fexp, emin.
  replace (Z.max (54 + e - 53) (3 - 1024 - 53) - e) with 1 by lia.
  cbn [shr iter_pos].
  assert (shr_m (shr_1 (shr_record_of_loc q l)) = q / 2) as ->.
  { destruct q as [|[p|p|]|]; try lia; destruct l as [|[]]; cbn [shr_record_of_loc shr_1 shr_m].
    all: first [rewrite Pos2Z.inj_xI|rewrite Pos2Z.inj_xO];
      Z.to_euclidean_division_equations; lia. }
  fold l'.
  assert (q / 2 <= round_nearest_even (q / 2) l' <= q / 2 + 1) as Hr.
  { destruct l' as [|[]]; simpl; try lia. destruct (Z.even (q / 2)); lia. }
  assert (2 ^ 52 <= q / 2 < 2 ^ 53) by (split; [apply Z.div_le_lower_bound|apply Z.div_lt_upper_bound]; lia).
  destruct (Z.ltb_spec (round_nearest_even (q / 2) l') (2 ^ 53)) as [Hlt|Hge].
  - rewrite (Zdigits2_bounds _ 53) by lia.
    replace (Z.max (53 + (e + 1) - 53) (3 - 1024 - 53) - (e + 1)) with 0 by lia.
    cbn [shr shr_record_of_loc shr_m].
    destruct (round_nearest_even (q / 2) l') eqn:E; try lia.
    destruct (Z.leb_spec (e + 1) (1024 - 53)); [done|lia].
  - replace (round_nearest_even (q / 2) l') with (2 ^ 53) by lia.
    rewrite (Zdigits2_bounds _ 54) by lia.
    replace (Z.max (54 + (e + 1) - 53) (3 - 1024 - 53) - (e + 1)) with 1 by lia.
    change (shr (shr_record_of_loc (2 ^ 53) loc_Exact) (e + 1) 1)
      with ({| shr_m := 2 ^ 52; shr_r := false; shr_s := false |}, e + 1 + 1).
    cbn [shr_m]. change (2 ^ 52) with 4503599627370496. cbn iota.
    replace (e + 1 + 1) with (e + 2) by lia.
    destruct (Z.leb_spec (e + 2) (1024 - 53)); [done|lia].
Qed.

Lemma mul_mono_l m a b : 0 <= m → a <= b → m * a <= m * b.
Proof. intros. by apply Z.mul_le_mono_nonneg_l. Qed.

Lemma quot_bounds mx my q r :
  my * q + r = mx * 9007199254740992 → 0 <= r < my →
  4503599627370496 <= mx < 9007199254740992 →
  4503599627370496 <= my < 9007199254740992 →
  4503599627370496 <= q < 18014398509481984 ∧
  (q < 9007199254740992 ↔ mx < my).
Proof.
  intros Hqr Hr Hx Hy.
  assert (0 <= q).
  { destruct (Z.le_gt_cases 0 q); [done|].
    pose proof (mul_mono_l my q (-1)); lia. }
  split; [split|split; intros].
  - destruct (Z.le_gt_cases 4503599627370496 q); [done|].
    pose proof (mul_mono_l my q 4503599627370495). lia.
  - destruct (Z.le_gt_cases 18014398509481984 q); [|done].
    pose proof (mul_mono_l my 18014398509481984 q). lia.
  - destruct (Z.le_gt_cases my mx); [|done].
    pose proof (mul_mono_l my q 9007199254740991). lia.
  - destruct (Z.le_gt_cases 9007199254740992 q); [|done].
    pose proof (mul_mono_l my 9007199254740992 q). lia.
Qed.

Lemma round53_decision mx my q r :
  my * q + r = mx * 9007199254740992 → 0 <= r < my →
  let R := if (2 * r <? my) || ((2 * r =? my) && Z.even q) then q else q + 1 in
  q <= R <= q + 1 ∧
  (R < 5404319767592960 ↔ mx * 18014398509481984 < 10808639535185919 * my).
Proof.
  intros Hqr Hr R.
  assert (q <= R <= q + 1) as HR by (subst R; destruct (_ || _); lia).
  split; [done|].
  destruct (Z.lt_trichotomy q 5404319767592959) as [Hlt|[Heq|Hgt]].
  - pose proof (mul_mono_l my q 5404319767592958). split; lia.
  - subst R. rewrite Heq in *. change (Z.even 5404319767592959) with false.
    rewrite andb_false_r, orb_false_r.
    destruct (Z.ltb_spec (2 * r) my); split; lia.
  - pose proof (mul_mono_l my 5404319767592960 q). split; lia.
Qed.

Lemma round54_decision mx my q r :
  my * q + r = mx * 9007199254740992 → 0 <= r < my →
  let R := if Z.even q then q / 2
           else if (r =? 0) && Z.even (q / 2) then q / 2 else q / 2 + 1 in
  q / 2 <= R <= q / 2 + 1 ∧
  (R < 5404319767592960 ↔ mx * 9007199254740992 < 10808639535185919 * my).
Proof.
  intros Hqr Hr R.
  pose proof (Z.div_mod q 2 ltac:(lia)) as Hh.
  pose proof (Z.mod_pos_bound q 2 ltac:(lia)) as Hh2.
  assert (Z.even q = (q mod 2 =? 0)) as Hev by (by rewrite Zeven_mod).
  assert (q / 2 <= R <= q / 2 + 1) as HR.
  { subst R. destruct (Z.even q); [lia|]. destruct (_ && _); lia. }
  split; [done|].
  destruct (Z.lt_trichotomy (q / 2) 5404319767592959) as [Hlt|[Heq|Hgt]].
  - pose proof (mul_mono_l my q 10808639535185917). split; lia.
  - subst R. rewrite Hev, Heq in *.
    change (Z.even 5404319767592959) with false. rewrite andb_false_r.
    destruct (Z.eqb_spec (q mod 2) 0) as [E|E].
    + assert (q = 10808639535185918) as -> by lia. split; lia.
    + assert (q = 10808639535185919) as -> by lia. split; lia.
  - pose proof (mul_mono_l my 10808639535185920 q). split; lia.
Qed.

Lemma scale_lt a u v : 0 < a → (u * a < v * a ↔ u < v).
Proof.
  intros Ha. symmetry. by apply Z.mul_lt_mono_pos_r.
Qed.

Lemma scaled_same mx my a :
  0 < a →
  mx * (a * 1) * 18014398509481984 < 10808639535185919 * (my * (a * 1))
  ↔ mx * 18014398509481984 < 10808639535185919 * my.
Proof.
  intros Ha.
  rewrite <- (scale_lt a (mx * 18014398509481984) (10808639535185919 * my) Ha).
  replace (mx * (a * 1) * 18014398509481984) with (mx * 18014398509481984 * a) by ring.
  replace (10808639535185919 * (my * (a * 1))) with (10808639535185919 * my * a) by ring.
  done.
Qed.

Lemma scaled_half mx my a :
  0 < a →
  mx * (a * 1) * 18014398509481984 < 10808639535185919 * (my * (a * 2))
  ↔ mx * 9007199254740992 < 10808639535185919 * my.
Proof.
  intros Ha.
  rewrite <- (scale_lt (2 * a) (mx * 9007199254740992) (10808639535185919 * my)
                ltac:(lia)).
  replace (mx * (a * 1) * 18014398509481984) with (mx * 9007199254740992 * (2 * a)) by ring.
  replace (10808639535185919 * (my * (a * 2))) with (10808639535185919 * my * (2 * a)) by ring.
  done.
Qed.

Lemma scaled_small mx my a Q :
  0 < a → 4 <= Q →
  mx < 9007199254740992 → 4503599627370496 <= my →
  mx * (a * 1) * 18014398509481984 < 10808639535185919 * (my * (a * Q)).
Proof.
  intros Ha HQ Hx Hy.
  pose proof (mul_mono_l a 4 Q ltac:(lia) HQ).
  assert (0 < a * Q) by lia.
  pose proof (Z.mul_le_mono_nonneg_r 4503599627370496 my (a * Q) ltac:(lia) Hy).
  pose proof (proj2 (scale_lt a mx 9007199254740992 Ha) Hx).
  lia.
Qed.

Lemma scaled_large mx my a P :
  0 < a → 2 <= P →
  4503599627370496 <= mx → my < 9007199254740992 →
  ¬ mx * (a * P) * 18014398509481984 < 10808639535185919 * (my * (a * 1)).
Proof.
  intros Ha HP Hx Hy.
  pose proof (mul_mono_l a 2 P ltac:(lia) HP).
  assert (0 < a * P) by lia.
  pose proof (Z.mul_le_mono_nonneg_r 4503599627370496 mx (a * P) ltac:(lia) Hx).
  pose proof (proj2 (scale_lt a my 9007199254740992 Ha) Hy).
  lia.
Qed.

Lemma round_new_location q my r :
  0 <= r < my →
  round_nearest_even q (new_location my r)
  = if (2 * r <? my) || ((2 * r =? my) && Z.even q) then q else q + 1.
Proof.
  intros Hr. unfold new_location, new_location_even, new_location_odd.
  assert (Z.even my = false → 2 * r ≠ my) as Hne.
  { intros Hev <-. rewrite Z.even_mul in Hev. done. }
  destruct (Z.ltb_spec (2 * r) my); destruct (Z.eqb_spec (2 * r) my);
    destruct (Z.even my); destruct (Z.eqb_spec r 0);
    try destruct (Z.compare_spec (2 * r) my);
    try destruct (Z.compare_spec (2 * r + 1) my);
    cbn [round_nearest_even orb andb]; try done; try lia.
  all: try (exfalso; apply Hne; done).
Qed.

Lemma round_shifted_location q my r :
  0 <= r < my → 0 < q →
  round_nearest_even (q / 2)
    (loc_of_shr_record (shr_1 (shr_record_of_loc q (new_location my r))))
  = if Z.even q then q / 2
    else if (r =? 0) && Z.even (q / 2) then q / 2 else q / 2 + 1.
Proof.
  intros Hr Hq.
  assert (∃ c, new_location my r = (if r =? 0 then loc_Exact else loc_Inexact c))
    as [c ->].
  { unfold new_location, new_location_even, new_location_odd.
    destruct (Z.even my); destruct (r =? 0); first [by exists Eq | by eexists]. }
  destruct q as [|[p|p|]|]; try lia; destruct (r =? 0); try destruct c; simpl; done.
Qed.


Ltac bool_cases :=
  repeat match goal with
  | |- context [Z.ltb ?a ?b] => destruct (Z.ltb_spec a b)
  | |- context [Z.eqb ?a ?b] => destruct (Z.eqb_spec a b)
  end; cbn [orb andb].

Lemma pow2_split a b : 0 <= a → 0 <= b → 2 ^ (a + b) = 2 ^ a * 2 ^ b.
Proof. intros. by rewrite Z.pow_add_r. Qed.

Lemma ltb_div_exact mx ex my ey :
  2 ^ 52 <= Zpos mx < 2 ^ 53 → 2 ^ 52 <= Zpos my < 2 ^ 53 →
  -52 <= ex <= 0 → -52 <= ey <= 0 →
  SFltb (SFdiv 53 1024 (S754_finite false mx ex) (S754_finite false my ey))
        (S754_finite false 5404319767592960 (-53))
  = (Zpos mx * 2 ^ (- ey) * 2 ^ 54 <? load_threshold * (Zpos my * 2 ^ (- ex))).
Proof.
  intros Hx Hy Hex Hey. unfold SFdiv. rewrite div_core by lia.
  cbn [xorb].
  pose proof (Z.div_mod (Zpos mx * 2 ^ 53) (Zpos my) ltac:(lia)) as Hqr.
  pose proof (Z.mod_pos_bound (Zpos mx * 2 ^ 53) (Zpos my) ltac:(lia)) as Hr.
  set (q := Zpos mx * 2 ^ 53 / Zpos my) in *.
  set (r := Zpos mx * 2 ^ 53 mod Zpos my) in *.
  (* both scalings as multiples of a common power of two *)
  assert (∃ a P Q, 0 < a ∧ 2 ^ (- ey) = a * P ∧ 2 ^ (- ex) = a * Q ∧
            ((ex = ey ∧ P = 1 ∧ Q = 1) ∨ (ex = ey - 1 ∧ P = 1 ∧ Q = 2) ∨
             (ex <= ey - 2 ∧ P = 1 ∧ 4 <= Q) ∨ (ey < ex ∧ 2 <= P ∧ Q = 1)))
    as (a & P & Q & Ha & -> & -> & Hcase).
  { destruct (Z.lt_total ex ey) as [Hlt|[->|Hgt]].
    - exists (2 ^ (- ey)), 1, (2 ^ (ey - ex)).
      split; [apply Z.pow_pos_nonneg; lia|].
      split; [lia|]. split; [rewrite <- pow2_split by lia; f_equal; lia|].
      destruct (Z.eq_dec ex (ey - 1)) as [->|].
      + right; left. replace (ey - (ey - 1)) with 1 by lia. done.
      + right; right; left. split_and!; [lia|done|].
        change 4 with (2 ^ 2). apply Z.pow_le_mono_r; lia.
    - exists (2 ^ (- ey)), 1, 1. split; [apply Z.pow_pos_nonneg; lia|].
      split_and!; [lia|lia|]. by left.
    - exists (2 ^ (- ex)), (2 ^ (ex - ey)), 1.
      split; [apply Z.pow_pos_nonneg; lia|].
      split; [rewrite <- pow2_split by lia; f_equal; lia|]. split; [lia|].
      right; right; right. split_and!; [lia| |done].
      change 2 with (2 ^ 1) at 1. apply Z.pow_le_mono_r; lia. }
  unfold load_threshold.
  change (2 ^ 52) with 4503599627370496 in *.
  change (2 ^ 53) with 9007199254740992 in *.
  change (2 ^ 54) with 18014398509481984 in *.
  rewrite (Z.mul_comm (Zpos my) q) in Hqr. rewrite (Z.mul_comm q) in Hqr.
  symmetry in Hqr.
  destruct (quot_bounds _ _ _ _ Hqr Hr Hx Hy) as [Hq Hq53].
  pose proof (round53_decision _ _ _ _ Hqr Hr) as [HRb53 HR53].
  pose proof (round54_decision _ _ _ _ Hqr Hr) as [HRb54 HR54].
  cbv zeta in HRb53, HR53, HRb54, HR54.
  assert (2 * (q / 2) <= q <= 2 * (q / 2) + 1) as Hh.
  { pose proof (Z.div_mod q 2 ltac:(lia)). pose proof (Z.mod_pos_bound q 2 ltac:(lia)).
    lia. }
  (* the exact comparison, case by case on the exponent gap *)
  assert (match Z.compare ex ey with
          | Eq => Zpos mx * (a * P) * 18014398509481984
                    < 10808639535185919 * (Zpos my * (a * Q))
                  ↔ Zpos mx * 18014398509481984 < 10808639535185919 * Zpos my
          | Lt => (ex = ey - 1 ∧
                   (Zpos mx * (a * P) * 18014398509481984
                      < 10808639535185919 * (Zpos my * (a * Q))
                    ↔ Zpos mx * 9007199254740992 < 10808639535185919 * Zpos my))
                  ∨ (ex <= ey - 2 ∧
                     Zpos mx * (a * P) * 18014398509481984
                      < 10808639535185919 * (Zpos my * (a * Q)))
          | Gt => ¬ Zpos mx * (a * P) * 18014398509481984
                      < 10808639535185919 * (Zpos my * (a * Q))
          end) as Hrhs.
  { destruct Hcase as [(-> & -> & ->)|[(-> & -> & ->)|[(H & -> & HQ)|(H & HP & ->)]]].
    - rewrite Z.compare_refl. by apply scaled_same.
    - rewrite (proj2 (Z.compare_lt_iff _ _)) by lia. left. split; [done|].
      by apply scaled_half.
    - rewrite (proj2 (Z.compare_lt_iff _ _)) by lia. right. split; [done|].
      apply scaled_small; lia.
    - rewrite (proj2 (Z.compare_gt_iff _ _)) by lia. apply scaled_large; lia. }
  clear Hcase.
  set (A := Zpos mx * (a * P) * 18014398509481984) in *.
  set (B := 10808639535185919 * (Zpos my * (a * Q))) in *.
  destruct (Z.lt_ge_cases q 9007199254740992) as [Hq53'|Hq54'].
  - rewrite round_aux_53 by (change (2 ^ 52) with 4503599627370496;
      change (2 ^ 53) with 9007199254740992; lia).
    rewrite round_new_location by lia.
    set (R := if (2 * r <? Zpos my) || ((2 * r =? Zpos my) && Z.even q) then q else q + 1) in *.
    change (2 ^ 52) with 4503599627370496 in *.
    change (2 ^ 53) with 9007199254740992 in *.
    destruct (Z.ltb_spec R 9007199254740992) as [HR|HR]; rewrite SFltb_finite.
    + rewrite Z2Pos.id by lia.
      destruct (Z.compare_spec ex ey) as [->|Hlt|Hgt]; 
        [|destruct Hrhs as [[-> Hrhs]|[? Hrhs]]|];
        destruct (Z.ltb_spec A B); bool_cases; try done; lia.
    + change (Z.pos (Z.to_pos 4503599627370496)) with 4503599627370496.
      destruct (Z.compare_spec ex ey) as [->|Hlt|Hgt]; 
        [|destruct Hrhs as [[-> Hrhs]|[? Hrhs]]|];
        destruct (Z.ltb_spec A B); bool_cases; try done; lia.
  - rewrite round_aux_54 by (change (2 ^ 54) with 18014398509481984;
      change (2 ^ 53) with 9007199254740992; lia).
    cbv zeta. rewrite round_shifted_location by lia.
    set (R := if Z.even q then q / 2
              else if (r =? 0) && Z.even (q / 2) then q / 2 else q / 2 + 1) in *.
    change (2 ^ 52) with 4503599627370496 in *.
    change (2 ^ 53) with 9007199254740992 in *.
    destruct (Z.ltb_spec R 9007199254740992) as [HR|HR]; rewrite SFltb_finite.
    + rewrite Z2Pos.id by lia.
      destruct (Z.compare_spec ex ey) as [->|Hlt|Hgt]; 
        [|destruct Hrhs as [[-> Hrhs]|[? Hrhs]]|];
        destruct (Z.ltb_spec A B); bool_cases; try done; lia.
    + change (Z.pos (Z.to_pos 4503599627370496)) with 4503599627370496.
      destruct (Z.compare_spec ex ey) as [->|Hlt|Hgt]; 
        [|destruct Hrhs as [[-> Hrhs]|[? Hrhs]]|];
        destruct (Z.ltb_spec A B); bool_cases; try done; lia.
Qed.

Lemma widen_MAX_LOAD_FACTOR :
  widen_double MAX_LOAD_FACTOR = S754_finite false 5404319767592960 (-53).
Proof. reflexivity. Qed.

Lemma load_below_exact sz n :
  0 <= sz → sz + 1 < 2 ^ 53 → 1 <= n < 2 ^ 53 →
  load_below sz n = load_below_Z sz n.
Proof.
  intros Hsz Hsz' Hn. unfold load_below, load_below_Z.
  rewrite widen_MAX_LOAD_FACTOR.
  destruct (cast_double_normal (sz + 1) ltac:(lia)) as (mx & -> & Hmx & Hbx).
  destruct (cast_double_normal n ltac:(lia)) as (my & -> & Hmy & Hby).
  assert (0 <= Z.log2 (sz + 1) <= 52) as Hlx.
  { split; [apply Z.log2_nonneg|]. apply Z.lt_succ_r, Z.log2_lt_pow2; lia. }
  assert (0 <= Z.log2 n <= 52) as Hly.
  { split; [apply Z.log2_nonneg|]. apply Z.lt_succ_r, Z.log2_lt_pow2; lia. }
  rewrite ltb_div_exact by lia. rewrite Hmx, Hmy.
  replace (- (Z.log2 n - 52)) with (52 - Z.log2 n) by lia.
  replace (- (Z.log2 (sz + 1) - 52)) with (52 - Z.log2 (sz + 1)) by lia.
  set (c := 2 ^ (52 - Z.log2 (sz + 1)) * 2 ^ (52 - Z.log2 n)).
  assert (0 < c) as Hc.
  { apply Z.mul_pos_pos; apply Z.pow_pos_nonneg; lia. }
  replace ((sz + 1) * 2 ^ (52 - Z.log2 (sz + 1)) * 2 ^ (52 - Z.log2 n) * 2 ^ 54)
    with ((sz + 1) * 2 ^ 54 * c) by (unfold c; ring).
  replace (load_threshold * (n * 2 ^ (52 - Z.log2 n) * 2 ^ (52 - Z.log2 (sz + 1))))
    with (load_threshold * n * c) by (unfold c; ring).
  pose proof (scale_lt c ((sz + 1) * 2 ^ 54) (load_threshold * n) Hc) as Hs.
  destruct (Z.ltb_spec ((sz + 1) * 2 ^ 54 * c) (load_threshold * n * c));
    destruct (Z.ltb_spec ((sz + 1) * 2 ^ 54) (load_threshold * n)); try done;
    exfalso; lia.
Qed.

(** ** Arithmetic of bucket indices *)

Open Scope nat_scope.

Lemma succ_mod i n :
  i < n → (i + 1) mod n = if decide (i + 1 = n) then 0 else i + 1.
Proof.
  intros Hi. case_decide as Hn.
  - rewrite Hn. apply Nat.Div0.mod_same.
  - apply Nat.mod_small. lia.
Qed.

Lemma succ_mod_lt i n : i < n → (i + 1) mod n < n.
Proof. intros Hi. apply Nat.mod_upper_bound. lia. Qed.

Lemma succ_mod_inj i j n :
  i < n → j < n → (i + 1) mod n = (j + 1) mod n → i = j.
Proof. intros Hi Hj. rewrite !succ_mod by done. repeat case_decide; lia. Qed.

Lemma succ_mod_ne i n : 2 ≤ n → i < n → (i + 1) mod n ≠ i.
Proof. intros Hn Hi. rewrite succ_mod by done. case_decide; lia. Qed.

Lemma add_succ_mod a k n : ((a + 1) mod n + k) mod n = (a + S k) mod n.
Proof. rewrite Nat.Div0.add_mod_idemp_l. f_equal. lia. Qed.

Lemma mod_succ_step a j n : ((a + j) mod n + 1) mod n = (a + S j) mod n.
Proof. rewrite Nat.Div0.add_mod_idemp_l. f_equal. lia. Qed.

Lemma mod_reach i e n : i < n → e < n → ∃ k, k < n ∧ (i + k) mod n = e.
Proof.
  intros Hi He. destruct (decide (i ≤ e)).
  - exists (e - i). split; [lia|]. replace (i + (e - i)) with e by lia.
    by apply Nat.mod_small.
  - exists (n - i + e). split; [lia|].
    replace (i + (n - i + e)) with (e + 1 * n) by lia.
    rewrite Nat.Div0.mod_add. by apply Nat.mod_small.
Qed.

Open Scope Z_scope.

(** ** The prime search and the growth sequence *)

Lemma next_prime_spec n :
  n <= next_prime n ∧ trial_division (next_prime n) = true ∧
  ∀ q, n <= q < next_prime n → trial_division q = false.
Proof.
  induction (next_candidate_wf n) as [n _ IH].
  rewrite next_prime_unfold. destruct (trial_division n) eqn:Hn.
  - split_and!; [lia|done|intros; lia].
  - destruct (IH (n + 1)) as (Hle & Hp & Hmin); [done|].
    split_and!; [lia|done|]. intros q Hq.
    destruct (Z.eq_dec q n) as [->|]; [done|]. apply Hmin. lia.
Qed.

Lemma load_below_Z_spec sz n :
  load_below_Z sz n = true ↔ (sz + 1) * 2 ^ 54 < load_threshold * n.
Proof. unfold load_below_Z. apply Z.ltb_lt. Qed.

Lemma grow_ge n sz : 0 <= n → n <= grow n sz.
Proof.
  intros Hn. unfold grow. destruct (load_below sz n); [lia|].
  destruct (next_prime_spec (n * 2)) as [? _]. lia.
Qed.

Lemma buckets_after_0 n sz : buckets_after n sz 0 = n.
Proof. done. Qed.

Lemma buckets_after_S n sz k :
  buckets_after n sz (S k) = buckets_after (grow n sz) (sz + 1) k.
Proof. unfold buckets_after. by rewrite Nat.iter_succ_r. Qed.

Lemma buckets_after_ge n sz k : 0 <= n → n <= buckets_after n sz k.
Proof.
  revert n sz. induction k as [|k IH]; intros n sz Hn; [by rewrite buckets_after_0|].
  rewrite buckets_after_S. pose proof (grow_ge n sz Hn).
  etrans; [done|]. apply IH. lia.
Qed.

Lemma buckets_after_add n sz a b :
  buckets_after n sz (a + b)
  = buckets_after (buckets_after n sz a) (sz + Z.of_nat a) b.
Proof.
  revert n sz. induction a as [|a IH]; intros n sz.
  - rewrite buckets_after_0. simpl. f_equal. lia.
  - change (S a + b)%nat with (S (a + b)). rewrite !buckets_after_S, IH.
    f_equal. lia.
Qed.

(** Insertions that all find room leave the bucket count. *)
Lemma buckets_after_room n sz k :
  1 <= n < 2 ^ 53 → 0 <= sz → sz + Z.of_nat k < 2 ^ 53 →
  (sz + Z.of_nat k) * 2 ^ 54 < load_threshold * n →
  buckets_after n sz k = n.
Proof.
  revert sz. induction k as [|k IH]; intros sz Hn Hsz Hb Hroom; [done|].
  rewrite buckets_after_S. unfold grow.
  rewrite load_below_exact by lia.
  rewrite (proj2 (load_below_Z_spec sz n)) by lia.
  apply IH; lia.
Qed.

Lemma buckets_after_fast_correct fuel : ∀ n sz k r,
  buckets_after_fast fuel n sz k = Some r →
  buckets_after n sz (Z.to_nat k) = r.
Proof.
  induction fuel as [|fuel IH]; intros n sz k r; [done|].
  simpl buckets_after_fast.
  destruct (_ && _) eqn:Hb; [|done]. simpl negb. cbv iota.
  repeat (apply andb_prop in Hb as [Hb ?]).
  assert (1 <= n) by (by apply Z.leb_le).
  assert (n < 2 ^ 53) by (by apply Z.ltb_lt).
  assert (0 <= sz) by (by apply Z.leb_le).
  assert (0 <= k) by (by apply Z.leb_le).
  assert (sz + k < 2 ^ 53) by (by apply Z.ltb_lt).
  pose proof (Z.div_mod (load_threshold * n - 1) (2 ^ 54) ltac:(lia)) as Hdm.
  pose proof (Z.mod_pos_bound (load_threshold * n - 1) (2 ^ 54) ltac:(lia)) as Hmb.
  set (q := (load_threshold * n - 1) / 2 ^ 54) in *.
  set (rem := (load_threshold * n - 1) mod 2 ^ 54) in *.
  set (room := Z.max 0 (q - sz)).
  assert (0 <= room) by lia.
  assert (0 < room → (sz + room) * 2 ^ 54 < load_threshold * n) as Hfit.
  { unfold room, load_threshold in *. change (2 ^ 54) with 18014398509481984 in *.
    lia. }
  assert (load_threshold * n <= (sz + room + 1) * 2 ^ 54) as Hfull.
  { unfold room, load_threshold in *. change (2 ^ 54) with 18014398509481984 in *.
    lia. }
  destruct (Z.leb_spec k room) as [Hk|Hk].
  - intros [= <-]. destruct (Z.eq_dec k 0) as [->|]; [done|].
    specialize (Hfit ltac:(lia)).
    unfold load_threshold in *. change (2 ^ 54) with 18014398509481984 in *.
    apply buckets_after_room; rewrite ?Z2Nat.id by lia; unfold load_threshold; lia.
  - intros Hrec. apply IH in Hrec.
    replace (Z.to_nat k)
      with (Z.to_nat room + S (Z.to_nat (k - room - 1)))%nat by lia.
    rewrite buckets_after_add, buckets_after_S.
    assert (buckets_after n sz (Z.to_nat room) = n) as ->.
    { destruct (Z.eq_dec room 0) as [->|]; [done|].
      apply buckets_after_room; rewrite ?Z2Nat.id by lia; lia. }
    rewrite Z2Nat.id by lia. unfold grow.
    rewrite load_below_exact by lia.
    assert (load_below_Z (sz + room) n = false) as ->.
    { unfold load_below_Z. apply Z.ltb_ge. lia. }
    done.
Qed.



(** Trial division up to the square root decides primality. *)
Lemma small_factor n d :
  1 < d < n → (d | n) → ∃ e, 2 <= e ∧ e * e <= n ∧ n mod e = 0.
Proof.
  intros Hd [q Hq].
  assert (1 < q < n) as Hq1 by nia.
  destruct (Z.le_gt_cases d q) as [Hle|Hgt].
  - exists d. split_and!; [lia|nia|]. apply Z.mod_divide; [lia|]. by exists q.
  - exists q. split_and!; [lia|nia|]. apply Z.mod_divide; [lia|].
    exists d. lia.
Qed.

Lemma trial_division_prime n : 2 <= n → trial_division n = true ↔ prime n.
Proof.
  intros Hn. rewrite trial_division_true, <- prime_alt. split.
  - intros H. split; [lia|]. intros d Hd Hdiv.
    destruct (small_factor n d Hd Hdiv) as (e & He & Hee & Hmod).
    by apply (H e).
  - intros [_ H] d Hd Hdd Hmod. apply (H d); [nia|].
    apply Z.mod_divide; [lia|done].
Qed.

Lemma next_prime_least n :
  2 <= n →
  prime (next_prime n) ∧ n <= next_prime n ∧
  ∀ q, prime q → n <= q → next_prime n <= q.
Proof.
  intros Hn. destruct (next_prime_spec n) as (Hle & Hp & Hmin).
  split_and!; [by apply trial_division_prime; [lia|]|done|].
  intros q Hq Hnq. destruct (Z.le_gt_cases (next_prime n) q) as [|Hlt]; [done|].
  exfalso. apply trial_division_prime in Hq; [|lia].
  rewrite Hmin in Hq by lia. done.
Qed.

(** The bucket counts a map can have. *)
Definition small_bucket_counts : list Z :=
  [37; 79; 163; 331; 673; 1361; 2729; 5471; 10949; 21911; 43853; 87719;
   175447; 350899; 701819; 1403641; 2807303; 5614657; 11229331].

Lemma bucket_count_cases n :
  bucket_count n → n ∈ small_bucket_counts ∨ 22458671 <= n.
Proof.
  induction 1 as [|n _ [Hin|Hge]].
  - left. by left.
  - unfold small_bucket_counts in Hin.
    repeat (apply elem_of_cons in Hin as [->|Hin];
            [first [ left; vm_compute; set_solver | right; by vm_compute ]|]).
    by apply elem_of_nil in Hin.
  - right. pose proof (next_prime_spec (n * 2)). lia.
Qed.

Lemma bucket_count_prime n : bucket_count n → prime n ∧ 37 <= n.
Proof.
  induction 1 as [|n _ [_ IH]].
  - split; [|done]. apply trial_division_prime; [done|by vm_compute].
  - destruct (next_prime_least (n * 2)) as (Hp & Hle & _); [lia|].
    split; [done|lia].
Qed.

(** Up to 11229331 buckets the threshold of the test is the one of 3/5. *)
Lemma small_threshold n sz :
  bucket_count n → n <= 11229331 → 0 <= sz →
  sz * 2 ^ 54 < load_threshold * n ↔ 5 * sz < 3 * n.
Proof.
  intros Hn Hle Hsz. apply bucket_count_cases in Hn as [Hin|Hge]; [|lia].
  unfold load_threshold. change (2 ^ 54) with 18014398509481984.
  unfold small_bucket_counts in Hin.
  repeat (apply elem_of_cons in Hin as [->|Hin]; [lia|]).
  by apply elem_of_nil in Hin.
Qed.

Close Scope Z_scope.

(** ** The container *)

Section Proofs.
Context {Key Value : Type} `{EqDecision Key}.
Variable hasher : Key → nat.
Variable default_value : Value.
Variable max_buckets : Z.
(** No bucket array has 2^53 slots or more (it would take 2^56 bytes), so
    the conversions of sizes to [double] in the load test are exact. *)
Hypothesis max_buckets_exact : (max_buckets < 2 ^ 53)%Z.

Implicit Types (m : @HashMap Key Value) (b : @BucketItem Key Value)
  (h cur : node) (key : Key).

Abbreviation key_of b := (fst (data b)).
Abbreviation dist b := (distance_to_ideal b).

(** *** Invariants *)

(** Every occupied slot designates a node that records this slot and lies
    [distance_to_ideal] steps after its ideal slot. *)
Definition slots_ok m : Prop :=
  ∀ i h, table_ m !! i = Some (Some h) →
    ∃ b, nodes_ m !! h = Some b ∧ id_in_table b = i ∧
         (hasher (key_of b) + dist b) mod buckets m = i.

(** Robin Hood order: an entry displaced by [d > 0] follows an entry
    displaced by at least [d - 1]. *)
Definition robin_hood m : Prop :=
  ∀ i h b, i < buckets m →
    table_ m !! ((i + 1) mod buckets m) = Some (Some h) →
    nodes_ m !! h = Some b → 0 < dist b →
    ∃ h' b', table_ m !! i = Some (Some h') ∧ nodes_ m !! h' = Some b' ∧
             dist b ≤ S (dist b').

(** Every node except [cur] sits in the slot it records. *)
Definition nodes_placed m (cur : option node) : Prop :=
  ∀ h b, nodes_ m !! h = Some b → Some h ≠ cur →
    table_ m !! id_in_table b = Some (Some h).

Definition keys_distinct m : Prop :=
  ∀ h1 h2 b1 b2, nodes_ m !! h1 = Some b1 → nodes_ m !! h2 = Some b2 →
    key_of b1 = key_of b2 → h1 = h2.

Definition free_slot m : Prop := ∃ e, table_ m !! e = Some None.

Definition list_ok m : Prop :=
  NoDup (items_ m) ∧ (∀ h, h ∈ items_ m ↔ is_Some (nodes_ m !! h)) ∧
  (∀ h, is_Some (nodes_ m !! h) → h < fresh_ m).

Record wf m : Prop := {
  wf_list : list_ok m;
  wf_slots : slots_ok m;
  wf_robin : robin_hood m;
  wf_placed : nodes_placed m None;
  wf_keys : keys_distinct m;
  wf_buckets : 37 ≤ buckets m ∧ (Z.of_nat (buckets m) < 2 ^ 53)%Z;
  wf_chain : bucket_count (Z.of_nat (buckets m));
  wf_load : (Z.of_nat (size m) * 2 ^ 54 < load_threshold * Z.of_nat (buckets m))%Z
}.

(** *** Probe sequences *)

Lemma find_loop_unfold fuel key hash m :
  find_loop fuel key hash m =
  match table_ m !! hash with
  | None => Undefined
  | Some None => Ret None
  | Some (Some h) =>
      match nodes_ m !! h with
      | None => Undefined
      | Some b =>
          if decide (key_of b = key) then Ret (Some h)
          else match fuel with
               | O => Diverge
               | S fuel' => find_loop fuel' key ((hash + 1) mod buckets m) m
               end
      end
  end.
Proof. by destruct fuel. Qed.


Lemma lookup_lt_buckets m i x : table_ m !! i = Some x → i < buckets m.
Proof. apply lookup_lt_Some. Qed.

Lemma lookup_buckets_is_Some m i : i < buckets m → is_Some (table_ m !! i).
Proof. apply lookup_lt_is_Some_2. Qed.

(** All slots from the ideal slot of an entry up to its own slot are
    occupied. *)
Lemma probe_chain m i h b :
  slots_ok m → robin_hood m → 0 < buckets m →
  table_ m !! i = Some (Some h) → nodes_ m !! h = Some b →
  ∀ j, j ≤ dist b →
    ∃ h' b', table_ m !! ((hasher (key_of b) + j) mod buckets m) = Some (Some h') ∧
             nodes_ m !! h' = Some b' ∧ j ≤ dist b'.
Proof.
  intros Hs Hr Hn Hi Hb j Hj.
  remember (dist b - j) as k eqn:Hk. revert j Hj Hk.
  induction k as [|k IH]; intros j Hj Hk.
  - assert (j = dist b) as -> by lia. exists h, b.
    destruct (Hs _ _ Hi) as (b' & Hb' & _ & Hd).
    rewrite Hb in Hb'. injection Hb' as <-. by rewrite Hd.
  - destruct (IH (S j)) as (h1 & b1 & Ht1 & Hb1 & Hd1); [lia|lia|].
    rewrite <- mod_succ_step in Ht1.
    assert ((hasher (key_of b) + j) mod buckets m < buckets m) as Hlt
      by (apply Nat.mod_upper_bound; lia).
    destruct (Hr _ _ _ Hlt Ht1 Hb1) as (h0 & b0 & Ht0 & Hb0 & Hd0); [lia|].
    exists h0, b0. split_and!; [done|done|lia].
Qed.

(** A free slot bounds every displacement by the number of buckets. *)
Lemma dist_lt_buckets m i h b :
  slots_ok m → robin_hood m → free_slot m →
  table_ m !! i = Some (Some h) → nodes_ m !! h = Some b →
  dist b < buckets m.
Proof.
  intros Hs Hr [e He] Hi Hb.
  pose proof (lookup_lt_buckets _ _ _ He) as Hen.
  destruct (decide (dist b < buckets m)) as [|Hge]; [done|]. exfalso.
  destruct (mod_reach (hasher (key_of b) mod buckets m) e (buckets m))
    as (k & Hk & Hke); [apply Nat.mod_upper_bound; lia|done|].
  rewrite Nat.Div0.add_mod_idemp_l in Hke.
  destruct (probe_chain m i h b Hs Hr ltac:(lia) Hi Hb k ltac:(lia))
    as (h' & b' & Ht & _). congruence.
Qed.

(** [find] on a key that is stored returns its node. *)
Lemma find_loop_present m i h b fuel j :
  slots_ok m → robin_hood m → keys_distinct m → 0 < buckets m →
  table_ m !! i = Some (Some h) → nodes_ m !! h = Some b →
  j ≤ dist b → dist b - j ≤ fuel →
  find_loop fuel (key_of b) ((hasher (key_of b) + j) mod buckets m) m
  = Ret (Some h).
Proof.
  intros Hs Hr Hk Hn Hi Hb. revert j.
  induction fuel as [|fuel IH]; intros j Hj Hf.
  - assert (j = dist b) as -> by lia.
    destruct (Hs _ _ Hi) as (b' & Hb' & _ & Hd).
    rewrite Hb in Hb'. injection Hb' as <-.
    rewrite find_loop_unfold, Hd, Hi, Hb. by rewrite decide_True.
  - destruct (probe_chain m i h b Hs Hr Hn Hi Hb j Hj) as (h' & b' & Ht & Hb' & Hd').
    rewrite find_loop_unfold, Ht, Hb'. case_decide as Hkey.
    + by rewrite (Hk _ _ _ _ Hb' Hb Hkey).
    + destruct (decide (j = dist b)) as [->|].
      { destruct (Hs _ _ Hi) as (b0 & Hb0 & _ & Hd).
        rewrite Hb in Hb0. injection Hb0 as <-. rewrite Hd in Ht.
        rewrite Hi in Ht. injection Ht as <-. rewrite Hb in Hb'.
        by injection Hb' as <-. }
      rewrite mod_succ_step. apply IH; lia.
Qed.

(** [find] on a key that is not stored stops at the first free slot. *)
Lemma find_loop_absent m key fuel hash k :
  slots_ok m → (∀ h b, nodes_ m !! h = Some b → key_of b ≠ key) →
  k ≤ fuel → table_ m !! ((hash + k) mod buckets m) = Some None →
  hash < buckets m →
  find_loop fuel key hash m = Ret None.
Proof.
  intros Hs Hkey. revert hash k.
  induction fuel as [|fuel IH]; intros hash k Hk Hfree Hh.
  - assert (k = 0) as -> by lia. rewrite Nat.add_0_r, Nat.mod_small in Hfree by done.
    rewrite find_loop_unfold. by rewrite Hfree.
  - rewrite find_loop_unfold.
    destruct (table_ m !! hash) as [[h|]|] eqn:Ht; [|done|].
    + destruct (Hs _ _ Ht) as (b & Hb & _). rewrite Hb.
      rewrite decide_False by by eapply Hkey.
      destruct k as [|k].
      { rewrite Nat.add_0_r, Nat.mod_small in Hfree by done. congruence. }
      apply (IH _ k); [lia| |apply Nat.mod_upper_bound; lia].
      by rewrite add_succ_mod.
    + destruct (lookup_buckets_is_Some m hash Hh) as [x Hx]. by rewrite Ht in Hx.
Qed.

(** *** Counting: fewer entries than buckets leaves a free slot *)

Lemma all_occupied {A} (l : list (option A)) :
  None ∉ l → ∃ hs, l = Some <$> hs.
Proof.
  induction l as [|[x|] l IH]; intros Hl.
  - by exists [].
  - destruct IH as [hs ->]; [set_solver|]. by exists (x :: hs).
  - exfalso. apply Hl. left.
Qed.

Lemma exists_free_slot m :
  list_ok m → slots_ok m → size m < buckets m → free_slot m.
Proof.
  intros (Hnd & Hdom & _) Hs Hlt.
  destruct (decide (None ∈ table_ m)) as [Hin|Hnin].
  { apply list_elem_of_lookup in Hin as [e He]. by exists e. }
  exfalso. destruct (all_occupied _ Hnin) as [hs Hhs].
  assert (NoDup hs) as Hhnd.
  { apply NoDup_alt. intros i j h Hi Hj.
    assert (table_ m !! i = Some (Some h)) as Hti
      by (by rewrite Hhs, list_lookup_fmap, Hi).
    assert (table_ m !! j = Some (Some h)) as Htj
      by (by rewrite Hhs, list_lookup_fmap, Hj).
    destruct (Hs _ _ Hti) as (b & Hb & <- & _).
    destruct (Hs _ _ Htj) as (b' & Hb' & <- & _). congruence. }
  assert (hs ⊆+ items_ m) as Hsub.
  { apply NoDup_submseteq; [done|]. intros h Hh.
    apply list_elem_of_lookup in Hh as [i Hi]. apply Hdom.
    assert (table_ m !! i = Some (Some h)) as Hti
      by (by rewrite Hhs, list_lookup_fmap, Hi).
    destruct (Hs _ _ Hti) as (b & Hb & _). by exists b. }
  apply submseteq_length in Hsub.
  unfold size, buckets in Hlt. rewrite Hhs, length_fmap in Hlt. lia.
Qed.

(** *** [find] *)

Lemma find_present m h b :
  slots_ok m → robin_hood m → keys_distinct m → free_slot m →
  nodes_placed m None →
  nodes_ m !! h = Some b → find hasher (key_of b) m = Ret (Some h).
Proof.
  intros Hs Hr Hk Hf Hp Hb. unfold find.
  assert (table_ m !! id_in_table b = Some (Some h)) as Ht by (by apply Hp).
  pose proof (lookup_lt_buckets _ _ _ Ht) as Hn.
  destruct (Nat.eqb_spec (buckets m) 0) as [|_]; [lia|].
  pose proof (dist_lt_buckets m _ h b Hs Hr Hf Ht Hb).
  replace (hasher (key_of b) mod buckets m)
    with ((hasher (key_of b) + 0) mod buckets m) by (by rewrite Nat.add_0_r).
  eapply find_loop_present; eauto; lia.
Qed.

Lemma find_absent m key :
  slots_ok m → free_slot m →
  (∀ h b, nodes_ m !! h = Some b → key_of b ≠ key) →
  find hasher key m = Ret None.
Proof.
  intros Hs [e He] Hkey. unfold find.
  pose proof (lookup_lt_buckets _ _ _ He) as Hn.
  destruct (Nat.eqb_spec (buckets m) 0) as [|_]; [lia|].
  destruct (mod_reach (hasher key mod buckets m) e (buckets m))
    as (k & Hk & Hke); [apply Nat.mod_upper_bound; lia|done|].
  eapply (find_loop_absent m key _ _ k); eauto; [lia|by rewrite Hke|].
  apply Nat.mod_upper_bound; lia.
Qed.

(** *** Updating nodes and slots *)

Lemma update_node_eq h f m b :
  nodes_ m !! h = Some b →
  update_node h f m = Ret (with_nodes (<[h := f b]> (nodes_ m)) m).
Proof. intros Hb. unfold update_node. by rewrite Hb. Qed.

(** The predecessor condition of the entry carried by the probing loop. *)
Definition follows m (d : nat) (hash : nat) : Prop :=
  0 < d → ∀ i, i < buckets m → (i + 1) mod buckets m = hash →
    ∃ h' b', table_ m !! i = Some (Some h') ∧ nodes_ m !! h' = Some b' ∧
             d ≤ S (dist b').

Definition not_in_table m cur : Prop := ∀ i, table_ m !! i ≠ Some (Some cur).

Definition stored m hash cur bc : HashMap :=
  with_nodes (<[cur := set_id hash bc]> (nodes_ m))
    (with_table (<[hash := Some cur]> (table_ m)) m).

Lemma stored_table m hash cur bc :
  table_ (stored m hash cur bc) = <[hash := Some cur]> (table_ m).
Proof. done. Qed.
Lemma stored_nodes m hash cur bc :
  nodes_ (stored m hash cur bc) = <[cur := set_id hash bc]> (nodes_ m).
Proof. done. Qed.
Lemma stored_buckets m hash cur bc : buckets (stored m hash cur bc) = buckets m.
Proof. unfold buckets. by rewrite stored_table, length_insert. Qed.

Lemma store_at_eq m hash cur bc :
  nodes_ m !! cur = Some bc → store_at hash cur m = Ret (stored m hash cur bc).
Proof. intros Hb. unfold store_at. by rewrite (update_node_eq _ _ _ bc). Qed.

Lemma stored_slots_ok m hash cur bc :
  slots_ok m → nodes_ m !! cur = Some bc → not_in_table m cur →
  (hasher (key_of bc) + dist bc) mod buckets m = hash → hash < buckets m →
  slots_ok (stored m hash cur bc).
Proof.
  intros Hs Hc Hout Hd Hh i h.
  rewrite stored_buckets, stored_table, stored_nodes. intros Ht. destruct (decide (i = hash)) as [->|Hne].
  - rewrite list_lookup_insert_eq in Ht by done. injection Ht as <-.
    rewrite lookup_insert_eq. by eexists.
  - rewrite list_lookup_insert_ne in Ht by done.
    assert (h ≠ cur) by (intros ->; by apply (Hout i)).
    rewrite lookup_insert_ne by done. by apply Hs.
Qed.

Lemma stored_robin_hood m hash cur bc old :
  slots_ok m → robin_hood m → nodes_ m !! cur = Some bc → not_in_table m cur →
  follows m (dist bc) hash → 2 ≤ buckets m → hash < buckets m →
  table_ m !! hash = Some old →
  (∀ occ bo, old = Some occ → nodes_ m !! occ = Some bo → dist bo ≤ dist bc) →
  robin_hood (stored m hash cur bc).
Proof.
  intros Hs Hr Hc Hout Hfol Hn Hh Hold Hle i h b.
  rewrite stored_buckets, stored_table, stored_nodes.
  intros Hi Ht Hb Hpos.
  assert (∀ j h', table_ m !! j = Some (Some h') → h' ≠ cur) as Hne
    by (intros j h' Hj ->; by apply (Hout j)).
  destruct (decide ((i + 1) mod buckets m = hash)) as [Heq|Hsne].
  - rewrite Heq, list_lookup_insert_eq in Ht by done. injection Ht as <-.
    rewrite lookup_insert_eq in Hb. injection Hb as <-. simpl in Hpos.
    destruct (Hfol Hpos i Hi Heq) as (h' & b' & Ht' & Hb' & Hd').
    assert (i ≠ hash) by (rewrite <- Heq; by apply not_eq_sym, succ_mod_ne).
    exists h', b'. rewrite list_lookup_insert_ne by done.
    rewrite lookup_insert_ne by (apply not_eq_sym; eauto). done.
  - rewrite list_lookup_insert_ne in Ht by done.
    rewrite lookup_insert_ne in Hb by (apply not_eq_sym; eauto).
    destruct (Hr i h b Hi Ht Hb Hpos) as (h' & b' & Ht' & Hb' & Hd').
    destruct (decide (i = hash)) as [->|Hine].
    + rewrite Hold in Ht'. injection Ht' as ->.
      exists cur, (set_id hash bc). rewrite list_lookup_insert_eq by done.
      rewrite lookup_insert_eq. split_and!; [done|done|].
      simpl. specialize (Hle _ _ eq_refl Hb'). lia.
    + exists h', b'. rewrite list_lookup_insert_ne by done.
      rewrite lookup_insert_ne by (apply not_eq_sym; eauto). done.
Qed.

Lemma stored_nodes_placed m hash cur bc old :
  slots_ok m → nodes_placed m (Some cur) → nodes_ m !! cur = Some bc →
  hash < buckets m → table_ m !! hash = Some old →
  nodes_placed (stored m hash cur bc) old.
Proof.
  intros Hs Hp Hc Hh Hold h b.
  rewrite stored_table, stored_nodes. intros Hb Hne.
  destruct (decide (h = cur)) as [->|Hhc].
  - rewrite lookup_insert_eq in Hb. injection Hb as <-. simpl.
    by rewrite list_lookup_insert_eq.
  - rewrite lookup_insert_ne in Hb by done.
    assert (table_ m !! id_in_table b = Some (Some h)) as Ht
      by (apply Hp; [done|congruence]).
    rewrite list_lookup_insert_ne; [done|].
    intros Heq. rewrite <- Heq, Hold in Ht. congruence.
Qed.

Lemma stored_not_in_table m hash cur bc occ :
  slots_ok m → hash < buckets m → table_ m !! hash = Some (Some occ) →
  occ ≠ cur → not_in_table (stored m hash cur bc) occ.
Proof.
  intros Hs Hh Hold Hne i. rewrite stored_table.
  destruct (decide (i = hash)) as [->|Hi].
  - rewrite list_lookup_insert_eq by done. congruence.
  - rewrite list_lookup_insert_ne by done. intros Ht.
    destruct (Hs _ _ Ht) as (b & Hb & Hid & _).
    destruct (Hs _ _ Hold) as (b' & Hb' & Hid' & _). congruence.
Qed.

(** An assignment to the fields of a node that no slot designates. *)
Definition relabel m c b' : HashMap := with_nodes (<[c := b']> (nodes_ m)) m.

Lemma relabel_slots_ok m c b' :
  slots_ok m → not_in_table m c → slots_ok (relabel m c b').
Proof.
  intros Hs Hout i h Ht. change (table_ (relabel m c b')) with (table_ m) in Ht.
  change (buckets (relabel m c b')) with (buckets m).
  change (nodes_ (relabel m c b')) with (<[c := b']> (nodes_ m)).
  assert (h ≠ c) by (intros ->; by apply (Hout i)).
  rewrite lookup_insert_ne by done. by apply Hs.
Qed.

Lemma relabel_robin_hood m c b' :
  slots_ok m → robin_hood m → not_in_table m c → robin_hood (relabel m c b').
Proof.
  intros Hs Hr Hout i h b.
  change (table_ (relabel m c b')) with (table_ m).
  change (buckets (relabel m c b')) with (buckets m).
  change (nodes_ (relabel m c b')) with (<[c := b']> (nodes_ m)).
  intros Hi Ht Hb Hpos.
  assert (∀ j h', table_ m !! j = Some (Some h') → h' ≠ c) as Hne
    by (intros j h' Hj ->; by apply (Hout j)).
  rewrite lookup_insert_ne in Hb by (apply not_eq_sym; eauto).
  destruct (Hr i h b Hi Ht Hb Hpos) as (h' & b0 & Ht' & Hb' & Hd').
  exists h', b0. rewrite lookup_insert_ne by (apply not_eq_sym; eauto). done.
Qed.

Lemma relabel_nodes_placed m c b' :
  nodes_placed m (Some c) → nodes_placed (relabel m c b') (Some c).
Proof.
  intros Hp h b.
  change (table_ (relabel m c b')) with (table_ m).
  change (nodes_ (relabel m c b')) with (<[c := b']> (nodes_ m)).
  intros Hb Hne. rewrite lookup_insert_ne in Hb by congruence. by apply Hp.
Qed.

Lemma relabel_follows m c b' hash ho bo d :
  not_in_table m c → hash < buckets m →
  table_ m !! hash = Some (Some ho) → nodes_ m !! ho = Some bo →
  d ≤ S (dist bo) →
  follows (relabel m c b') d ((hash + 1) mod buckets m).
Proof.
  intros Hout Hh Ht Hb Hd Hpos i.
  change (table_ (relabel m c b')) with (table_ m).
  change (buckets (relabel m c b')) with (buckets m).
  change (nodes_ (relabel m c b')) with (<[c := b']> (nodes_ m)).
  intros Hi Heq. apply succ_mod_inj in Heq as ->; [|done..].
  exists ho, bo. rewrite lookup_insert_ne; [done|].
  intros ->. by apply (Hout hash).
Qed.

(** Two maps with the same list, the same bucket count and the same pair
    in every node. *)
Definition same_data m m' : Prop :=
  items_ m' = items_ m ∧ fresh_ m' = fresh_ m ∧ buckets m' = buckets m ∧
  ∀ h, data <$> nodes_ m' !! h = data <$> nodes_ m !! h.

Lemma same_data_refl m : same_data m m.
Proof. done. Qed.

Lemma same_data_trans m1 m2 m3 :
  same_data m1 m2 → same_data m2 m3 → same_data m1 m3.
Proof.
  intros (? & ? & ? & H12) (? & ? & ? & H23).
  split_and!; first [congruence | intros h; by rewrite H23].
Qed.

Lemma same_data_relabel m c b b' :
  nodes_ m !! c = Some b → data b' = data b → same_data m (relabel m c b').
Proof.
  intros Hb Hd. split_and!; try done. intros h.
  change (nodes_ (relabel m c b')) with (<[c := b']> (nodes_ m)).
  destruct (decide (h = c)) as [->|].
  - rewrite lookup_insert_eq, Hb. simpl. by rewrite Hd.
  - by rewrite lookup_insert_ne.
Qed.

Lemma same_data_stored m hash cur bc :
  nodes_ m !! cur = Some bc → same_data m (stored m hash cur bc).
Proof.
  intros Hb. split_and!; try done; [apply stored_buckets|]. intros h.
  rewrite stored_nodes. destruct (decide (h = cur)) as [->|].
  - by rewrite lookup_insert_eq, Hb.
  - by rewrite lookup_insert_ne.
Qed.

Lemma same_data_lookup m m' h b :
  same_data m m' → nodes_ m !! h = Some b →
  ∃ b', nodes_ m' !! h = Some b' ∧ data b' = data b.
Proof.
  intros (_ & _ & _ & Hd) Hb. specialize (Hd h). rewrite Hb in Hd.
  destruct (nodes_ m' !! h) as [b'|]; [|done]. exists b'. by injection Hd.
Qed.

Lemma same_data_sym m m' : same_data m m' → same_data m' m.
Proof. intros (? & ? & ? & Hd). split_and!; try done. Qed.

Lemma same_data_keys m m' : same_data m m' → keys_distinct m → keys_distinct m'.
Proof.
  intros Hsd Hk h1 h2 b1 b2 H1 H2 Heq.
  destruct (same_data_lookup _ _ _ _ (same_data_sym _ _ Hsd) H1) as (c1 & Hc1 & Hd1).
  destruct (same_data_lookup _ _ _ _ (same_data_sym _ _ Hsd) H2) as (c2 & Hc2 & Hd2).
  apply (Hk h1 h2 c1 c2 Hc1 Hc2). by rewrite Hd1, Hd2.
Qed.

Lemma same_data_list_ok m m' : same_data m m' → list_ok m → list_ok m'.
Proof.
  intros (Hi & Hf & _ & Hd) (Hnd & Hdom & Hfr).
  assert (∀ h, is_Some (nodes_ m' !! h) ↔ is_Some (nodes_ m !! h)) as Hiff.
  { intros h. specialize (Hd h). rewrite <- !fmap_is_Some with (f := data).
    by rewrite Hd. }
  split_and!.
  - by rewrite Hi.
  - intros h. by rewrite Hi, Hiff.
  - intros h. rewrite Hf, Hiff. apply Hfr.
Qed.

Lemma same_data_pairs m m' : same_data m m' → pairs m' = pairs m.
Proof.
  intros (Hi & _ & _ & Hd). unfold pairs. rewrite Hi.
  apply list_omap_ext, Forall2_same_length_lookup. split; [done|].
  intros i x y Hx Hy. rewrite Hx in Hy. injection Hy as <-. apply Hd.
Qed.

Lemma same_data_size m m' : same_data m m' → size m' = size m.
Proof. intros (Hi & _). unfold size. by rewrite Hi. Qed.

(** *** The probing loop of [insert] *)

Lemma insert_loop_unfold fuel cur hash m :
  insert_loop fuel cur hash m =
  match table_ m !! hash with
  | None => Undefined
  | Some None => store_at hash cur m
  | Some (Some occ) =>
      match fuel with
      | O => Diverge
      | S fuel' =>
          match nodes_ m !! occ, nodes_ m !! cur with
          | Some bo, Some bc =>
              '(cur', m1) ←
                (if dist bo <? dist bc
                 then m1 ← store_at hash cur m; Ret (occ, m1)
                 else Ret (cur, m));
              m2 ← update_node cur' (λ b, set_distance (S (dist b)) b) m1;
              insert_loop fuel' cur' ((hash + 1) mod buckets m) m2
          | _, _ => Undefined
          end
      end
  end.
Proof. by destruct fuel. Qed.

Lemma insert_loop_spec fuel : ∀ m cur hash bc k,
  slots_ok m → robin_hood m → nodes_placed m (Some cur) →
  nodes_ m !! cur = Some bc → not_in_table m cur →
  (hasher (key_of bc) + dist bc) mod buckets m = hash →
  follows m (dist bc) hash → 2 ≤ buckets m →
  k ≤ fuel → table_ m !! ((hash + k) mod buckets m) = Some None →
  ∃ m', insert_loop fuel cur hash m = Ret m' ∧
        slots_ok m' ∧ robin_hood m' ∧ nodes_placed m' None ∧ same_data m m'.
Proof.
  induction fuel as [|fuel IH];
    intros m cur hash bc k Hs Hr Hp Hc Hout Hd Hfol Hn Hk Hfree.
  all: assert (hash < buckets m) as Hh
    by (rewrite <- Hd; apply Nat.mod_upper_bound; lia).
  all: rewrite insert_loop_unfold.
  all: destruct (table_ m !! hash) as [[occ|]|] eqn:Ht;
    [|rewrite (store_at_eq _ _ _ bc) by done; eexists; split; [done|];
      split_and!;
      [by apply stored_slots_ok
      |eapply stored_robin_hood; eauto; by intros
      |eapply stored_nodes_placed; eauto
      |by apply same_data_stored]
    |destruct (lookup_buckets_is_Some m hash Hh) as [x Hx]; by rewrite Ht in Hx].
  - assert (k = 0) as -> by lia.
    rewrite Nat.add_0_r, Nat.mod_small in Hfree by done. congruence.
  - destruct k as [|k].
    { rewrite Nat.add_0_r, Nat.mod_small in Hfree by done. congruence. }
    destruct (Hs _ _ Ht) as (bo & Hbo & Hid & Hdo).
    assert (occ ≠ cur) as Hoc by (intros ->; by apply (Hout hash)).
    rewrite Hbo, Hc.
    assert (table_ m !! (((hash + 1) mod buckets m + k) mod buckets m) = Some None)
      as Hfree' by (by rewrite add_succ_mod).
    assert ((hash + S k) mod buckets m ≠ hash) as Hfne
      by (intros Heq; rewrite Heq in Hfree; congruence).
    destruct (Nat.ltb_spec (dist bo) (dist bc)) as [Hlt|Hge].
    + rewrite (store_at_eq _ _ _ bc) by done. cbn [mbind outcome_bind mret outcome_ret].
      set (m1 := stored m hash cur bc).
      assert (nodes_ m1 !! occ = Some bo) as Hbo1
        by (unfold m1; rewrite stored_nodes, lookup_insert_ne; done).
      rewrite (update_node_eq _ _ _ bo) by done.
      cbn [mbind outcome_bind].
      fold (relabel m1 occ (set_distance (S (dist bo)) bo)).
      assert (not_in_table m1 occ) as Hout1
        by (by apply stored_not_in_table).
      assert (buckets m1 = buckets m) as Hb1 by apply stored_buckets.
      destruct (IH (relabel m1 occ (set_distance (S (dist bo)) bo)) occ
                  ((hash + 1) mod buckets m) (set_distance (S (dist bo)) bo) k)
        as (m' & Hrun & Hs' & Hr' & Hp' & Hsd').
      * apply relabel_slots_ok; [|done]. by apply stored_slots_ok.
      * apply relabel_robin_hood; [by apply stored_slots_ok| |done].
        eapply stored_robin_hood; eauto.
        intros ? ? [= <-] Hb'. rewrite Hbo in Hb'. injection Hb' as <-. lia.
      * apply relabel_nodes_placed. eapply stored_nodes_placed; eauto.
      * apply lookup_insert_eq.
      * intros i. apply (Hout1 i).
      * change (buckets (relabel m1 occ _)) with (buckets m1). rewrite Hb1.
        simpl. rewrite <- mod_succ_step. by rewrite Hdo.
      * rewrite <- Hb1. eapply (relabel_follows m1 _ _ hash cur (set_id hash bc)).
        -- done.
        -- by rewrite Hb1.
        -- unfold m1. rewrite stored_table. by apply list_lookup_insert_eq.
        -- unfold m1. rewrite stored_nodes. apply lookup_insert_eq.
        -- simpl. lia.
      * change (buckets (relabel m1 occ _)) with (buckets m1). by rewrite Hb1.
      * lia.
      * change (buckets (relabel m1 occ _)) with (buckets m1). rewrite Hb1.
        change (table_ (relabel m1 occ _)) with (table_ m1).
        unfold m1. rewrite stored_table, list_lookup_insert_ne; [done|].
        rewrite add_succ_mod. by apply not_eq_sym.
      * exists m'. split; [done|]. split_and!; try done.
        eapply same_data_trans; [by apply (same_data_stored m hash cur bc)|].
        eapply same_data_trans; [|exact Hsd'].
        by apply (same_data_relabel _ _ bo).
    + cbn [mbind outcome_bind mret outcome_ret].
      rewrite (update_node_eq _ _ _ bc) by done.
      cbn [mbind outcome_bind].
      fold (relabel m cur (set_distance (S (dist bc)) bc)).
      destruct (IH (relabel m cur (set_distance (S (dist bc)) bc)) cur
                  ((hash + 1) mod buckets m) (set_distance (S (dist bc)) bc) k)
        as (m' & Hrun & Hs' & Hr' & Hp' & Hsd').
      * by apply relabel_slots_ok.
      * by apply relabel_robin_hood.
      * by apply relabel_nodes_placed.
      * apply lookup_insert_eq.
      * intros i. apply (Hout i).
      * change (buckets (relabel m cur _)) with (buckets m).
        simpl. rewrite <- mod_succ_step. by rewrite Hd.
      * eapply (relabel_follows m _ _ hash occ bo); try done. simpl. lia.
      * done.
      * lia.
      * done.
      * exists m'. split; [done|]. split_and!; try done.
        eapply same_data_trans; [|exact Hsd'].
        by apply (same_data_relabel _ _ bc).
Qed.

(** *** The pairs of a map *)

Lemma elem_of_pairs m x :
  list_ok m → x ∈ pairs m ↔ ∃ h b, nodes_ m !! h = Some b ∧ data b = x.
Proof.
  intros (_ & Hdom & _). unfold pairs. rewrite list_elem_of_omap. split.
  - intros (h & Hh & Hx). destruct (nodes_ m !! h) as [b|] eqn:Hb; [|done].
    exists h, b. split; [done|]. by injection Hx.
  - intros (h & b & Hb & <-). exists h. split; [|by rewrite Hb].
    apply Hdom. by exists b.
Qed.

Lemma pairs_length m : list_ok m → length (pairs m) = size m.
Proof.
  intros (_ & Hdom & _). unfold pairs, size.
  assert (∀ l, (∀ h, h ∈ l → is_Some (nodes_ m !! h)) →
               length (omap (λ h, data <$> nodes_ m !! h) l) = length l) as Hlen.
  { induction l as [|h l IH]; intros Hin; [done|]. csimpl.
    destruct (Hin h) as [b Hb]; [left|]. rewrite Hb. simpl. f_equal.
    apply IH. intros h' Hh'. apply Hin. by right. }
  apply Hlen. intros h. apply Hdom.
Qed.

Definition key_absent m key : Prop :=
  ∀ h b, nodes_ m !! h = Some b → key_of b ≠ key.

Lemma key_absent_pairs m key :
  list_ok m → key_absent m key ↔ key ∉ (fst <$> pairs m).
Proof.
  intros Hl. rewrite list_elem_of_fmap. split.
  - intros Ha Hex. destruct Hex as (x & -> & Hx).
    apply (elem_of_pairs _ _ Hl) in Hx as (h & b & Hb & <-).
    by apply (Ha h b).
  - intros Hn h b Hb <-. apply Hn. exists (data b). split; [done|].
    apply (elem_of_pairs _ _ Hl). eauto.
Qed.

(** *** [place]: the new entry and the probing loop *)

Definition core m : Prop :=
  list_ok m ∧ slots_ok m ∧ robin_hood m ∧ nodes_placed m None ∧ keys_distinct m.

Definition emplaced m (x : Key * Value) : HashMap :=
  {| items_ := items_ m ++ [fresh_ m];
     nodes_ := <[fresh_ m := {| data := x; distance_to_ideal := 0; id_in_table := 0 |}]>
                 (nodes_ m);
     table_ := table_ m;
     fresh_ := S (fresh_ m) |}.

Lemma fresh_not_node m : list_ok m → nodes_ m !! fresh_ m = None.
Proof.
  intros (_ & _ & Hfr). destruct (nodes_ m !! fresh_ m) as [b|] eqn:Hb; [|done].
  specialize (Hfr (fresh_ m) ltac:(by eexists)). lia.
Qed.

Lemma fresh_not_in_table m : list_ok m → slots_ok m → not_in_table m (fresh_ m).
Proof.
  intros Hl Hs i Ht. destruct (Hs _ _ Ht) as (b & Hb & _).
  by rewrite fresh_not_node in Hb.
Qed.

Lemma emplaced_pairs m x : list_ok m → pairs (emplaced m x) = pairs m ++ [x].
Proof.
  intros Hl. pose proof (fresh_not_node m Hl) as Hfr.
  destruct Hl as (_ & Hdom & _). unfold pairs. simpl. rewrite omap_app. f_equal.
  - apply list_omap_ext, Forall2_same_length_lookup. split; [done|].
    intros i h h' Hh Hh'. rewrite Hh in Hh'. injection Hh' as <-.
    rewrite lookup_insert_ne; [done|]. intros <-.
    apply list_elem_of_lookup_2, Hdom in Hh as [b Hb]. congruence.
  - simpl. by rewrite lookup_insert_eq.
Qed.

Lemma emplaced_list_ok m x : list_ok m → list_ok (emplaced m x).
Proof.
  intros Hl. pose proof (fresh_not_node m Hl) as Hfr.
  destruct Hl as (Hnd & Hdom & Hlt). split_and!; simpl.
  - apply NoDup_app. split_and!; [done| |apply NoDup_singleton].
    intros h Hh ->%list_elem_of_singleton. apply Hdom in Hh as [b Hb]. congruence.
  - intros h. rewrite elem_of_app, list_elem_of_singleton, lookup_insert_is_Some, Hdom.
    destruct (decide (fresh_ m = h)); intuition congruence.
  - intros h. rewrite lookup_insert_is_Some. intros [<-|[_ Hh]]; [lia|].
    specialize (Hlt _ Hh). lia.
Qed.

Lemma emplaced_keys_distinct m x :
  keys_distinct m → key_absent m (fst x) → keys_distinct (emplaced m x).
Proof.
  intros Hk Ha h1 h2 b1 b2. simpl. rewrite !lookup_insert.
  repeat case_decide; intros H1 H2 Heq; simplify_eq; try done.
  - exfalso. by apply (Ha _ _ H2).
  - exfalso. by apply (Ha _ _ H1).
  - by apply (Hk _ _ _ _ H1 H2).
Qed.

Lemma place_spec m x :
  core m → size m < buckets m → 2 ≤ buckets m → key_absent m (fst x) →
  ∃ m', place hasher x m = Ret m' ∧ core m' ∧ same_data (emplaced m x) m'.
Proof.
  intros (Hl & Hs & Hr & Hp & Hk) Hsz Hn Ha. unfold place.
  destruct (Nat.eqb_spec (buckets m) 0) as [|_]; [lia|].
  fold (emplaced m x).
  pose proof (fresh_not_in_table m Hl Hs) as Hout.
  destruct (exists_free_slot m Hl Hs Hsz) as [e He].
  destruct (mod_reach (hasher (fst x) mod buckets m) e (buckets m))
    as (k & Hk' & Hke);
    [apply Nat.mod_upper_bound; lia|by eapply lookup_lt_buckets|].
  destruct (insert_loop_spec (buckets m) (emplaced m x) (fresh_ m)
              (hasher (fst x) mod buckets m)
              {| data := x; distance_to_ideal := 0; id_in_table := 0 |} k)
    as (m' & Hrun & Hs' & Hr' & Hp' & Hsd).
  - by apply (relabel_slots_ok m (fresh_ m)).
  - by apply (relabel_robin_hood m (fresh_ m)).
  - intros h b. simpl. intros Hb Hne.
    rewrite lookup_insert_ne in Hb by congruence. by apply Hp.
  - apply lookup_insert_eq.
  - done.
  - simpl. by rewrite Nat.add_0_r.
  - intros Hpos. simpl in Hpos. lia.
  - done.
  - lia.
  - change (buckets (emplaced m x)) with (buckets m).
    change (table_ (emplaced m x)) with (table_ m). by rewrite Hke.
  - exists m'. split; [done|]. split; [|done]. split_and!; try done.
    + eapply same_data_list_ok; [done|]. by apply emplaced_list_ok.
    + eapply same_data_keys; [done|]. by apply emplaced_keys_distinct.
Qed.

(** *** The backward-shift loop of [erase] *)

Lemma erase_loop_unfold fuel hash next_hash m :
  erase_loop fuel hash next_hash m =
  match table_ m !! next_hash with
  | None => Undefined
  | Some None => Ret m
  | Some (Some h) =>
      match nodes_ m !! h with
      | None => Undefined
      | Some b =>
          if 0 <? dist b then
            match fuel, table_ m !! hash with
            | O, _ => Diverge
            | _, None => Undefined
            | S fuel', Some at_hash =>
                m1 ← update_node h
                       (λ b, set_distance (pred (dist b)) (set_id hash b))
                       (with_table
                          (<[next_hash := at_hash]> (<[hash := Some h]> (table_ m)))
                          m);
                erase_loop fuel' next_hash ((next_hash + 1) mod buckets m) m1
            end
          else Ret m
      end
  end.
Proof. by destruct fuel. Qed.

(** Robin Hood order everywhere except behind the vacated slot. *)
Definition robin_hood_except m (hole : nat) : Prop :=
  ∀ i h b, i < buckets m → i ≠ hole →
    table_ m !! ((i + 1) mod buckets m) = Some (Some h) →
    nodes_ m !! h = Some b → 0 < dist b →
    ∃ h' b', table_ m !! i = Some (Some h') ∧ nodes_ m !! h' = Some b' ∧
             dist b ≤ S (dist b').

(** The entry behind the vacated slot is displaced by at most [g + 1],
    where [g] is the displacement the vacated slot's entry had. *)
Definition behind m (g : nat) (hole : nat) : Prop :=
  ∀ h b, table_ m !! ((hole + 1) mod buckets m) = Some (Some h) →
    nodes_ m !! h = Some b → dist b ≤ S g.

Definition shifted m hash next_hash h b : HashMap :=
  with_nodes (<[h := set_distance (pred (dist b)) (set_id hash b)]> (nodes_ m))
    (with_table (<[next_hash := None]> (<[hash := Some h]> (table_ m))) m).

Lemma shifted_table m hash next_hash h b :
  table_ (shifted m hash next_hash h b)
  = <[next_hash := None]> (<[hash := Some h]> (table_ m)).
Proof. done. Qed.
Lemma shifted_nodes m hash next_hash h b :
  nodes_ (shifted m hash next_hash h b)
  = <[h := set_distance (pred (dist b)) (set_id hash b)]> (nodes_ m).
Proof. done. Qed.
Lemma shifted_buckets m hash next_hash h b :
  buckets (shifted m hash next_hash h b) = buckets m.
Proof. unfold buckets. by rewrite shifted_table, !length_insert. Qed.

Lemma same_data_shifted m hash next_hash h b :
  nodes_ m !! h = Some b → same_data m (shifted m hash next_hash h b).
Proof.
  intros Hb. split_and!; try done; [apply shifted_buckets|]. intros h'.
  rewrite shifted_nodes. destruct (decide (h' = h)) as [->|].
  - by rewrite lookup_insert_eq, Hb.
  - by rewrite lookup_insert_ne.
Qed.

Section shift_step.
Variables (m : @HashMap Key Value) (hash : nat) (h : node)
  (b : @BucketItem Key Value) (g : nat).
Let n := buckets m.
Let next_hash := (hash + 1) mod n.
Let m' := shifted m hash next_hash h b.

Hypothesis Hs : slots_ok m.
Hypothesis Hp : nodes_placed m None.
Hypothesis Hhole : table_ m !! hash = Some None.
Hypothesis Hr : robin_hood_except m hash.
Hypothesis Hfol : follows m g hash.
Hypothesis Hbeh : behind m g hash.
Hypothesis Hn : 3 ≤ n.
Hypothesis Hnext : table_ m !! next_hash = Some (Some h).
Hypothesis Hb : nodes_ m !! h = Some b.
Hypothesis Hpos : 0 < dist b.

Local Lemma shift_hash_lt : hash < n.
Proof. by eapply lookup_lt_buckets. Qed.
Local Lemma shift_next_lt : next_hash < n.
Proof. by eapply lookup_lt_buckets. Qed.
Local Lemma shift_next_ne : next_hash ≠ hash.
Proof. intros Heq. rewrite Heq, Hhole in Hnext. done. Qed.

Local Lemma shift_buckets : buckets m' = n.
Proof. apply shifted_buckets. Qed.

Local Lemma shift_other i h' :
  table_ m !! i = Some (Some h') → i ≠ next_hash → h' ≠ h.
Proof.
  intros Hi Hne ->. destruct (Hs _ _ Hi) as (b1 & Hb1 & Hid1 & _).
  destruct (Hs _ _ Hnext) as (b2 & Hb2 & Hid2 & _). congruence.
Qed.

Local Lemma shift_lookup i :
  i ≠ hash → i ≠ next_hash → table_ m' !! i = table_ m !! i.
Proof.
  intros H1 H2. unfold m'. rewrite shifted_table.
  by rewrite !list_lookup_insert_ne.
Qed.

Local Lemma shift_lookup_hash : table_ m' !! hash = Some (Some h).
Proof.
  unfold m'. rewrite shifted_table.
  rewrite list_lookup_insert_ne by apply shift_next_ne.
  apply list_lookup_insert_eq, shift_hash_lt.
Qed.

Local Lemma shift_lookup_next : table_ m' !! next_hash = Some None.
Proof.
  unfold m'. rewrite shifted_table. apply list_lookup_insert_eq.
  rewrite length_insert. apply shift_next_lt.
Qed.

Local Lemma shift_node h' :
  h' ≠ h → nodes_ m' !! h' = nodes_ m !! h'.
Proof. intros Hne. unfold m'. by rewrite shifted_nodes, lookup_insert_ne. Qed.

Local Lemma shift_node_h :
  nodes_ m' !! h = Some (set_distance (pred (dist b)) (set_id hash b)).
Proof. unfold m'. by rewrite shifted_nodes, lookup_insert_eq. Qed.

Lemma shifted_slots_ok : slots_ok m'.
Proof.
  intros i h' Ht. rewrite shift_buckets.
  destruct (decide (i = hash)) as [->|Hih].
  - rewrite shift_lookup_hash in Ht. injection Ht as <-.
    rewrite shift_node_h. eexists. split_and!; [done|done|]. simpl.
    destruct (Hs _ _ Hnext) as (b' & Hb' & _ & Hd).
    rewrite Hb in Hb'. injection Hb' as <-. fold n in Hd.
    apply (succ_mod_inj _ _ n); [apply Nat.mod_upper_bound; lia|apply shift_hash_lt|].
    rewrite mod_succ_step. fold next_hash. rewrite <- Hd. f_equal. lia.
  - destruct (decide (i = next_hash)) as [->|Hin].
    { by rewrite shift_lookup_next in Ht. }
    rewrite shift_lookup in Ht by done.
    rewrite shift_node by (by eapply shift_other). by apply Hs.
Qed.

Lemma shifted_nodes_placed : nodes_placed m' None.
Proof.
  intros h' b' Hb' _. destruct (decide (h' = h)) as [->|Hne].
  - rewrite shift_node_h in Hb'. injection Hb' as <-. simpl.
    apply shift_lookup_hash.
  - rewrite shift_node in Hb' by done.
    assert (table_ m !! id_in_table b' = Some (Some h')) as Ht by (by apply Hp).
    rewrite shift_lookup; [done| |].
    + intros Heq. rewrite Heq, Hhole in Ht. done.
    + intros Heq. rewrite Heq, Hnext in Ht. congruence.
Qed.

Lemma shifted_follows : follows m' (dist b) next_hash.
Proof.
  intros _ i. rewrite shift_buckets.
  intros Hi Heq. apply succ_mod_inj in Heq as ->; [|done|apply shift_hash_lt].
  eexists _, _. split_and!; [apply shift_lookup_hash|apply shift_node_h|].
  simpl. lia.
Qed.

Lemma shifted_behind : behind m' (dist b) next_hash.
Proof.
  intros h2 b2. rewrite shift_buckets.
  intros Ht2 Hb2.
  assert ((next_hash + 1) mod n ≠ next_hash) as Hne1
    by (apply succ_mod_ne; [lia|apply shift_next_lt]).
  assert ((next_hash + 1) mod n ≠ hash) as Hne2.
  { pose proof shift_hash_lt. unfold next_hash.
    rewrite (succ_mod hash n) by done.
    case_decide; rewrite succ_mod by lia; case_decide; lia. }
  rewrite shift_lookup in Ht2 by done.
  rewrite shift_node in Hb2 by (by eapply shift_other).
  destruct (decide (0 < dist b2)) as [Hpos2|]; [|lia].
  destruct (Hr next_hash h2 b2 shift_next_lt shift_next_ne Ht2 Hb2 Hpos2)
    as (h3 & b3 & Ht3 & Hb3 & Hd3).
  fold next_hash in Hnext. rewrite Hnext in Ht3. injection Ht3 as <-.
  rewrite Hb in Hb3. by injection Hb3 as <-.
Qed.

Lemma shifted_robin_hood_except : robin_hood_except m' next_hash.
Proof.
  intros i h1 b1. rewrite !shift_buckets.
  intros Hi Hine Ht1 Hb1 Hpos1.
  destruct (decide ((i + 1) mod n = hash)) as [Heq|Hsh].
  - rewrite Heq, shift_lookup_hash in Ht1. injection Ht1 as <-.
    rewrite shift_node_h in Hb1. injection Hb1 as <-. simpl in Hpos1.
    assert (dist b ≤ S g) as Hg by (by apply (Hbeh h b)).
    destruct (Hfol ltac:(lia) i Hi Heq) as (h' & b' & Ht' & Hb' & Hd').
    assert (i ≠ hash) by (rewrite <- Heq; by apply not_eq_sym, succ_mod_ne; lia).
    exists h', b'. rewrite shift_lookup by done.
    rewrite shift_node by (by eapply shift_other). split_and!; [done|done|].
    simpl. lia.
  - destruct (decide ((i + 1) mod n = next_hash)) as [Heq|Hsn].
    { by rewrite Heq, shift_lookup_next in Ht1. }
    rewrite shift_lookup in Ht1 by done.
    rewrite shift_node in Hb1 by (by eapply shift_other).
    assert (i ≠ hash) as Hih.
    { intros ->. by apply Hsn. }
    destruct (Hr i h1 b1 Hi Hih Ht1 Hb1 Hpos1) as (h' & b' & Ht' & Hb' & Hd').
    exists h', b'. rewrite shift_lookup by done.
    by rewrite shift_node by (by eapply shift_other).
Qed.
End shift_step.

Lemma erase_loop_spec fuel : ∀ m hash g k,
  slots_ok m → nodes_placed m None → table_ m !! hash = Some None →
  robin_hood_except m hash → follows m g hash → behind m g hash →
  3 ≤ buckets m → k ≤ fuel →
  table_ m !! (((hash + 1) mod buckets m + k) mod buckets m) = Some None →
  (((hash + 1) mod buckets m + k) mod buckets m) ≠ hash →
  ∃ m', erase_loop fuel hash ((hash + 1) mod buckets m) m = Ret m' ∧
        slots_ok m' ∧ robin_hood m' ∧ nodes_placed m' None ∧ same_data m m'.
Proof.
  induction fuel as [|fuel IH];
    intros m hash g k Hs Hp Hhole Hr Hfol Hbeh Hn Hk Hfree Hfne.
  all: pose proof (lookup_lt_buckets _ _ _ Hhole) as Hh.
  all: assert ((hash + 1) mod buckets m < buckets m) as Hnl
    by (apply Nat.mod_upper_bound; lia).
  all: assert (∀ h b, table_ m !! ((hash + 1) mod buckets m) = Some (Some h) →
                 nodes_ m !! h = Some b → dist b = 0 → robin_hood m) as Hdone0.
  all: try (intros h0 b0 Ht0 Hb0 Hd0 i h1 b1 Hi Ht1 Hb1 Hpos1;
    destruct (decide (i = hash)) as [->|Hih];
    [rewrite Ht0 in Ht1; injection Ht1 as <-; rewrite Hb0 in Hb1;
     injection Hb1 as <-; lia|by apply (Hr i h1 b1)]).
  all: assert (table_ m !! ((hash + 1) mod buckets m) = Some None → robin_hood m)
    as Hdone1.
  all: try (intros Ht0 i h1 b1 Hi Ht1 Hb1 Hpos1;
    destruct (decide (i = hash)) as [->|Hih];
    [by rewrite Ht0 in Ht1|by apply (Hr i h1 b1)]).
  all: rewrite erase_loop_unfold.
  all: destruct (table_ m !! ((hash + 1) mod buckets m)) as [[h|]|] eqn:Ht;
    [|exists m; split_and!; auto using same_data_refl
     |destruct (lookup_buckets_is_Some m _ Hnl) as [x Hx]; by rewrite Ht in Hx].
  all: destruct (Hs _ _ Ht) as (b & Hb & Hid & Hd); rewrite Hb.
  all: destruct (Nat.ltb_spec 0 (dist b)) as [Hpos|Hzero];
    [|exists m; split_and!; eauto using same_data_refl; eapply Hdone0; eauto; lia].
  - assert (k = 0) as -> by lia.
    rewrite Nat.add_0_r, Nat.mod_small in Hfree by done. congruence.
  - destruct k as [|k].
    { rewrite Nat.add_0_r, Nat.mod_small in Hfree by done. congruence. }
    rewrite Hhole. rewrite (update_node_eq _ _ _ b) by done.
    cbn [mbind outcome_bind].
    fold (shifted m hash ((hash + 1) mod buckets m) h b).
    set (m1 := shifted m hash ((hash + 1) mod buckets m) h b).
    assert (buckets m1 = buckets m) as Hb1 by apply shifted_buckets.
    assert (((hash + 1) mod buckets m + S k) mod buckets m
            ≠ (hash + 1) mod buckets m) as Hfne'
      by (intros Heq; rewrite Heq in Hfree; congruence).
    destruct (IH m1 ((hash + 1) mod buckets m) (dist b) k)
      as (m' & Hrun & Hs' & Hr' & Hp' & Hsd'); rewrite ?Hb1.
    + by eapply shifted_slots_ok.
    + by eapply shifted_nodes_placed.
    + by eapply shift_lookup_next.
    + by eapply shifted_robin_hood_except.
    + by eapply shifted_follows.
    + by eapply shifted_behind.
    + done.
    + lia.
    + rewrite add_succ_mod. unfold m1.
      erewrite shift_lookup; eauto.
    + by rewrite add_succ_mod.
    + rewrite Hb1 in Hrun. exists m'. split; [done|]. split_and!; try done.
      eapply same_data_trans; [|exact Hsd']. by apply same_data_shifted.
Qed.

(** *** [erase(iterator)] *)

Definition removed m h (hash : nat) : HashMap :=
  {| items_ := filter (λ x, x ≠ h) (items_ m);
     nodes_ := delete h (nodes_ m);
     table_ := <[hash := None]> (table_ m);
     fresh_ := fresh_ m |}.

Lemma removed_list_ok m h hash : list_ok m → list_ok (removed m h hash).
Proof.
  intros (Hnd & Hdom & Hfr). split_and!; simpl.
  - by apply NoDup_filter.
  - intros h'. rewrite list_elem_of_filter, lookup_delete_is_Some, Hdom.
    intuition congruence.
  - intros h'. rewrite lookup_delete_is_Some. intros [_ Hh]. by apply Hfr.
Qed.

Lemma removed_keys_distinct m h hash :
  keys_distinct m → keys_distinct (removed m h hash).
Proof.
  intros Hk h1 h2 b1 b2. simpl. rewrite !lookup_delete_Some.
  intros [_ H1] [_ H2]. by apply Hk.
Qed.

Lemma filter_ne_notin (l : list node) h : h ∉ l → filter (λ x, x ≠ h) l = l.
Proof.
  induction l as [|y l IH]; intros Hn; [done|].
  rewrite filter_cons, decide_True by (intros ->; apply Hn; left).
  f_equal. apply IH. intros Hin. apply Hn. by right.
Qed.

Lemma filter_ne_length (l : list node) h :
  NoDup l → h ∈ l → S (length (filter (λ x, x ≠ h) l)) = length l.
Proof.
  induction l as [|x l IH]; intros Hnd Hh; [by apply elem_of_nil in Hh|].
  apply NoDup_cons in Hnd as [Hx Hnd]. rewrite filter_cons.
  destruct (decide (x = h)) as [->|Hne].
  - rewrite decide_False by (by intros []). by rewrite filter_ne_notin.
  - rewrite decide_True by done. simpl. f_equal. apply IH; [done|].
    apply elem_of_cons in Hh as [->|]; done.
Qed.

Lemma removed_size m h hash :
  list_ok m → is_Some (nodes_ m !! h) → S (size (removed m h hash)) = size m.
Proof.
  intros (Hnd & Hdom & _) Hh%Hdom. by apply filter_ne_length.
Qed.

Lemma removed_pairs m h b hash :
  list_ok m → keys_distinct m → nodes_ m !! h = Some b →
  pairs (removed m h hash) = filter (λ x, fst x ≠ key_of b) (pairs m).
Proof.
  intros (_ & Hdom & _) Hk Hb. unfold pairs. simpl.
  assert (∀ l : list node, (∀ x, x ∈ l → is_Some (nodes_ m !! x)) →
    omap (λ x, data <$> delete h (nodes_ m) !! x) (filter (λ x, x ≠ h) l)
    = filter (λ x : Key * Value, fst x ≠ key_of b)
        (omap (λ x, data <$> nodes_ m !! x) l)) as Hgen.
  { induction l as [|x l IH]; intros Hin; [done|].
    destruct (Hin x) as [bx Hbx]; [left|].
    rewrite filter_cons. csimpl. rewrite Hbx. simpl. rewrite filter_cons.
    rewrite <- IH by (intros y Hy; apply Hin; by right).
    destruct (decide (x = h)) as [->|Hne].
    - rewrite Hb in Hbx. injection Hbx as <-.
      rewrite decide_False by (by intros []).
      by rewrite decide_False by (by intros []).
    - rewrite decide_True by done.
      rewrite decide_True by (intros Heq; apply Hne; by eapply Hk).
      csimpl. by rewrite lookup_delete_ne, Hbx. }
  apply Hgen. intros x. apply Hdom.
Qed.

Lemma erase_iterator_spec m h b :
  core m → size m < buckets m → 3 ≤ buckets m → nodes_ m !! h = Some b →
  ∃ m', erase_iterator (Some h) m = Ret m' ∧ core m' ∧
        same_data (removed m h (id_in_table b)) m'.
Proof.
  intros (Hl & Hs & Hr & Hp & Hk) Hsz Hn Hb. unfold erase_iterator. rewrite Hb.
  set (hash := id_in_table b).
  assert (table_ m !! hash = Some (Some h)) as Ht by (by apply Hp).
  pose proof (lookup_lt_buckets _ _ _ Ht) as Hh.
  destruct (Nat.ltb_spec hash (buckets m)) as [_|]; [|lia].
  fold (removed m h hash). set (m0 := removed m h hash).
  assert (buckets m0 = buckets m) as Hb0
    by (unfold buckets; simpl; by rewrite length_insert).
  assert (∀ i, i ≠ hash → table_ m0 !! i = table_ m !! i) as Hti
    by (intros i Hi; simpl; by rewrite list_lookup_insert_ne).
  assert (table_ m0 !! hash = Some None) as Hhole
    by (simpl; by apply list_lookup_insert_eq).
  assert (∀ i h', table_ m !! i = Some (Some h') → i ≠ hash → h' ≠ h) as Hoth.
  { intros i h' Hi Hne ->. destruct (Hs _ _ Hi) as (b1 & Hb1 & Hid1 & _).
    rewrite Hb in Hb1. injection Hb1 as <-. done. }
  assert (∀ h', h' ≠ h → nodes_ m0 !! h' = nodes_ m !! h') as Hni
    by (intros h' Hne; simpl; by rewrite lookup_delete_ne).
  destruct (exists_free_slot m Hl Hs Hsz) as [e He].
  assert (e ≠ hash) as Hne by (intros ->; congruence).
  destruct (mod_reach ((hash + 1) mod buckets m) e (buckets m))
    as (k & Hk' & Hke);
    [apply Nat.mod_upper_bound; lia|by eapply lookup_lt_buckets|].
  destruct (erase_loop_spec (buckets m) m0 hash (dist b) k)
    as (m' & Hrun & Hs' & Hr' & Hp' & Hsd); rewrite ?Hb0.
  - intros i h' Hi. rewrite Hb0.
    destruct (decide (i = hash)) as [->|Hih]; [congruence|].
    rewrite Hti in Hi by done. rewrite Hni by eauto. by apply Hs.
  - intros h' b' Hb' _. simpl in Hb'. apply lookup_delete_Some in Hb' as [Hne' Hb'].
    assert (table_ m !! id_in_table b' = Some (Some h')) as Ht' by (by apply Hp).
    rewrite Hti; [done|]. intros Heq. rewrite Heq, Ht in Ht'. congruence.
  - done.
  - intros i h1 b1. rewrite !Hb0. intros Hi Hih Ht1 Hb1 Hpos.
    destruct (decide ((i + 1) mod buckets m = hash)) as [Heq|Hsne];
      [rewrite Heq in Ht1; congruence|].
    rewrite Hti in Ht1 by done.
    simpl in Hb1. apply lookup_delete_Some in Hb1 as [Hne1 Hb1].
    destruct (Hr i h1 b1 Hi Ht1 Hb1 Hpos) as (h' & b' & Ht' & Hb' & Hd').
    exists h', b'. rewrite Hti by done. rewrite Hni by eauto. done.
  - intros Hpos i. rewrite !Hb0. intros Hi Heq.
    destruct (Hr i h b Hi ltac:(by rewrite Heq) Hb Hpos) as (h' & b' & Ht' & Hb' & Hd').
    assert (i ≠ hash) by (rewrite <- Heq; by apply not_eq_sym, succ_mod_ne; lia).
    exists h', b'. rewrite Hti by done. rewrite Hni by eauto. done.
  - intros h1 b1. rewrite !Hb0. intros Ht1 Hb1.
    assert ((hash + 1) mod buckets m ≠ hash) as Hsne by (apply succ_mod_ne; lia).
    rewrite Hti in Ht1 by done.
    simpl in Hb1. apply lookup_delete_Some in Hb1 as [Hne1 Hb1].
    destruct (decide (0 < dist b1)) as [Hpos|]; [|lia].
    destruct (Hr hash h1 b1 Hh Ht1 Hb1 Hpos) as (h' & b' & Ht' & Hb' & Hd').
    rewrite Ht in Ht'. injection Ht' as <-. rewrite Hb in Hb'. by injection Hb' as <-.
  - done.
  - lia.
  - rewrite Hke, Hti; done.
  - by rewrite Hke.
  - rewrite Hb0 in Hrun. exists m'. split; [done|]. split; [|done].
    split_and!; try done.
    + eapply same_data_list_ok; [done|]. by apply removed_list_ok.
    + eapply same_data_keys; [done|]. by apply removed_keys_distinct.
Qed.

(** *** Well-formed maps *)

Lemma wf_core m : wf m → core m.
Proof. intros []. by split_and!. Qed.

Lemma wf_size_lt m : wf m → size m < buckets m.
Proof. intros []. unfold load_threshold in *. lia. Qed.

Lemma wf_load_below m :
  wf m →
  load_below (Z.of_nat (size m)) (Z.of_nat (buckets m))
  = load_below_Z (Z.of_nat (size m)) (Z.of_nat (buckets m)).
Proof.
  intros Hwf. pose proof (wf_size_lt m Hwf). destruct Hwf.
  apply load_below_exact; lia.
Qed.

Lemma wf_find_present m h b :
  wf m → nodes_ m !! h = Some b → find hasher (key_of b) m = Ret (Some h).
Proof.
  intros Hwf Hb. pose proof (wf_size_lt m Hwf). destruct Hwf.
  apply find_present; try done. by apply exists_free_slot.
Qed.

Lemma wf_find_absent m key :
  wf m → key_absent m key → find hasher key m = Ret None.
Proof.
  intros Hwf Ha. pose proof (wf_size_lt m Hwf). destruct Hwf.
  apply find_absent; try done. by apply exists_free_slot.
Qed.

(** A key is stored or not. *)
Lemma key_stored_dec m key :
  list_ok m →
  (∃ h b, nodes_ m !! h = Some b ∧ key_of b = key) ∨ key_absent m key.
Proof.
  intros Hl. destruct (decide (key ∈ (fst <$> pairs m))) as [Hin|Hnin].
  - left. apply list_elem_of_fmap in Hin as (x & -> & Hx).
    apply (elem_of_pairs _ _ Hl) in Hx as (h & b & Hb & <-). eauto.
  - right. by apply key_absent_pairs.
Qed.

Lemma wf_same_data m m' :
  wf m → same_data m m' → slots_ok m' → robin_hood m' → nodes_placed m' None →
  wf m'.
Proof.
  intros [] Hsd Hs Hr Hp. pose proof Hsd as (Hi & Hf & Hb & Hd).
  split; try done.
  - by eapply same_data_list_ok.
  - by eapply same_data_keys.
  - by rewrite Hb.
  - by rewrite Hb.
  - by rewrite (same_data_size _ _ Hsd), Hb.
Qed.

(** *** [insert] *)

Lemma cleared_core n fr : core (@cleared Key Value n fr).
Proof.
  split_and!.
  - split_and!; simpl; [constructor| |].
    + intros h. rewrite lookup_empty. split; [by intros ?%elem_of_nil|by intros []].
    + intros h. rewrite lookup_empty. by intros [].
  - intros i h Ht. simpl in Ht. apply lookup_replicate in Ht as [? _]. done.
  - intros i h b _ Ht. simpl in Ht. apply lookup_replicate in Ht as [? _]. done.
  - intros h b Hb. by simpl in Hb.
  - intros h1 h2 b1 b2 Hb. by simpl in Hb.
Qed.

Lemma cleared_buckets n fr : buckets (@cleared Key Value n fr) = n.
Proof. unfold buckets. simpl. apply length_replicate. Qed.

Lemma cleared_wf n fr :
  37 ≤ n → (Z.of_nat n < 2 ^ 53)%Z → bucket_count (Z.of_nat n) →
  wf (@cleared Key Value n fr).
Proof.
  intros Hn Hn' Hc. destruct (cleared_core n fr) as (? & ? & ? & ? & ?).
  split; try done; rewrite cleared_buckets; [done|done|].
  unfold size, load_threshold. simpl. lia.
Qed.

Lemma place_wf m x :
  wf m → key_absent m (fst x) →
  load_below_Z (Z.of_nat (size m)) (Z.of_nat (buckets m)) = true →
  ∃ m', place hasher x m = Ret m' ∧ wf m' ∧ pairs m' = pairs m ++ [x] ∧
        buckets m' = buckets m ∧ fresh_ m' = S (fresh_ m).
Proof.
  intros Hwf Ha Hload. pose proof (wf_size_lt m Hwf) as Hsz.
  apply load_below_Z_spec in Hload.
  destruct (place_spec m x (wf_core m Hwf) Hsz) as (m' & Hrun & Hc & Hsd);
    [destruct Hwf; lia|done|].
  pose proof Hsd as (Hi & Hf & Hb & Hd).
  destruct Hc as (Hl' & Hs' & Hr' & Hp' & Hk').
  exists m'. split; [done|]. split_and!.
  - destruct Hwf. split; try done.
    + by rewrite Hb.
    + by rewrite Hb.
    + rewrite Hb. change (buckets (emplaced m x)) with (buckets m).
      unfold size. rewrite Hi. simpl. rewrite length_app. simpl.
      unfold size in Hload. lia.
  - rewrite (same_data_pairs _ _ Hsd). apply emplaced_pairs. by destruct Hwf.
  - done.
  - done.
Qed.

Lemma insert_rec_present d m x h b :
  wf m → nodes_ m !! h = Some b → key_of b = fst x →
  insert_rec hasher max_buckets (S d) x m = Ret m.
Proof.
  intros Hwf Hb Hkey. simpl. rewrite <- Hkey.
  by rewrite (wf_find_present m h b).
Qed.

Lemma insert_rec_room d m x :
  wf m → key_absent m (fst x) →
  load_below_Z (Z.of_nat (size m)) (Z.of_nat (buckets m)) = true →
  insert_rec hasher max_buckets (S d) x m = place hasher x m.
Proof.
  intros Hwf Ha Hload. simpl. rewrite (wf_find_absent m _ Hwf Ha).
  cbn [mbind outcome_bind iterator_eqb end_ negb bool_decide].
  unfold rehash_if_needed. rewrite (wf_load_below m Hwf), Hload.
  reflexivity.
Qed.

Lemma pairs_keys_NoDup m : list_ok m → keys_distinct m → NoDup (fst <$> pairs m).
Proof.
  intros (Hnd & Hdom & _) Hk. unfold pairs.
  assert (∀ l : list node, NoDup l → (∀ h, h ∈ l → is_Some (nodes_ m !! h)) →
            NoDup (fst <$> omap (λ h, data <$> nodes_ m !! h) l)) as Hgen.
  { induction l as [|h l IH]; intros Hl Hin; [constructor|].
    apply NoDup_cons in Hl as [Hh Hl].
    destruct (Hin h) as [b Hb]; [left|]. csimpl. rewrite Hb. csimpl.
    apply NoDup_cons. split; [|apply IH; [done|intros; apply Hin; by right]].
    intros Hkey. apply list_elem_of_fmap in Hkey as (y & Hy & Hyin).
    apply list_elem_of_omap in Hyin as (h' & Hh' & Hf).
    destruct (nodes_ m !! h') as [b'|] eqn:Hb'; [|done]. injection Hf as <-.
    apply Hh. by rewrite (Hk h h' b b' Hb Hb' Hy). }
  apply Hgen; [done|]. intros h. apply Hdom.
Qed.

Lemma insert_all_cons (ins : Key * Value → HashMap → outcome HashMap) x l m :
  insert_all ins (x :: l) m = m' ← ins x m; insert_all ins l m'.
Proof. done. Qed.

(** Insertions that find room: no rehash, the pairs are appended. *)
Lemma insert_all_room (ins : Key * Value → HashMap → outcome HashMap) l :
  (∀ m x, wf m → key_absent m (fst x) →
     load_below_Z (Z.of_nat (size m)) (Z.of_nat (buckets m)) = true →
     ins x m = place hasher x m) →
  ∀ m,
  wf m → NoDup (fst <$> l) → (∀ x, x ∈ l → key_absent m (fst x)) →
  ((Z.of_nat (size m) + Z.of_nat (length l)) * 2 ^ 54
     < load_threshold * Z.of_nat (buckets m))%Z →
  ∃ m', insert_all ins l m = Ret m' ∧
        wf m' ∧ pairs m' = pairs m ++ l ∧ buckets m' = buckets m ∧
        fresh_ m' = fresh_ m + length l.
Proof.
  intros Hins.
  induction l as [|x l IH]; intros m Hwf Hnd Habs Hroom.
  - exists m. rewrite app_nil_r. split_and!; try done; simpl; lia.
  - apply NoDup_cons in Hnd as [Hx Hnd].
    assert (load_below_Z (Z.of_nat (size m)) (Z.of_nat (buckets m)) = true) as Hload.
    { apply load_below_Z_spec. simpl length in Hroom. lia. }
    destruct (place_wf m x Hwf (Habs x ltac:(left)) Hload)
      as (m1 & Hrun1 & Hwf1 & Hp1 & Hb1 & Hf1).
    assert (size m1 = S (size m)) as Hs1.
    { rewrite <- (pairs_length m1), Hp1, length_app by (by destruct Hwf1).
      rewrite pairs_length by (by destruct Hwf). simpl. lia. }
    destruct (IH m1) as (m' & Hrun & Hwf' & Hp' & Hb' & Hf'); [done|done| |..].
    + intros y Hy. apply key_absent_pairs; [by destruct Hwf1|].
      rewrite Hp1, fmap_app, elem_of_app. intros [Hin|Hin].
      * revert Hin. apply key_absent_pairs; [by destruct Hwf|].
        apply Habs. by right.
      * apply list_elem_of_singleton in Hin. apply Hx. rewrite <- Hin.
        by apply list_elem_of_fmap_2.
    + rewrite Hs1, Hb1. simpl length in Hroom. lia.
    + exists m'. rewrite insert_all_cons.
      rewrite (Hins m x Hwf (Habs x ltac:(left)) Hload), Hrun1.
      split; [done|]. split_and!; [done| |congruence|].
      * rewrite Hp', Hp1, <- app_assoc. done.
      * rewrite Hf', Hf1. simpl. lia.
Qed.

Lemma insert_rec_grow d m x :
  wf m → key_absent m (fst x) →
  load_below_Z (Z.of_nat (size m)) (Z.of_nat (buckets m)) = false →
  let p := next_prime (Z.of_nat (buckets m) * 2) in
  ((p <= max_buckets)%Z →
     ∃ m', insert_rec hasher max_buckets (S (S d)) x m = Ret m' ∧ wf m' ∧
           pairs m' = pairs m ++ [x] ∧ buckets m' = Z.to_nat p) ∧
  ((max_buckets < p)%Z →
     insert_rec hasher max_buckets (S (S d)) x m = Throw alloc_error).
Proof.
  intros Hwf Ha Hload p.
  assert (insert_rec hasher max_buckets (S (S d)) x m =
          m1 ← (if (max_buckets <? p)%Z then Throw alloc_error
                else insert_all (insert_rec hasher max_buckets (S d)) (pairs m)
                       (cleared (Z.to_nat p) (fresh_ m)));
          place hasher x m1) as ->.
  { change (insert_rec hasher max_buckets (S (S d)) x m)
      with (it ← find hasher (fst x) m;
            if negb (iterator_eqb it (end_ m)) then Ret m
            else m1 ← rehash_if_needed max_buckets
                        (insert_rec hasher max_buckets (S d)) m;
                 place hasher x m1).
    rewrite (wf_find_absent m _ Hwf Ha).
    unfold rehash_if_needed. rewrite (wf_load_below m Hwf), Hload. reflexivity. }
  destruct (next_prime_spec (Z.of_nat (buckets m) * 2)) as (Hge & _). fold p in Hge.
  split; intros Hp.
  - destruct (Z.ltb_spec max_buckets p) as [|_]; [lia|].
    pose proof Hwf as [Hl Hs Hr Hpl Hk [Hb37 Hb53] Hch Hld].
    assert (wf (cleared (Z.to_nat p) (fresh_ m))) as Hwf0.
    { apply cleared_wf; [lia|lia|]. rewrite Z2Nat.id by lia. by constructor. }
    destruct (insert_all_room (insert_rec hasher max_buckets (S d)) (pairs m)
                (insert_rec_room d) (cleared (Z.to_nat p) (fresh_ m)))
      as (m1 & Hrun1 & Hwf1 & Hp1 & Hb1 & Hf1).
    + done.
    + by apply pairs_keys_NoDup.
    + intros y _ h b Hb. by simpl in Hb.
    + rewrite cleared_buckets, pairs_length by done.
      unfold size at 1. simpl. unfold load_threshold in *. lia.
    + rewrite Hrun1. cbn [mbind outcome_bind].
      rewrite cleared_buckets in Hb1.
      assert (size m1 = size m) as Hs1.
      { rewrite <- (pairs_length m1), Hp1 by (by destruct Hwf1).
        simpl. by rewrite pairs_length. }
      destruct (place_wf m1 x Hwf1) as (m' & Hrun & Hwf' & Hp' & Hb' & Hf').
      * apply key_absent_pairs; [by destruct Hwf1|]. rewrite Hp1. simpl.
        by apply key_absent_pairs.
      * apply load_below_Z_spec. rewrite Hs1, Hb1.
        unfold load_threshold in *. lia.
      * exists m'. split_and!; [done|done| |congruence].
        by rewrite Hp', Hp1.
  - destruct (Z.ltb_spec max_buckets p) as [_|]; [done|lia].
Qed.

Lemma insert_room_place m x :
  wf m → key_absent m (fst x) →
  load_below_Z (Z.of_nat (size m)) (Z.of_nat (buckets m)) = true →
  insert hasher max_buckets x m = place hasher x m.
Proof. apply insert_rec_room. Qed.

Lemma insert_present m x h b :
  wf m → nodes_ m !! h = Some b → key_of b = fst x →
  insert hasher max_buckets x m = Ret m.
Proof. apply insert_rec_present. Qed.

Lemma insert_room m x :
  wf m → key_absent m (fst x) →
  load_below_Z (Z.of_nat (size m)) (Z.of_nat (buckets m)) = true →
  ∃ m', insert hasher max_buckets x m = Ret m' ∧ wf m' ∧
        pairs m' = pairs m ++ [x] ∧ buckets m' = buckets m.
Proof.
  intros Hwf Ha Hload. rewrite insert_room_place by done.
  destruct (place_wf m x Hwf Ha Hload) as (m' & ? & ? & ? & ? & ?). by exists m'.
Qed.

Lemma insert_grow m x :
  wf m → key_absent m (fst x) →
  load_below_Z (Z.of_nat (size m)) (Z.of_nat (buckets m)) = false →
  let p := next_prime (Z.of_nat (buckets m) * 2) in
  ((p <= max_buckets)%Z →
     ∃ m', insert hasher max_buckets x m = Ret m' ∧ wf m' ∧
           pairs m' = pairs m ++ [x] ∧ buckets m' = Z.to_nat p) ∧
  ((max_buckets < p)%Z → insert hasher max_buckets x m = Throw alloc_error).
Proof.
  intros Hwf Ha Hload.
  assert (∃ d, size m = S d) as [d Hsz].
  { destruct (size m) as [|d] eqn:Hsz; [|by exists d]. exfalso.
    destruct Hwf as [_ _ _ _ _ [Hb _] _ _].
    unfold load_below_Z, load_threshold in Hload.
    apply Z.ltb_ge in Hload. lia. }
  unfold insert. rewrite Hsz. by apply insert_rec_grow.
Qed.

(** *** [erase], [clear] *)

Lemma erase_iterator_wf m h b :
  wf m → nodes_ m !! h = Some b →
  ∃ m', erase_iterator (Some h) m = Ret m' ∧ wf m' ∧
        pairs m' = filter (λ x, fst x ≠ key_of b) (pairs m) ∧
        items_ m' = filter (λ x, x ≠ h) (items_ m) ∧
        buckets m' = buckets m ∧ S (size m') = size m ∧ fresh_ m' = fresh_ m.
Proof.
  intros Hwf Hb. pose proof (wf_size_lt m Hwf) as Hsz.
  pose proof Hwf as [Hl Hs Hr Hp Hk [Hb37 Hb53] Hch Hld].
  destruct (erase_iterator_spec m h b (wf_core m Hwf) Hsz ltac:(lia) Hb)
    as (m' & Hrun & (Hl' & Hs' & Hr' & Hp' & Hk') & Hsd).
  pose proof Hsd as (Hi & Hf & Hbk & Hd).
  assert (buckets (removed m h (id_in_table b)) = buckets m) as Hbr
    by (unfold buckets; simpl; by rewrite length_insert).
  assert (S (size m') = size m) as Hsz'.
  { rewrite (same_data_size _ _ Hsd). apply removed_size; [done|by eexists]. }
  exists m'. split; [done|]. split_and!; try done.
  - split; try done; rewrite Hbk, Hbr; try done. lia.
  - rewrite (same_data_pairs _ _ Hsd). by apply removed_pairs.
  - congruence.
Qed.

Lemma erase_present m h b :
  wf m → nodes_ m !! h = Some b →
  ∃ m', erase hasher (key_of b) m = Ret m' ∧ wf m' ∧
        pairs m' = filter (λ x, fst x ≠ key_of b) (pairs m) ∧
        buckets m' = buckets m ∧ S (size m') = size m.
Proof.
  intros Hwf Hb. unfold erase. rewrite (wf_find_present m h b Hwf Hb).
  cbn [mbind outcome_bind].
  replace (negb (iterator_eqb (Some h) (end_ m))) with true by reflexivity.
  destruct (erase_iterator_wf m h b Hwf Hb) as (m' & ? & ? & ? & ? & ? & ? & ?).
  by exists m'.
Qed.

Lemma erase_absent m key :
  wf m → key_absent m key → erase hasher key m = Ret m.
Proof. intros Hwf Ha. unfold erase. by rewrite (wf_find_absent m key Hwf Ha). Qed.

Lemma clear_loop_spec l : ∀ m,
  wf m → items_ m = l →
  ∃ m', clear_loop l m = Ret m' ∧ wf m' ∧ items_ m' = [] ∧
        buckets m' = buckets m ∧ fresh_ m' = fresh_ m.
Proof.
  induction l as [|h l IH]; intros m Hwf Hl.
  - by exists m.
  - assert (is_Some (nodes_ m !! h)) as [b Hb].
    { destruct Hwf as [(_ & Hdom & _) _ _ _ _ _ _ _]. apply Hdom. rewrite Hl. left. }
    destruct (erase_iterator_wf m h b Hwf Hb)
      as (m1 & Hrun1 & Hwf1 & _ & Hi1 & Hb1 & _ & Hf1).
    destruct (IH m1 Hwf1) as (m' & Hrun & Hwf' & Hi' & Hb' & Hf').
    + rewrite Hi1, Hl, filter_cons, decide_False by (by intros []).
      apply filter_ne_notin.
      destruct Hwf as [(Hnd & _) _ _ _ _ _ _ _]. rewrite Hl in Hnd.
      by apply NoDup_cons in Hnd as [? _].
    + exists m'.
      change (clear_loop (h :: l) m)
        with (m1 ← erase_iterator (Some h) m; clear_loop l m1).
      rewrite Hrun1. split; [done|].
      split_and!; [done|done|congruence|congruence].
Qed.

Lemma clear_spec m :
  wf m →
  ∃ m', clear m = Ret m' ∧ wf m' ∧ pairs m' = [] ∧ size m' = 0 ∧
        buckets m' = buckets m.
Proof.
  intros Hwf. destruct (clear_loop_spec (items_ m) m Hwf eq_refl)
    as (m' & Hrun & Hwf' & Hi & Hb & _).
  exists m'. split_and!; try done.
  - unfold pairs. by rewrite Hi.
  - unfold size. by rewrite Hi.
Qed.

(** *** [at], [operator[]] and references *)

Lemma pairs_node m k v :
  list_ok m → (k, v) ∈ pairs m → ∃ h b, nodes_ m !! h = Some b ∧ data b = (k, v).
Proof. intros Hl. by apply elem_of_pairs. Qed.

Lemma at_present m h b :
  wf m → nodes_ m !! h = Some b → at_ hasher (key_of b) m = Ret (snd (data b)).
Proof.
  intros Hwf Hb. unfold at_. rewrite (wf_find_present m h b Hwf Hb).
  cbn [mbind outcome_bind]. unfold read_ref. by rewrite Hb.
Qed.

Lemma at_absent m key :
  wf m → key_absent m key → at_ hasher key m = Throw out_of_range.
Proof. intros Hwf Ha. unfold at_. by rewrite (wf_find_absent m key Hwf Ha). Qed.

Lemma index_present r m h b :
  wf m → nodes_ m !! h = Some b → read_key r m = Ret (key_of b) →
  index hasher default_value max_buckets r m = Ret (m, h).
Proof.
  intros Hwf Hb Hr. unfold index. rewrite Hr. cbn [mbind outcome_bind].
  rewrite (insert_present m (key_of b, default_value) h b) by done.
  cbn [mbind outcome_bind]. rewrite Hr. cbn [mbind outcome_bind].
  by rewrite (wf_find_present m h b Hwf Hb).
Qed.

(** [operator[]] where the key can still be read after the insertion. *)
Lemma index_after_insert r m m' key :
  wf m' → read_key r m = Ret key →
  insert hasher max_buckets (key, default_value) m = Ret m' →
  read_key r m' = Ret key →
  pairs m' = pairs m ++ [(key, default_value)] →
  ∃ h b, index hasher default_value max_buckets r m = Ret (m', h) ∧
         nodes_ m' !! h = Some b ∧ data b = (key, default_value).
Proof.
  intros Hwf' Hr Hrun Hr' Hp. unfold index. rewrite Hr. cbn [mbind outcome_bind].
  rewrite Hrun. cbn [mbind outcome_bind]. rewrite Hr'. cbn [mbind outcome_bind].
  destruct (pairs_node m' key default_value) as (h & b & Hb & Hd).
  { by destruct Hwf'. }
  { rewrite Hp, elem_of_app. right. by left. }
  exists h, b. split_and!; [|done|done].
  replace key with (key_of b) by (by rewrite Hd).
  by rewrite (wf_find_present m' h b Hwf' Hb).
Qed.

(** [operator[]] where the insertion has destroyed the node that holds
    the key. *)
Lemma index_dangling r m m' key :
  read_key r m = Ret key →
  insert hasher max_buckets (key, default_value) m = Ret m' →
  read_key r m' = Undefined →
  index hasher default_value max_buckets r m = Undefined.
Proof.
  intros Hr Hrun Hr'. unfold index. rewrite Hr. cbn [mbind outcome_bind].
  rewrite Hrun. cbn [mbind outcome_bind]. by rewrite Hr'.
Qed.

(** Assignment through a reference keeps the key and the placement. *)
Lemma write_ref_wf m h b v :
  wf m → nodes_ m !! h = Some b →
  ∃ m', write_ref h v m = Ret m' ∧ wf m' ∧
        nodes_ m' !! h = Some (set_second v b) ∧
        (∀ h', h' ≠ h → nodes_ m' !! h' = nodes_ m !! h') ∧
        items_ m' = items_ m ∧ table_ m' = table_ m.
Proof.
  intros Hwf Hb. unfold write_ref. rewrite Hb. eexists. split; [done|].
  set (m' := with_nodes (<[h := set_second v b]> (nodes_ m)) m).
  assert (nodes_ m' !! h = Some (set_second v b)) as Hh by apply lookup_insert_eq.
  assert (∀ h', h' ≠ h → nodes_ m' !! h' = nodes_ m !! h') as Hne
    by (intros h' ?; by apply lookup_insert_ne).
  assert (∀ h' b', nodes_ m' !! h' = Some b' →
            ∃ b0, nodes_ m !! h' = Some b0 ∧ key_of b' = key_of b0 ∧
                  dist b' = dist b0 ∧ id_in_table b' = id_in_table b0) as Hold.
  { intros h' b' Hb'. destruct (decide (h' = h)) as [->|Hn].
    - rewrite Hh in Hb'. injection Hb' as <-. by exists b.
    - rewrite Hne in Hb' by done. by exists b'. }
  assert (∀ h' b0, nodes_ m !! h' = Some b0 →
            ∃ b', nodes_ m' !! h' = Some b' ∧ key_of b' = key_of b0 ∧
                  dist b' = dist b0 ∧ id_in_table b' = id_in_table b0) as Hnew.
  { intros h' b0 Hb0. destruct (decide (h' = h)) as [->|Hn].
    - rewrite Hb in Hb0. injection Hb0 as <-. by exists (set_second v b).
    - exists b0. by rewrite Hne. }
  destruct Hwf as [(Hnd & Hdom & Hfr) Hs Hr Hp Hk Hbk Hch Hld].
  split_and!; try done.
  split; unfold list_ok, slots_ok, robin_hood, nodes_placed, keys_distinct;
    change (items_ m') with (items_ m); change (table_ m') with (table_ m);
    change (fresh_ m') with (fresh_ m); change (buckets m') with (buckets m);
    try done.
  - split_and!; [done| |].
    + intros h'. rewrite Hdom. split; intros [b0 Hb0].
      * destruct (Hnew _ _ Hb0) as (b' & ? & _). by eexists.
      * destruct (Hold _ _ Hb0) as (b' & ? & _). by eexists.
    + intros h' [b0 Hb0]. destruct (Hold _ _ Hb0) as (b' & ? & _).
      apply Hfr. by eexists.
  - intros i h' Ht. destruct (Hs i h' Ht) as (b0 & Hb0 & Hid & Hd).
    destruct (Hnew _ _ Hb0) as (b' & Hb' & Hk' & Hd' & Hi').
    exists b'. by rewrite Hk', Hd', Hi'.
  - intros i h1 b1 Hi Ht Hb1 Hpos.
    destruct (Hold _ _ Hb1) as (b0 & Hb0 & _ & Hd0 & _).
    destruct (Hr i h1 b0 Hi Ht Hb0 ltac:(lia)) as (h2 & b2 & Ht2 & Hb2 & Hd2).
    destruct (Hnew _ _ Hb2) as (b2' & Hb2' & _ & Hd2' & _).
    exists h2, b2'. split_and!; [done|done|lia].
  - intros h' b' Hb' _. destruct (Hold _ _ Hb') as (b0 & Hb0 & _ & _ & Hi0).
    rewrite Hi0. by apply Hp.
  - intros h1 h2 b1 b2 H1 H2 Heq.
    destruct (Hold _ _ H1) as (c1 & Hc1 & Hk1 & _).
    destruct (Hold _ _ H2) as (c2 & Hc2 & Hk2 & _).
    apply (Hk h1 h2 c1 c2 Hc1 Hc2). congruence.
Qed.

(** *** Copy construction and assignment *)

Lemma copy_into m fr :
  wf m →
  ∃ m', insert_all (insert hasher max_buckets) (pairs m) (cleared (buckets m) fr)
        = Ret m' ∧
        wf m' ∧ pairs m' = pairs m ∧ buckets m' = buckets m.
Proof.
  intros Hwf. pose proof Hwf as [Hl Hs Hr Hp Hk [Hb37 Hb53] Hch Hld].
  destruct (insert_all_room (insert hasher max_buckets) (pairs m)
              insert_room_place (cleared (buckets m) fr))
    as (m' & Hrun & Hwf' & Hp' & Hb' & _).
  - by apply cleared_wf.
  - by apply pairs_keys_NoDup.
  - intros y _ h b Hb. by simpl in Hb.
  - rewrite cleared_buckets, pairs_length by done. unfold size at 1. simpl. lia.
  - exists m'. rewrite cleared_buckets in Hb'. by split_and!.
Qed.

Lemma HashMap_copy_spec fr m :
  wf m →
  ∃ m', HashMap_copy hasher max_buckets fr m = Ret m' ∧
        wf m' ∧ pairs m' = pairs m ∧ buckets m' = buckets m.
Proof. apply copy_into. Qed.

Lemma assign_from_spec m0 m :
  wf m →
  ∃ m', assign_from hasher max_buckets m0 m = Ret m' ∧
        wf m' ∧ pairs m' = pairs m ∧ buckets m' = buckets m.
Proof. apply copy_into. Qed.

(** *** Reachable maps *)

Lemma HashMap_new_wf : wf (@HashMap_new Key Value).
Proof. apply cleared_wf; [done|done|constructor]. Qed.

Inductive reachable : @HashMap Key Value → Prop :=
| reach_new : reachable HashMap_new
| reach_insert m x m' :
    reachable m → insert hasher max_buckets x m = Ret m' → reachable m'
| reach_erase m key m' :
    reachable m → erase hasher key m = Ret m' → reachable m'
| reach_erase_iterator m it m' :
    reachable m → erase_iterator it m = Ret m' → reachable m'
| reach_index m r m' h :
    reachable m → index hasher default_value max_buckets r m = Ret (m', h) →
    reachable m'
| reach_write m h v m' :
    reachable m → write_ref h v m = Ret m' → reachable m'
| reach_clear m m' :
    reachable m → clear m = Ret m' → reachable m'
| reach_copy m m' :
    reachable m → HashMap_copy hasher max_buckets 0 m = Ret m' → reachable m'
| reach_assign m another m' :
    reachable m → reachable another →
    assign_from hasher max_buckets m another = Ret m' → reachable m'.

Lemma insert_wf m x m' :
  wf m → insert hasher max_buckets x m = Ret m' →
  wf m' ∧ ((m' = m ∧ ¬ key_absent m (fst x)) ∨
           (pairs m' = pairs m ++ [x] ∧ key_absent m (fst x))).
Proof.
  intros Hwf Hrun.
  destruct (key_stored_dec m (fst x)) as [(h & b & Hb & Hkey)|Ha];
    [by destruct Hwf|..].
  - rewrite (insert_present m x h b Hwf Hb Hkey) in Hrun. injection Hrun as <-.
    split; [done|]. left. split; [done|]. intros Ha. by apply (Ha h b).
  - destruct (load_below_Z (Z.of_nat (size m)) (Z.of_nat (buckets m))) eqn:Hload.
    + destruct (insert_room m x Hwf Ha Hload) as (m1 & Hrun1 & Hwf1 & Hp1 & _).
      rewrite Hrun in Hrun1. injection Hrun1 as <-. eauto.
    + destruct (insert_grow m x Hwf Ha Hload) as [Hfit Hthrow].
      destruct (Z.le_gt_cases (next_prime (Z.of_nat (buckets m) * 2)) max_buckets)
        as [Hle|Hgt].
      * destruct (Hfit Hle) as (m1 & Hrun1 & Hwf1 & Hp1 & _).
        rewrite Hrun in Hrun1. injection Hrun1 as <-. eauto.
      * rewrite (Hthrow Hgt) in Hrun. done.
Qed.

Lemma erase_iterator_node m it m' :
  erase_iterator it m = Ret m' → ∃ h b, it = Some h ∧ nodes_ m !! h = Some b.
Proof.
  unfold erase_iterator. destruct it as [h|]; [|done].
  destruct (nodes_ m !! h) as [b|] eqn:Hb; [|done]. eauto.
Qed.

Lemma erase_wf m key m' : wf m → erase hasher key m = Ret m' → wf m'.
Proof.
  intros Hwf Hrun.
  destruct (key_stored_dec m key) as [(h & b & Hb & <-)|Ha]; [by destruct Hwf|..].
  - destruct (erase_present m h b Hwf Hb) as (m1 & Hrun1 & Hwf1 & _).
    congruence.
  - rewrite (erase_absent m key Hwf Ha) in Hrun. congruence.
Qed.

Lemma bind_Ret {A B} (x : outcome A) (f : A → outcome B) (r : B) :
  x ≫= f = Ret r → ∃ a, x = Ret a ∧ f a = Ret r.
Proof. destruct x; try done. intros. by eexists. Qed.

Lemma index_insert r m m' h :
  index hasher default_value max_buckets r m = Ret (m', h) →
  ∃ key, read_key r m = Ret key ∧
         insert hasher max_buckets (key, default_value) m = Ret m'.
Proof.
  unfold index. intros Hrun. apply bind_Ret in Hrun as (key & Hkey & Hrun).
  apply bind_Ret in Hrun as (m1 & Hins & Hrun).
  apply bind_Ret in Hrun as (key' & _ & Hrun).
  apply bind_Ret in Hrun as (it & _ & Hrun). destruct it; [|done].
  injection Hrun as <- _. by exists key.
Qed.

Theorem reachable_wf m : reachable m → wf m.
Proof.
  induction 1 as [|m x m' _ IH Hrun|m key m' _ IH Hrun|m it m' _ IH Hrun
                  |m r m' h _ IH Hrun|m h v m' _ IH Hrun|m m' _ IH Hrun
                  |m m' _ IH Hrun|m another m' _ _ _ IH Hrun].
  - apply HashMap_new_wf.
  - by destruct (insert_wf m x m' IH Hrun).
  - by eapply erase_wf.
  - destruct (erase_iterator_node _ _ _ Hrun) as (h & b & -> & Hb).
    destruct (erase_iterator_wf m h b IH Hb) as (m1 & Hrun1 & Hwf1 & _). congruence.
  - apply index_insert in Hrun as (key & _ & Hins).
    by destruct (insert_wf m _ m' IH Hins).
  - unfold write_ref in Hrun. destruct (nodes_ m !! h) as [b|] eqn:Hb; [|done].
    destruct (write_ref_wf m h b v IH Hb) as (m1 & Hrun1 & Hwf1 & _).
    unfold write_ref in Hrun1. rewrite Hb in Hrun1. congruence.
  - destruct (clear_spec m IH) as (m1 & Hrun1 & Hwf1 & _). congruence.
  - destruct (HashMap_copy_spec 0 m IH) as (m1 & Hrun1 & Hwf1 & _). congruence.
  - destruct (assign_from_spec m another IH) as (m1 & Hrun1 & Hwf1 & _). congruence.
Qed.

(** *** Iteration *)

Lemma successor_app l1 h l2 :
  h ∉ l1 → successor (l1 ++ h :: l2) h = Ret (head l2).
Proof.
  induction l1 as [|x l1 IH]; intros Hn; simpl.
  - by rewrite decide_True.
  - rewrite decide_False by (intros ->; apply Hn; left).
    apply IH. intros Hin. apply Hn. by right.
Qed.

Lemma traverse_unfold fuel m it :
  traverse fuel m it =
  if iterator_eqb it (end_ m) then Ret []
  else match fuel with
       | O => Diverge
       | S fuel' =>
           x ← deref m it; it' ← incr m it; rest ← traverse fuel' m it';
           Ret (x :: rest)
       end.
Proof. by destruct fuel. Qed.

Lemma deref_node m h b : nodes_ m !! h = Some b → deref m (Some h) = Ret (data b).
Proof. intros Hb. unfold deref. by rewrite Hb. Qed.

Lemma traverse_suffix m l2 : ∀ l1 fuel,
  items_ m = l1 ++ l2 → NoDup (items_ m) →
  (∀ h, h ∈ l2 → is_Some (nodes_ m !! h)) → length l2 ≤ fuel →
  traverse fuel m (head l2) = Ret (omap (λ h, data <$> nodes_ m !! h) l2).
Proof.
  induction l2 as [|h l2 IH]; intros l1 fuel Hi Hnd Hin Hf.
  - by rewrite traverse_unfold.
  - rewrite traverse_unfold. change (head (h :: l2)) with (Some h).
    change (iterator_eqb (Some h) (end_ m)) with false. cbv iota.
    destruct fuel as [|fuel]; [simpl in Hf; lia|].
    destruct (Hin h) as [b Hb]; [left|].
    rewrite (deref_node m h b Hb).
    change (incr m (Some h)) with (successor (items_ m) h).
    rewrite Hi. cbn [mbind outcome_bind].
    rewrite successor_app.
    2:{ rewrite Hi in Hnd. apply NoDup_app in Hnd as (_ & Hd & _).
        intros Hh. apply (Hd h Hh). left. }
    cbn [mbind outcome_bind].
    rewrite (IH (l1 ++ [h]) fuel); [|by rewrite <- app_assoc|done| |simpl in Hf; lia].
    + csimpl. by rewrite Hb.
    + intros h' Hh'. apply Hin. by right.
Qed.

Lemma traverse_pairs m :
  list_ok m → traverse (size m) m (begin_ m) = Ret (pairs m).
Proof.
  intros (Hnd & Hdom & _). apply (traverse_suffix m (items_ m) []); try done.
  intros h. apply Hdom.
Qed.

(** *** Sequences of insertions of new keys *)

Lemma insert_all_distinct l : ∀ m,
  wf m → NoDup (fst <$> l) → (∀ x, x ∈ l → key_absent m (fst x)) →
  let n := buckets_after (Z.of_nat (buckets m)) (Z.of_nat (size m)) (length l) in
  ((n <= max_buckets)%Z →
     ∃ m', insert_all (insert hasher max_buckets) l m = Ret m' ∧ wf m' ∧
           pairs m' = pairs m ++ l ∧ Z.of_nat (buckets m') = n) ∧
  ((max_buckets < n)%Z →
     insert_all (insert hasher max_buckets) l m = Throw alloc_error ∨
     (max_buckets < Z.of_nat (buckets m))%Z).
Proof.
  induction l as [|x l IH]; intros m Hwf Hnd Habs n.
  - subst n. rewrite buckets_after_0. split; [|by right].
    intros _. exists m. by rewrite app_nil_r.
  - apply NoDup_cons in Hnd as [Hx Hnd]. subst n. simpl length.
    rewrite buckets_after_S.
    assert (key_absent m (fst x)) as Ha by (apply Habs; left).
    assert (∀ m1, wf m1 → pairs m1 = pairs m ++ [x] →
              ∀ y, y ∈ l → key_absent m1 (fst y)) as Habs1.
    { intros m1 Hwf1 Hp1 y Hy. apply key_absent_pairs; [by destruct Hwf1|].
      rewrite Hp1, fmap_app, elem_of_app. intros [Hin|Hin].
      - revert Hin. apply key_absent_pairs; [by destruct Hwf|].
        apply Habs. by right.
      - apply list_elem_of_singleton in Hin. apply Hx. rewrite <- Hin.
        by apply list_elem_of_fmap_2. }
    assert (∀ m1, wf m1 → pairs m1 = pairs m ++ [x] →
              Z.of_nat (size m1) = (Z.of_nat (size m) + 1)%Z) as Hsz1.
    { intros m1 Hwf1 Hp1.
      rewrite <- (pairs_length m1), Hp1, length_app by (by destruct Hwf1).
      rewrite pairs_length by (by destruct Hwf). simpl. lia. }
    unfold grow. rewrite (wf_load_below m Hwf).
    destruct (load_below_Z (Z.of_nat (size m)) (Z.of_nat (buckets m))) eqn:Hload;
      cbv iota.
    + destruct (insert_room m x Hwf Ha Hload) as (m1 & Hrun1 & Hwf1 & Hp1 & Hb1).
      destruct (IH m1 Hwf1 Hnd (Habs1 m1 Hwf1 Hp1)) as [Hfit Hthrow].
      rewrite (Hsz1 m1 Hwf1 Hp1), Hb1 in Hfit, Hthrow.
      rewrite insert_all_cons, Hrun1. cbn [mbind outcome_bind]. split.
      * intros Hle. destruct (Hfit Hle) as (m' & Hrun & Hwf' & Hp' & Hb').
        exists m'. split_and!; try done. by rewrite Hp', Hp1, <- app_assoc.
      * intros Hgt. by destruct (Hthrow Hgt); [left|right].
    + destruct (insert_grow m x Hwf Ha Hload) as [Hfit1 Hthrow1].
      set (p := next_prime (Z.of_nat (buckets m) * 2)) in *.
      assert (Z.of_nat (buckets m) * 2 <= p)%Z as Hp
        by (apply next_prime_spec).
      pose proof (buckets_after_ge p (Z.of_nat (size m) + 1) (length l)
                    ltac:(lia)) as Hmono.
      rewrite insert_all_cons.
      destruct (Z.le_gt_cases p max_buckets) as [Hle1|Hgt1].
      * destruct (Hfit1 Hle1) as (m1 & Hrun1 & Hwf1 & Hp1 & Hb1).
        destruct (IH m1 Hwf1 Hnd (Habs1 m1 Hwf1 Hp1)) as [Hfit Hthrow].
        rewrite (Hsz1 m1 Hwf1 Hp1), Hb1, Z2Nat.id in Hfit, Hthrow by lia.
        rewrite Hrun1. cbn [mbind outcome_bind]. split.
        -- intros Hle. destruct (Hfit Hle) as (m' & Hrun & Hwf' & Hp' & Hb').
           exists m'. split_and!; try done. by rewrite Hp', Hp1, <- app_assoc.
        -- intros Hgt. destruct (Hthrow Hgt); [by left|lia].
      * rewrite (Hthrow1 Hgt1). split; [lia|by left].
Qed.

(** *** [insert] as [rehash_if_needed] followed by [place] *)

(** Two callbacks that agree with [place] where there is room insert
    alike. *)
Lemma insert_all_room_eq (ins1 ins2 : Key * Value → HashMap → outcome HashMap) l :
  (∀ m x, wf m → key_absent m (fst x) →
     load_below_Z (Z.of_nat (size m)) (Z.of_nat (buckets m)) = true →
     ins1 x m = place hasher x m) →
  (∀ m x, wf m → key_absent m (fst x) →
     load_below_Z (Z.of_nat (size m)) (Z.of_nat (buckets m)) = true →
     ins2 x m = place hasher x m) →
  ∀ m,
  wf m → NoDup (fst <$> l) → (∀ x, x ∈ l → key_absent m (fst x)) →
  ((Z.of_nat (size m) + Z.of_nat (length l)) * 2 ^ 54
     < load_threshold * Z.of_nat (buckets m))%Z →
  insert_all ins1 l m = insert_all ins2 l m.
Proof.
  intros Hins1 Hins2.
  induction l as [|x l IH]; intros m Hwf Hnd Habs Hroom; [done|].
  apply NoDup_cons in Hnd as [Hx Hnd].
  assert (load_below_Z (Z.of_nat (size m)) (Z.of_nat (buckets m)) = true) as Hload.
  { apply load_below_Z_spec. simpl length in Hroom. lia. }
  assert (key_absent m (fst x)) as Ha by (apply Habs; left).
  rewrite !insert_all_cons, (Hins1 m x), (Hins2 m x) by done.
  destruct (place_wf m x Hwf Ha Hload) as (m1 & Hrun1 & Hwf1 & Hp1 & Hb1 & _).
  rewrite Hrun1. cbn [mbind outcome_bind].
  assert (size m1 = S (size m)) as Hs1.
  { rewrite <- (pairs_length m1), Hp1, length_app by (by destruct Hwf1).
    rewrite pairs_length by (by destruct Hwf). simpl. lia. }
  apply IH; [done|done| |].
  - intros y Hy. apply key_absent_pairs; [by destruct Hwf1|].
    rewrite Hp1, fmap_app, elem_of_app. intros [Hin|Hin].
    + revert Hin. apply key_absent_pairs; [by destruct Hwf|].
      apply Habs. by right.
    + apply list_elem_of_singleton in Hin. apply Hx. rewrite <- Hin.
      by apply list_elem_of_fmap_2.
  - rewrite Hs1, Hb1. simpl length in Hroom. lia.
Qed.

Lemma insert_unfold m x :
  wf m → key_absent m (fst x) →
  insert hasher max_buckets x m =
  m1 ← rehash_if_needed max_buckets (insert hasher max_buckets) m;
  place hasher x m1.
Proof.
  intros Hwf Ha.
  destruct (load_below_Z (Z.of_nat (size m)) (Z.of_nat (buckets m))) eqn:Hload.
  - rewrite insert_room_place by done. unfold rehash_if_needed.
    by rewrite (wf_load_below m Hwf), Hload.
  - pose proof Hwf as [Hl Hs Hr Hpl Hk [Hb37 Hb53] Hch Hld].
    assert (∃ d, size m = S d) as [d Hsz].
    { destruct (size m) as [|d] eqn:Hsz; [|by exists d]. exfalso.
      unfold load_below_Z, load_threshold in Hload.
      apply Z.ltb_ge in Hload. lia. }
    unfold insert at 1. rewrite Hsz.
    change (insert_rec hasher max_buckets (S (S d)) x m)
      with (it ← find hasher (fst x) m;
            if negb (iterator_eqb it (end_ m)) then Ret m
            else m1 ← rehash_if_needed max_buckets
                        (insert_rec hasher max_buckets (S d)) m;
                 place hasher x m1).
    rewrite (wf_find_absent m _ Hwf Ha).
    cbn [mbind outcome_bind iterator_eqb end_ negb bool_decide].
    unfold rehash_if_needed. rewrite (wf_load_below m Hwf), Hload.
    set (p := next_prime (Z.of_nat (buckets m) * 2)).
    destruct (Z.ltb_spec max_buckets p) as [|Hfit]; [done|].
    destruct (next_prime_spec (Z.of_nat (buckets m) * 2)) as (Hge & _).
    fold p in Hge.
    set (c := @cleared Key Value (Z.to_nat p) (fresh_ m)).
    assert (wf c) as Hwf0.
    { apply cleared_wf; [lia|lia|]. rewrite Z2Nat.id by lia. by constructor. }
    assert (∀ y, y ∈ pairs m → key_absent c (fst y)) as Habs0.
    { intros y _ h b Hb. by simpl in Hb. }
    assert ((Z.of_nat (size c) + Z.of_nat (length (pairs m))) * 2 ^ 54
            < load_threshold * Z.of_nat (buckets c))%Z as Hroom0.
    { unfold c. rewrite cleared_buckets, pairs_length by done.
      unfold size at 1. simpl. unfold load_threshold in *. lia. }
    by rewrite (insert_all_room_eq (insert_rec hasher max_buckets (S d))
                  (insert hasher max_buckets) (pairs m)
                  (insert_rec_room d) insert_room_place c Hwf0
                  (pairs_keys_NoDup m Hl Hk) Habs0 Hroom0).
Qed.

(** An insertion of a new key for which memory suffices. *)
Lemma insert_absent_fits m x :
  wf m → key_absent m (fst x) →
  (grow (Z.of_nat (buckets m)) (Z.of_nat (size m)) <= max_buckets)%Z →
  ∃ m', insert hasher max_buckets x m = Ret m' ∧ wf m' ∧
        pairs m' = pairs m ++ [x] ∧
        Z.of_nat (buckets m') = grow (Z.of_nat (buckets m)) (Z.of_nat (size m)).
Proof.
  intros Hwf Ha. unfold grow. rewrite (wf_load_below m Hwf).
  destruct (load_below_Z (Z.of_nat (size m)) (Z.of_nat (buckets m))) eqn:Hload.
  - intros _. destruct (insert_room m x Hwf Ha Hload) as (m' & ? & ? & ? & Hb).
    exists m'. by rewrite Hb.
  - intros Hfit. destruct (insert_grow m x Hwf Ha Hload) as [H1 _].
    destruct (H1 Hfit) as (m' & ? & ? & ? & Hb). exists m'.
    pose proof (next_prime_spec (Z.of_nat (buckets m) * 2)) as (Hge & _).
    rewrite Hb, Z2Nat.id by lia. done.
Qed.

Lemma insert_all_reachable l : ∀ m m',
  reachable m → insert_all (insert hasher max_buckets) l m = Ret m' →
  reachable m'.
Proof.
  induction l as [|x l IH]; intros m m' Hm Hrun.
  - injection Hrun as <-. done.
  - rewrite insert_all_cons in Hrun. apply bind_Ret in Hrun as (m1 & H1 & H2).
    apply (IH m1); [|done]. by apply (reach_insert m x).
Qed.

Lemma pairs_new : pairs (@HashMap_new Key Value) = [].
Proof. done. Qed.

Lemma reachable_absent m key :
  reachable m → key ∉ (fst <$> pairs m) → key_absent m key.
Proof. intros Hm%reachable_wf. apply key_absent_pairs. by destruct Hm. Qed.

Lemma reachable_present m k v :
  reachable m → (k, v) ∈ pairs m →
  ∃ h b, nodes_ m !! h = Some b ∧ data b = (k, v).
Proof. intros Hm%reachable_wf. apply pairs_node. by destruct Hm. Qed.

Lemma wf_size_pairs m : wf m → size m = length (pairs m).
Proof. intros []. by rewrite pairs_length. Qed.

(** *** Assignment through a reference *)

Lemma write_ref_pairs m h b v m' :
  wf m → nodes_ m !! h = Some b → write_ref h v m = Ret m' →
  pairs m' =
  (λ x, if decide (fst x = key_of b) then (key_of b, v) else x) <$> pairs m.
Proof.
  intros Hwf Hb Hrun.
  destruct (write_ref_wf m h b v Hwf Hb) as (m1 & Hrun1 & _ & Hh & Hne & Hi & _).
  rewrite Hrun in Hrun1. injection Hrun1 as <-.
  destruct Hwf as [_ _ _ _ Hk _ _ _].
  unfold pairs. rewrite Hi. clear Hi.
  induction (items_ m) as [|h' l IH]; [done|]. csimpl.
  destruct (decide (h' = h)) as [->|Hh'].
  - rewrite Hh, Hb. csimpl. rewrite decide_True by done. by rewrite IH.
  - rewrite (Hne h' Hh'). destruct (nodes_ m !! h') as [b'|] eqn:Hb'; [|done].
    csimpl. rewrite decide_False, IH; [done|].
    intros Heq. apply Hh'. by apply (Hk h' h b' b).
Qed.

Lemma fmap_other_keys (k : Key) (v : Value) (l : list (Key * Value)) :
  k ∉ (fst <$> l) →
  (λ x, if decide (fst x = k) then (k, v) else x) <$> l = l.
Proof.
  induction l as [|x l IH]; [done|]. csimpl. intros Hk.
  apply not_elem_of_cons in Hk as [Hx Hk].
  rewrite decide_False by done. by rewrite IH.
Qed.

(** The early return of [rehash_if_needed]. *)
Lemma rehash_room (ins : Key * Value → HashMap → outcome HashMap) m :
  wf m →
  load_below_Z (Z.of_nat (size m)) (Z.of_nat (buckets m)) = true →
  rehash_if_needed max_buckets ins m = Ret m.
Proof.
  intros Hwf Hload. unfold rehash_if_needed.
  by rewrite (wf_load_below m Hwf), Hload.
Qed.

(** The balance property in the words of the specification: scanning
    from the ideal slot of a key, the displacements of the occupied slots
    do not decrease until an empty slot is reached. *)
Definition probe_nondecreasing m : Prop :=
  ∀ key j h1 b1 h2 b2,
    let n := buckets m in
    let s := hasher key mod n in
    (∀ i, i ≤ S j → table_ m !! ((s + i) mod n) ≠ Some None) →
    table_ m !! ((s + j) mod n) = Some (Some h1) → nodes_ m !! h1 = Some b1 →
    table_ m !! ((s + S j) mod n) = Some (Some h2) → nodes_ m !! h2 = Some b2 →
    dist b1 ≤ dist b2.

(** *** The properties of the specification *)

(** C1: inserting pairs with pairwise distinct keys into a new map, with
    enough memory for the bucket array these insertions grow to, returns a
    map whose [size()] is the number of pairs, in which [find] locates
    every inserted key with the value it was inserted with, and whose
    iteration from [begin()] to [end()] yields the pairs in insertion
    order. *)
Theorem distinct_inserts l :
  NoDup (fst <$> l) →
  (buckets_after (Z.of_nat START_BUCKET_COUNT) 0 (length l) <= max_buckets)%Z →
  ∃ m, insert_all (insert hasher max_buckets) l HashMap_new = Ret m ∧
       size m = length l ∧
       (∀ k v, (k, v) ∈ l →
          ∃ h, find hasher k m = Ret (Some h) ∧ deref m (Some h) = Ret (k, v)) ∧
       traverse (size m) m (begin_ m) = Ret l.
Proof.
  intros Hnd Hfit.
  destruct (insert_all_distinct l HashMap_new HashMap_new_wf Hnd) as [Hrun _].
  { intros x _ h b Hb. by simpl in Hb. }
  destruct (Hrun Hfit) as (m & Hm & Hwf & Hp & _).
  rewrite pairs_new in Hp. simpl in Hp.
  exists m. split_and!; [done|by rewrite wf_size_pairs, Hp| |].
  - intros k v Hin. rewrite <- Hp in Hin.
    destruct (pairs_node m k v) as (h & b & Hb & Hd); [by destruct Hwf|done|].
    exists h. split.
    + replace k with (key_of b) by (by rewrite Hd).
      by apply wf_find_present.
    + by rewrite (deref_node m h b), Hd.
  - rewrite <- Hp. apply traverse_pairs. by destruct Hwf.
Qed.

(** C2: on a reachable map that holds key [k] with value [v1],
    [insert((k, v2))] returns the map as it was (the same list, nodes and
    bucket array, so the same size, order, entries and capacity), and
    [at(k)] is [v1]. *)
Theorem insert_present_noop m k v1 v2 :
  reachable m → (k, v1) ∈ pairs m →
  insert hasher max_buckets (k, v2) m = Ret m ∧ at_ hasher k m = Ret v1.
Proof.
  intros Hm Hin. destruct (reachable_present m k v1 Hm Hin) as (h & b & Hb & Hd).
  apply reachable_wf in Hm. split.
  - apply (insert_present m (k, v2) h b); [done|done|by rewrite Hd].
  - replace k with (key_of b) by (by rewrite Hd).
    replace v1 with (snd (data b)) by (by rewrite Hd).
    by apply (at_present m h b).
Qed.

(** C3: on a reachable map that holds key [k], [erase(k)] returns a map in
    which [find(k)] is [end()], whose size is one less, and whose pairs are
    the other pairs in their order; inserting [k] again returns a map with
    the pair appended at the end, the same bucket count, and [at(k)] the
    new value. *)
Theorem erase_reinsert m k v v' :
  reachable m → (k, v) ∈ pairs m →
  ∃ m', erase hasher k m = Ret m' ∧
        find hasher k m' = Ret (end_ m') ∧
        S (size m') = size m ∧
        pairs m' = filter (λ x, fst x ≠ k) (pairs m) ∧
        ∃ m'', insert hasher max_buckets (k, v') m' = Ret m'' ∧
               pairs m'' = pairs m' ++ [(k, v')] ∧
               buckets m'' = buckets m ∧
               at_ hasher k m'' = Ret v'.
Proof.
  intros Hm Hin. destruct (reachable_present m k v Hm Hin) as (h & b & Hb & Hd).
  apply reachable_wf in Hm.
  assert (key_of b = k) as Hk by (by rewrite Hd).
  destruct (erase_present m h b Hm Hb) as (m' & Hrun & Hwf' & Hp' & Hb' & Hs').
  rewrite Hk in Hrun, Hp'.
  assert (key_absent m' k) as Ha.
  { apply key_absent_pairs; [by destruct Hwf'|]. rewrite Hp'.
    intros (x & Hx & Hin')%list_elem_of_fmap.
    apply list_elem_of_filter in Hin' as [Hne _]. by apply Hne. }
  exists m'. split_and!; try done.
  { by apply wf_find_absent. }
  destruct (insert_room m' (k, v') Hwf' Ha) as (m'' & Hrun' & Hwf'' & Hp'' & Hb'').
  { apply load_below_Z_spec. destruct Hm as [_ _ _ _ _ _ _ Hld].
    rewrite Hb'. lia. }
  exists m''. split_and!; [done|done|congruence|].
  destruct (pairs_node m'' k v') as (h' & b' & Hh' & Hd'); [by destruct Hwf''| |].
  { rewrite Hp'', elem_of_app. right. by left. }
  replace k with (key_of b') by (by rewrite Hd').
  replace v' with (snd (data b')) by (by rewrite Hd').
  by apply (at_present m'' h' b').
Qed.

(** C4: in every reachable map the list holds no node twice; every node
    of the list is designated by the slot [id_in_table] of its bucket item
    and by no other slot; and every occupied slot designates a node of the
    list. *)
Theorem table_list_bijection m :
  reachable m →
  NoDup (items_ m) ∧
  (∀ h, h ∈ items_ m →
     ∃ b, nodes_ m !! h = Some b ∧
          ∀ i, table_ m !! i = Some (Some h) ↔ i = id_in_table b) ∧
  (∀ i h, table_ m !! i = Some (Some h) → h ∈ items_ m).
Proof.
  intros [[Hnd [Hdom _]] Hs _ Hp _ _ _ _]%reachable_wf. split_and!; [done| |].
  - intros h [b Hb]%Hdom. exists b. split; [done|]. intros i. split.
    + intros Hi. destruct (Hs i h Hi) as (b' & Hb' & Hid & _). congruence.
    + intros ->. by apply Hp.
  - intros i h Hi. destruct (Hs i h Hi) as (b & Hb & _). apply Hdom. by exists b.
Qed.

(** C5 (as amended): in every reachable map, the entry of an occupied slot
    that follows an empty slot has displacement 0, and the entry of an
    occupied slot that follows an occupied one is displaced by at most one
    more than the entry before it. *)
Theorem robin_hood_balance m :
  reachable m →
  ∀ i h b, i < buckets m →
    table_ m !! ((i + 1) mod buckets m) = Some (Some h) →
    nodes_ m !! h = Some b →
    (table_ m !! i = Some None → dist b = 0) ∧
    (∀ h' b', table_ m !! i = Some (Some h') → nodes_ m !! h' = Some b' →
       dist b ≤ S (dist b')).
Proof.
  intros [_ _ Hr _ _ _ _ _]%reachable_wf i h b Hi Hh Hb.
  destruct (decide (dist b = 0)) as [H0|Hpos]; [split; intros; lia|].
  destruct (Hr i h b Hi Hh Hb) as (h' & b' & Hh' & Hb' & Hle); [lia|].
  split; [congruence|]. intros h2 b2 Hh2 Hb2.
  assert (h2 = h') as -> by congruence. by assert (b2 = b') as -> by congruence.
Qed.

(** Re-insertion of the pairs of a map into an empty bucket array that is
    at least as large. *)
Lemma reinsert_into m n fr :
  wf m → buckets m ≤ n → (Z.of_nat n < 2 ^ 53)%Z → bucket_count (Z.of_nat n) →
  ∃ m', insert_all (insert hasher max_buckets) (pairs m) (cleared n fr) = Ret m' ∧
        wf m' ∧ pairs m' = pairs m ∧ buckets m' = n.
Proof.
  intros Hwf Hn Hn53 Hc. pose proof Hwf as [Hl Hs Hr Hp Hk [Hb37 Hb53] Hch Hld].
  destruct (insert_all_room (insert hasher max_buckets) (pairs m)
              insert_room_place (cleared n fr))
    as (m' & Hrun & Hwf' & Hp' & Hb' & _).
  - apply cleared_wf; [lia|done|done].
  - by apply pairs_keys_NoDup.
  - intros y _ h b Hb. by simpl in Hb.
  - rewrite cleared_buckets, pairs_length by done. unfold size at 1. simpl.
    unfold load_threshold in *. lia.
  - exists m'. rewrite cleared_buckets in Hb'. by split_and!.
Qed.

(** C6 (as amended): a new map has 37 buckets.  For an insertion of a new
    key into a reachable map with [n] buckets and [sz] entries:
    the candidate bucket count is the smallest prime that is at least
    [2 * n]; if [(sz + 1) * 2^54 < 10808639535185919 * n] there is no
    rehash and the bucket count stays; otherwise, memory permitting,
    [rehash_if_needed] re-inserts the pairs of the map, in their order,
    into an empty array of the candidate size, and the new pair is then
    appended.  For [n] up to 11229331 the condition for staying is
    [(sz + 1) / n < 3/5]. *)
Theorem growth_policy m x :
  reachable m → fst x ∉ (fst <$> pairs m) →
  let n := Z.of_nat (buckets m) in
  let sz := Z.of_nat (size m) in
  let p := next_prime (n * 2) in
  buckets (@HashMap_new Key Value) = 37 ∧
  (prime p ∧ (n * 2 <= p)%Z ∧ ∀ q, prime q → (n * 2 <= q)%Z → (p <= q)%Z) ∧
  (((sz + 1) * 2 ^ 54 < load_threshold * n)%Z →
     rehash_if_needed max_buckets (insert hasher max_buckets) m = Ret m ∧
     ∃ m', insert hasher max_buckets x m = Ret m' ∧
           buckets m' = buckets m ∧ pairs m' = pairs m ++ [x]) ∧
  ((load_threshold * n <= (sz + 1) * 2 ^ 54)%Z → (p <= max_buckets)%Z →
     ∃ m1 m',
       rehash_if_needed max_buckets (insert hasher max_buckets) m = Ret m1 ∧
       insert_all (insert hasher max_buckets) (pairs m)
         (cleared (Z.to_nat p) (fresh_ m)) = Ret m1 ∧
       pairs m1 = pairs m ∧ Z.of_nat (buckets m1) = p ∧
       insert hasher max_buckets x m = Ret m' ∧
       Z.of_nat (buckets m') = p ∧ pairs m' = pairs m ++ [x]) ∧
  ((n <= 11229331)%Z →
     ((sz + 1) * 2 ^ 54 < load_threshold * n)%Z ↔ (5 * (sz + 1) < 3 * n)%Z).
Proof.
  intros Hm Hx n sz p. subst n sz p.
  set (p := next_prime (Z.of_nat (buckets m) * 2)).
  pose proof (reachable_absent m _ Hm Hx) as Ha.
  apply reachable_wf in Hm as Hwf.
  pose proof Hwf as [Hl Hs Hr Hpl Hk [Hb37 Hb53] Hch Hld].
  destruct (next_prime_least (Z.of_nat (buckets m) * 2))
    as (Hprime & Hge & Hleast); [lia|].
  fold p in Hprime, Hge, Hleast.
  split_and!; [done|done|done|done| | |].
  - intros Hroom%load_below_Z_spec. split.
    + by apply rehash_room.
    + destruct (insert_room m x Hwf Ha Hroom) as (m' & ? & _ & ? & ?).
      by exists m'.
  - intros Hfull Hfit.
    assert (load_below_Z (Z.of_nat (size m)) (Z.of_nat (buckets m)) = false)
      as Hload.
    { apply not_true_iff_false. rewrite load_below_Z_spec. lia. }
    destruct (reinsert_into m (Z.to_nat p) (fresh_ m) Hwf)
      as (m1 & Hrun1 & Hwf1 & Hp1 & Hb1); [lia|lia| |].
    { rewrite Z2Nat.id by lia. by constructor. }
    destruct (insert_grow m x Hwf Ha Hload) as [Hgrow _].
    destruct (Hgrow Hfit) as (m' & Hrun & _ & Hp' & Hb').
    exists m1, m'. split_and!; try done.
    + unfold rehash_if_needed. rewrite (wf_load_below m Hwf), Hload.
      fold p. by destruct (Z.ltb_spec max_buckets p) as [|_]; [lia|].
    + rewrite Hb1. lia.
    + rewrite Hb'. fold p. lia.
  - intros Hsmall. apply small_threshold; [done|done|lia].
Qed.

(** C7 (as amended): after every insertion into a reachable map,
    [size * 2^54 < 10808639535185919 * buckets]; for bucket counts up to
    11229331 this is [size / buckets < 3/5]. *)
Theorem load_after_insert m x m' :
  reachable m → insert hasher max_buckets x m = Ret m' →
  (Z.of_nat (size m') * 2 ^ 54 < load_threshold * Z.of_nat (buckets m'))%Z ∧
  ((Z.of_nat (buckets m') <= 11229331)%Z →
     (5 * Z.of_nat (size m') < 3 * Z.of_nat (buckets m'))%Z).
Proof.
  intros Hm%reachable_wf Hrun.
  destruct (insert_wf m x m' Hm Hrun) as [[_ _ _ _ _ _ Hch Hld] _].
  split; [done|]. intros Hsmall. apply small_threshold; [done|done|lia|done].
Qed.

(** *** Further properties of the code *)

(** X1: on a reachable map, the loop
    [for (it = begin(); it != end(); ++it)] ends after [size()] rounds
    and dereferences exactly the stored pairs, in list order; there are
    [size()] of them. *)
Theorem iteration_visits_pairs m fuel :
  reachable m → size m ≤ fuel →
  traverse fuel m (begin_ m) = Ret (pairs m) ∧ length (pairs m) = size m.
Proof.
  intros [(Hnd & Hdom & Hfr) _ _ _ _ _ _ _]%reachable_wf Hfuel. split.
  - apply (traverse_suffix m (items_ m) []); try done. intros h. apply Hdom.
  - by apply pairs_length.
Qed.

(** X2: [clear] on a reachable map returns an empty map with the same
    bucket array size, in which no key is found. *)
Theorem clear_empties m :
  reachable m →
  ∃ m', clear m = Ret m' ∧ reachable m' ∧ size m' = 0 ∧ empty m' = true ∧
        begin_ m' = end_ m' ∧ buckets m' = buckets m ∧
        ∀ key, find hasher key m' = Ret (end_ m') ∧
               at_ hasher key m' = Throw out_of_range.
Proof.
  intros Hm. destruct (clear_spec m (reachable_wf m Hm))
    as (m' & Hrun & Hwf' & Hp' & Hs' & Hb').
  exists m'. split_and!; [done|by apply (reach_clear m)|done| | |done|].
  - unfold empty. by rewrite Hs'.
  - unfold begin_, end_. unfold size in Hs'. by destruct (items_ m').
  - intros key. assert (key_absent m' key) as Ha.
    { apply key_absent_pairs; [by destruct Hwf'|]. rewrite Hp'.
      apply not_elem_of_nil. }
    split; [by apply wf_find_absent|by apply at_absent].
Qed.

(** The pairs of a list whose key occurs neither in [seen] nor earlier in
    the list. *)
Fixpoint first_by_key (seen : list Key) (l : list (Key * Value))
  : list (Key * Value) :=
  match l with
  | [] => []
  | x :: l' =>
      if decide (fst x ∈ seen) then first_by_key seen l'
      else x :: first_by_key (fst x :: seen) l'
  end.

Lemma first_by_key_ext l : ∀ s1 s2,
  (∀ k, k ∈ s1 ↔ k ∈ s2) → first_by_key s1 l = first_by_key s2 l.
Proof.
  induction l as [|x l IH]; intros s1 s2 Hs; [done|]. simpl.
  destruct (decide (fst x ∈ s1)) as [H1|H1], (decide (fst x ∈ s2)) as [H2|H2].
  - by apply IH.
  - by apply Hs in H1.
  - by apply Hs in H2.
  - f_equal. apply IH. intros k. rewrite !elem_of_cons, Hs. done.
Qed.

Lemma insert_all_first l : ∀ m m',
  wf m → insert_all (insert hasher max_buckets) l m = Ret m' →
  wf m' ∧ pairs m' = pairs m ++ first_by_key (fst <$> pairs m) l.
Proof.
  induction l as [|x l IH]; intros m m' Hwf Hrun.
  - injection Hrun as <-. by rewrite app_nil_r.
  - rewrite insert_all_cons in Hrun. apply bind_Ret in Hrun as (m1 & H1 & H2).
    destruct (insert_wf m x m1 Hwf H1) as [Hwf1 Hcase].
    destruct (IH m1 m' Hwf1 H2) as [Hwf' Hp']. split; [done|].
    rewrite Hp'. simpl.
    assert (key_absent m (fst x) ↔ fst x ∉ (fst <$> pairs m)) as Hiff
      by (apply key_absent_pairs; by destruct Hwf).
    destruct Hcase as [[-> Hin]|[Hp1 Hnin]].
    + rewrite decide_True; [done|].
      destruct (decide (fst x ∈ (fst <$> pairs m))) as [|Hn]; [done|].
      exfalso. by apply Hin, Hiff.
    + rewrite decide_False by (by apply Hiff).
      rewrite Hp1, <- app_assoc. simpl. do 2 f_equal.
      apply first_by_key_ext. intros k.
      rewrite fmap_app, elem_of_app, elem_of_cons. simpl.
      rewrite list_elem_of_singleton. tauto.
Qed.

(** Insertion of a list, keys repeated or not, returns when the bucket
    array that the new keys need can be had. *)
Lemma insert_all_returns l : ∀ m,
  wf m →
  (buckets_after (Z.of_nat (buckets m)) (Z.of_nat (size m))
     (length (first_by_key (fst <$> pairs m) l)) <= max_buckets)%Z →
  ∃ m', insert_all (insert hasher max_buckets) l m = Ret m'.
Proof.
  induction l as [|x l IH]; intros m Hwf Hfit; [by exists m|].
  rewrite insert_all_cons. simpl in Hfit.
  pose proof Hwf as [Hl _ _ _ _ [Hb37 _] _ _].
  destruct (decide (fst x ∈ (fst <$> pairs m))) as [Hin|Hnin].
  - apply list_elem_of_fmap in Hin as (y & Hxy & Hy).
    apply (elem_of_pairs m y Hl) in Hy as (h & b & Hb & <-).
    rewrite (insert_present m x h b) by done. cbn [mbind outcome_bind].
    by apply IH.
  - simpl length in Hfit. rewrite buckets_after_S in Hfit.
    assert (key_absent m (fst x)) as Ha by (by apply key_absent_pairs).
    set (g := grow (Z.of_nat (buckets m)) (Z.of_nat (size m))) in *.
    assert (Z.of_nat (buckets m) <= g)%Z as Hg by (apply grow_ge; lia).
    pose proof (buckets_after_ge g (Z.of_nat (size m) + 1)
                  (length (first_by_key (fst x :: (fst <$> pairs m)) l))
                  ltac:(lia)) as Hmono.
    destruct (insert_absent_fits m x Hwf Ha) as (m1 & Hrun1 & Hwf1 & Hp1 & Hb1);
      [fold g; lia|].
    rewrite Hrun1. cbn [mbind outcome_bind]. apply IH; [done|].
    assert (Z.of_nat (size m1) = (Z.of_nat (size m) + 1)%Z) as ->.
    { rewrite !wf_size_pairs, Hp1, length_app by done. simpl. lia. }
    rewrite Hb1. fold g.
    rewrite (first_by_key_ext l (fst <$> pairs m1) (fst x :: (fst <$> pairs m)));
      [done|].
    intros k. rewrite Hp1, fmap_app, elem_of_app, elem_of_cons. simpl.
    rewrite list_elem_of_singleton. tauto.
Qed.

(** X3: construction from a range, when the bucket array that its
    distinct keys need can be had, returns a map that holds, in the order
    of the range, the first pair of every key. *)
Theorem range_constructor l :
  (buckets_after (Z.of_nat START_BUCKET_COUNT) 0
     (length (first_by_key [] l)) <= max_buckets)%Z →
  ∃ m, HashMap_range hasher max_buckets l = Ret m ∧
       reachable m ∧ pairs m = first_by_key [] l.
Proof.
  intros Hfit.
  destruct (insert_all_returns l HashMap_new HashMap_new_wf Hfit) as [m Hrun].
  exists m. split_and!; [done| |].
  - by apply (insert_all_reachable l HashMap_new); [constructor|].
  - by destruct (insert_all_first l HashMap_new m HashMap_new_wf Hrun).
Qed.

Lemma deref_data m h :
  deref m (Some h) =
  match data <$> nodes_ m !! h with Some x => Ret x | None => Undefined end.
Proof. unfold deref. by destruct (nodes_ m !! h). Qed.

(** X4: [erase(iterator)] on a reachable map removes the node of the
    iterator from the list and leaves every other iterator
    dereferenceable to the same pair. *)
Theorem erase_iterator_others m h :
  reachable m → h ∈ items_ m →
  ∃ m', erase_iterator (Some h) m = Ret m' ∧
        deref m' (Some h) = Undefined ∧
        (∀ h', h' ≠ h → deref m' (Some h') = deref m (Some h')) ∧
        items_ m' = filter (λ x, x ≠ h) (items_ m) ∧
        buckets m' = buckets m.
Proof.
  intros Hwf%reachable_wf Hin. pose proof (wf_size_lt m Hwf) as Hsz.
  pose proof Hwf as [Hl _ _ _ _ [Hb37 _] _ _].
  assert (is_Some (nodes_ m !! h)) as [b Hb] by (by apply Hl).
  destruct (erase_iterator_spec m h b (wf_core m Hwf) Hsz ltac:(lia) Hb)
    as (m' & Hrun & _ & Hi & _ & Hbk & Hd).
  exists m'. split_and!; [done| | |by rewrite Hi|].
  - rewrite deref_data, Hd. simpl. by rewrite lookup_delete_eq.
  - intros h' Hne. rewrite !deref_data, Hd. simpl.
    by rewrite lookup_delete_ne.
  - rewrite Hbk. unfold buckets. simpl. apply length_insert.
Qed.

Lemma place_same_data m x m' :
  wf m → key_absent m (fst x) → place hasher x m = Ret m' →
  same_data (emplaced m x) m'.
Proof.
  intros Hwf Ha Hrun. pose proof (wf_size_lt m Hwf) as Hsz.
  pose proof Hwf as [_ _ _ _ _ [Hb37 _] _ _].
  destruct (place_spec m x (wf_core m Hwf) Hsz ltac:(lia) Ha)
    as (m1 & Hrun1 & _ & Hsd).
  congruence.
Qed.

(** X5: an insertion of a new key that passes the load test appends one
    node and leaves every iterator dereferenceable to the same pair. *)
Theorem insert_keeps_iterators m x :
  reachable m → fst x ∉ (fst <$> pairs m) →
  ((Z.of_nat (size m) + 1) * 2 ^ 54 < load_threshold * Z.of_nat (buckets m))%Z →
  ∃ m', insert hasher max_buckets x m = Ret m' ∧
        items_ m' = items_ m ++ [fresh_ m] ∧
        ∀ h, h ∈ items_ m → deref m' (Some h) = deref m (Some h).
Proof.
  intros Hm Hx Hroom%load_below_Z_spec.
  pose proof (reachable_absent m _ Hm Hx) as Ha. apply reachable_wf in Hm as Hwf.
  destruct (insert_room m x Hwf Ha Hroom) as (m' & Hrun & _).
  exists m'. rewrite insert_room_place in Hrun by done.
  destruct (place_same_data m x m' Hwf Ha Hrun) as (Hi & _ & _ & Hd).
  rewrite insert_room_place by done. split_and!; [done|done|].
  intros h Hin. rewrite !deref_data, Hd. simpl.
  rewrite lookup_insert_ne; [done|].
  destruct Hwf as [(_ & Hdom & Hfr) _ _ _ _ _ _ _].
  intros <-. apply Hdom, Hfr in Hin. lia.
Qed.

(** The nodes after insertions that find room are the old ones and new
    ones. *)
Lemma insert_all_room_nodes l : ∀ m m',
  wf m → NoDup (fst <$> l) → (∀ x, x ∈ l → key_absent m (fst x)) →
  ((Z.of_nat (size m) + Z.of_nat (length l)) * 2 ^ 54
     < load_threshold * Z.of_nat (buckets m))%Z →
  insert_all (insert hasher max_buckets) l m = Ret m' →
  ∀ h, is_Some (nodes_ m' !! h) → is_Some (nodes_ m !! h) ∨ fresh_ m ≤ h.
Proof.
  induction l as [|x l IH]; intros m m' Hwf Hnd Habs Hroom Hrun h Hh.
  - injection Hrun as <-. by left.
  - apply NoDup_cons in Hnd as [Hx Hnd].
    assert (load_below_Z (Z.of_nat (size m)) (Z.of_nat (buckets m)) = true)
      as Hload.
    { apply load_below_Z_spec. simpl length in Hroom. lia. }
    assert (key_absent m (fst x)) as Ha by (apply Habs; left).
    rewrite insert_all_cons, insert_room_place in Hrun by done.
    destruct (place_wf m x Hwf Ha Hload) as (m1 & Hrun1 & Hwf1 & Hp1 & Hb1 & Hf1).
    pose proof (place_same_data m x m1 Hwf Ha Hrun1) as (_ & _ & _ & Hd).
    rewrite Hrun1 in Hrun. cbn [mbind outcome_bind] in Hrun.
    assert (size m1 = S (size m)) as Hs1.
    { rewrite <- (pairs_length m1), Hp1, length_app by (by destruct Hwf1).
      rewrite pairs_length by (by destruct Hwf). simpl. lia. }
    destruct (IH m1 m' Hwf1 Hnd) with (h := h) as [H1|H1]; try done.
    + intros y Hy. apply key_absent_pairs; [by destruct Hwf1|].
      rewrite Hp1, fmap_app, elem_of_app. intros [Hin|Hin].
      * revert Hin. apply key_absent_pairs; [by destruct Hwf|].
        apply Habs. by right.
      * apply list_elem_of_singleton in Hin. apply Hx. rewrite <- Hin.
        by apply list_elem_of_fmap_2.
    + rewrite Hs1, Hb1. simpl length in Hroom. lia.
    + destruct (decide (h = fresh_ m)) as [->|Hne]; [right; lia|]. left.
      assert (is_Some (data <$> nodes_ m1 !! h)) as H2 by (by apply fmap_is_Some).
      rewrite Hd in H2. simpl in H2. rewrite lookup_insert_ne in H2 by done.
      by apply fmap_is_Some in H2.
    + right. lia.
Qed.

(** An insertion with a rehash: every node afterwards is a new one. *)
Lemma insert_rehash_nodes m x :
  wf m → key_absent m (fst x) →
  load_below_Z (Z.of_nat (size m)) (Z.of_nat (buckets m)) = false →
  (next_prime (Z.of_nat (buckets m) * 2) <= max_buckets)%Z →
  ∃ m', insert hasher max_buckets x m = Ret m' ∧ wf m' ∧
        pairs m' = pairs m ++ [x] ∧ fresh_ m ≤ fresh_ m' ∧
        ∀ h, is_Some (nodes_ m' !! h) → fresh_ m ≤ h.
Proof.
  intros Hwf Ha Hload Hfit.
  pose proof Hwf as [Hl Hs Hr Hpl Hk [Hb37 Hb53] Hch Hld].
  set (p := next_prime (Z.of_nat (buckets m) * 2)) in *.
  destruct (next_prime_spec (Z.of_nat (buckets m) * 2)) as (Hge & _).
  fold p in Hge.
  set (c := @cleared Key Value (Z.to_nat p) (fresh_ m)).
  assert (wf c) as Hwfc.
  { apply cleared_wf; [lia|lia|]. rewrite Z2Nat.id by lia. by constructor. }
  assert (∀ y, y ∈ pairs m → key_absent c (fst y)) as Habs
    by (intros y _ h b Hb; by simpl in Hb).
  assert ((Z.of_nat (size c) + Z.of_nat (length (pairs m))) * 2 ^ 54
          < load_threshold * Z.of_nat (buckets c))%Z as Hroom.
  { unfold c. rewrite cleared_buckets, pairs_length by done.
    unfold size at 1. simpl. unfold load_threshold in *. lia. }
  destruct (insert_all_room (insert hasher max_buckets) (pairs m)
              insert_room_place c Hwfc (pairs_keys_NoDup m Hl Hk) Habs Hroom)
    as (m1 & Hrun1 & Hwf1 & Hp1 & Hb1 & Hf1).
  pose proof (insert_all_room_nodes (pairs m) c m1 Hwfc
                (pairs_keys_NoDup m Hl Hk) Habs Hroom Hrun1) as Hnodes.
  assert (insert hasher max_buckets x m = place hasher x m1) as Hins.
  { rewrite insert_unfold by done. unfold rehash_if_needed.
    rewrite (wf_load_below m Hwf), Hload. fold p.
    destruct (Z.ltb_spec max_buckets p) as [|_]; [lia|].
    fold c. by rewrite Hrun1. }
  assert (key_absent m1 (fst x)) as Ha1.
  { apply key_absent_pairs; [by destruct Hwf1|]. rewrite Hp1. simpl.
    by apply key_absent_pairs. }
  assert (size m1 = size m) as Hs1.
  { rewrite (wf_size_pairs m1), Hp1 by done. simpl. by rewrite pairs_length. }
  destruct (place_wf m1 x Hwf1 Ha1) as (m' & Hrun & Hwf' & Hp' & _ & Hf').
  { apply load_below_Z_spec. rewrite Hs1, Hb1. unfold c.
    rewrite cleared_buckets. unfold load_threshold in *. lia. }
  assert (fresh_ m ≤ fresh_ m1) as Hfr by (rewrite Hf1; simpl; lia).
  exists m'. rewrite Hins. split_and!; [done|done|by rewrite Hp', Hp1|lia|].
  intros h Hh.
  destruct (place_same_data m1 x m' Hwf1 Ha1 Hrun) as (_ & _ & _ & Hd).
  destruct (decide (h = fresh_ m1)) as [->|Hne]; [done|].
  assert (is_Some (data <$> nodes_ m' !! h)) as H2 by (by apply fmap_is_Some).
  rewrite Hd in H2. simpl in H2. rewrite lookup_insert_ne in H2 by done.
  apply fmap_is_Some in H2.
  destruct (Hnodes h H2) as [[b0 Hb0]|Hge']; [by simpl in Hb0|done].
Qed.

(** X6: an insertion of a new key that fails the load test moves every
    pair to a new node: no iterator obtained before it can be
    dereferenced afterwards. *)
Theorem rehash_invalidates_iterators m x :
  reachable m → fst x ∉ (fst <$> pairs m) →
  (load_threshold * Z.of_nat (buckets m) <= (Z.of_nat (size m) + 1) * 2 ^ 54)%Z →
  (next_prime (Z.of_nat (buckets m) * 2) <= max_buckets)%Z →
  ∃ m', insert hasher max_buckets x m = Ret m' ∧
        pairs m' = pairs m ++ [x] ∧
        ∀ h, h ∈ items_ m → deref m' (Some h) = Undefined.
Proof.
  intros Hm Hx Hfull Hfit. pose proof (reachable_absent m _ Hm Hx) as Ha.
  apply reachable_wf in Hm as Hwf.
  assert (load_below_Z (Z.of_nat (size m)) (Z.of_nat (buckets m)) = false)
    as Hload.
  { apply not_true_iff_false. rewrite load_below_Z_spec. lia. }
  destruct (insert_rehash_nodes m x Hwf Ha Hload Hfit)
    as (m' & Hrun & _ & Hp & _ & Hnew).
  exists m'. split_and!; [done|done|]. intros h Hin.
  destruct Hwf as [Hl _ _ _ _ _ _ _].
  assert (h < fresh_ m) as Hlt by (by apply Hl, Hl).
  unfold deref. destruct (nodes_ m' !! h) as [b|] eqn:Hb; [|done].
  assert (fresh_ m ≤ h) by (apply Hnew; by exists b). lia.
Qed.

(** X7: the bucket count of a reachable map is a prime number, and at
    least 37. *)
Theorem buckets_prime m :
  reachable m → prime (Z.of_nat (buckets m)) ∧ 37 ≤ buckets m.
Proof.
  intros [_ _ _ _ _ [Hb37 _] Hch _]%reachable_wf.
  by destruct (bucket_count_prime _ Hch).
Qed.

(** X8: in a reachable map, the entry of an occupied slot lies
    [distance_to_ideal] slots after the ideal slot of its key, with
    wrap-around, and [distance_to_ideal] is less than the bucket count. *)
Theorem displacement_from_ideal m i h :
  reachable m → table_ m !! i = Some (Some h) →
  ∃ b, nodes_ m !! h = Some b ∧
       i = (hasher (key_of b) mod buckets m + dist b) mod buckets m ∧
       dist b < buckets m.
Proof.
  intros Hwf%reachable_wf Hi. pose proof (wf_size_lt m Hwf) as Hsz.
  destruct Hwf as [Hl Hs Hr _ _ _ _ _].
  destruct (Hs i h Hi) as (b & Hb & _ & Hd). exists b. split_and!; [done| |].
  - by rewrite Nat.Div0.add_mod_idemp_l.
  - apply (dist_lt_buckets m i h b); try done. by apply exists_free_slot.
Qed.

(** X9: a reachable map stores no key twice, holds fewer entries than it
    has buckets, and so has an empty slot, at which every probing loop
    stops. *)
Theorem keys_unique_and_room m :
  reachable m →
  NoDup (fst <$> pairs m) ∧ size m < buckets m ∧
  ∃ e, table_ m !! e = Some None.
Proof.
  intros Hwf%reachable_wf. pose proof (wf_size_lt m Hwf) as Hsz.
  destruct Hwf as [Hl Hs _ _ Hk _ _ _]. split_and!; [|done|].
  - by apply pairs_keys_NoDup.
  - by apply exists_free_slot.
Qed.

(** X10: [insert] into a reachable map, with or without a rehash (for a
    new key: when the bucket array it needs can be had), returns a map
    whose pairs are the pairs before, in their order, followed by the new
    pair exactly if its key was new; [at] of a key stored before returns
    the value it returned before. *)
Theorem insert_preserves_values m x :
  reachable m →
  (fst x ∉ (fst <$> pairs m) →
   (grow (Z.of_nat (buckets m)) (Z.of_nat (size m)) <= max_buckets)%Z) →
  ∃ m', insert hasher max_buckets x m = Ret m' ∧
        pairs m' = (if decide (fst x ∈ (fst <$> pairs m)) then pairs m
                    else pairs m ++ [x]) ∧
        ∀ k v, (k, v) ∈ pairs m → at_ hasher k m' = Ret v.
Proof.
  intros Hm Hfit. apply reachable_wf in Hm as Hwf.
  pose proof Hwf as [Hl _ _ _ _ _ _ _].
  assert (∃ m', insert hasher max_buckets x m = Ret m' ∧ wf m' ∧
                pairs m' = (if decide (fst x ∈ (fst <$> pairs m)) then pairs m
                            else pairs m ++ [x])) as (m' & Hrun & Hwf' & Hp).
  { destruct (decide (fst x ∈ (fst <$> pairs m))) as [Hin|Hnin].
    - apply list_elem_of_fmap in Hin as (y & Hxy & Hy).
      apply (elem_of_pairs m y Hl) in Hy as (h & b & Hb & <-).
      exists m. by rewrite (insert_present m x h b).
    - assert (key_absent m (fst x)) as Ha by (by apply key_absent_pairs).
      destruct (insert_absent_fits m x Hwf Ha (Hfit Hnin))
        as (m' & ? & ? & ? & _).
      by exists m'. }
  exists m'. split_and!; [done|done|]. intros k v Hin.
  destruct (pairs_node m' k v) as (h & b & Hb & Hd); [by destruct Hwf'| |].
  { rewrite Hp. destruct (decide _); [done|]. apply elem_of_app. by left. }
  replace k with (key_of b) by (by rewrite Hd).
  replace v with (snd (data b)) by (by rewrite Hd).
  by apply (at_present m' h b).
Qed.

(** X11: [m[k] = v] for a stored key [k], wherever the key object that is
    passed lies, leaves the map as it is except for the value of [k]: the
    keys, their order, the other values and the bucket array stay. *)
Theorem index_assign_present m r k v0 v :
  reachable m → read_key r m = Ret k → (k, v0) ∈ pairs m →
  ∃ h m', index hasher default_value max_buckets r m = Ret (m, h) ∧
          write_ref h v m = Ret m' ∧ reachable m' ∧
          at_ hasher k m' = Ret v ∧
          pairs m' =
            (λ x, if decide (fst x = k) then (k, v) else x) <$> pairs m ∧
          table_ m' = table_ m.
Proof.
  intros Hm Hr Hin.
  destruct (reachable_present m k v0 Hm Hin) as (h & b & Hb & Hd).
  apply reachable_wf in Hm as Hwf.
  assert (key_of b = k) as Hk by (by rewrite Hd).
  destruct (write_ref_wf m h b v Hwf Hb) as (m' & Hw & Hwf' & Hh & _ & _ & Ht).
  exists h, m'. split_and!; [|done|by apply (reach_write m h v)| | |done].
  - apply (index_present r m h b); [done|done|by rewrite Hk].
  - rewrite <- Hk. exact (at_present m' h (set_second v b) Hwf' Hh).
  - rewrite <- Hk. by apply (write_ref_pairs m h b v m').
Qed.

Lemma filter_absent_key (l : list (Key * Value)) key :
  key ∉ (fst <$> l) → filter (λ x, fst x ≠ key) l = l.
Proof.
  induction l as [|x l IH]; [done|]. csimpl. intros Hn.
  apply not_elem_of_cons in Hn as [Hx Hn].
  rewrite filter_cons_True by done. by rewrite IH.
Qed.

(** X12: [erase] of a key, stored or not, returns on every reachable
    map; the pairs afterwards are the pairs with another key, in their
    order, and [at] of another stored key returns the value it returned
    before. *)
Theorem erase_preserves_others m key :
  reachable m →
  ∃ m', erase hasher key m = Ret m' ∧
        pairs m' = filter (λ x, fst x ≠ key) (pairs m) ∧
        ∀ k v, k ≠ key → (k, v) ∈ pairs m → at_ hasher k m' = Ret v.
Proof.
  intros Hwf%reachable_wf.
  assert (∃ m', erase hasher key m = Ret m' ∧ wf m' ∧
                pairs m' = filter (λ x, fst x ≠ key) (pairs m))
    as (m' & Hrun & Hwf' & Hp).
  { destruct (key_stored_dec m key) as [(h & b & Hb & <-)|Ha];
      [by destruct Hwf|..].
    - destruct (erase_present m h b Hwf Hb) as (m1 & Hrun1 & Hwf1 & Hp1 & _).
      by exists m1.
    - exists m. rewrite (erase_absent m key Hwf Ha). split_and!; [done|done|].
      symmetry. apply filter_absent_key.
      apply key_absent_pairs; [by destruct Hwf|done]. }
  exists m'. split_and!; [done|done|]. intros k v Hne Hin.
  destruct (pairs_node m' k v) as (h & b & Hb & Hd); [by destruct Hwf'| |].
  { rewrite Hp. by apply list_elem_of_filter. }
  replace k with (key_of b) by (by rewrite Hd).
  replace v with (snd (data b)) by (by rewrite Hd).
  by apply (at_present m' h b).
Qed.

(** X13: on a reachable map [find] returns for every key: an iterator
    that dereferences to the pair of the key if the key is stored, or
    [end()] if it is not. *)
Theorem find_total m key :
  reachable m →
  ∃ it, find hasher key m = Ret it ∧
        (∀ v, (key, v) ∈ pairs m → deref m it = Ret (key, v)) ∧
        (key ∉ (fst <$> pairs m) ↔ it = end_ m).
Proof.
  intros Hwf%reachable_wf.
  destruct (key_stored_dec m key) as [(h & b & Hb & <-)|Ha]; [by destruct Hwf|..].
  - exists (Some h). split_and!; [by apply wf_find_present| |].
    + intros v Hin. rewrite (deref_node m h b Hb). f_equal.
      destruct (pairs_node m (key_of b) v) as (h' & b' & Hb' & Hd');
        [by destruct Hwf|done|].
      assert (h' = h) as ->.
      { destruct Hwf as [_ _ _ _ Hk _ _ _]. apply (Hk h' h b' b); [done|done|].
        by rewrite Hd'. }
      congruence.
    + split; [|done]. intros Hn. exfalso. apply Hn.
      apply list_elem_of_fmap. exists (data b). split; [done|].
      apply elem_of_pairs; [by destruct Hwf|]. eauto.
  - exists None. split_and!; [by apply wf_find_absent| |].
    + intros v Hin. exfalso.
      apply (key_absent_pairs m key) in Ha; [|by destruct Hwf].
      apply Ha. by apply (list_elem_of_fmap_2 fst) in Hin.
    + split; [done|]. intros _. apply key_absent_pairs; [by destruct Hwf|done].
Qed.

(** *** The nodes a member function leaves *)

(** [m'] holds nodes of [m] and nodes allocated since. *)
Definition grows_from m m' : Prop :=
  fresh_ m ≤ fresh_ m' ∧
  ∀ h, is_Some (nodes_ m' !! h) → is_Some (nodes_ m !! h) ∨ fresh_ m ≤ h.

Lemma grows_from_refl m : grows_from m m.
Proof. split; [done|]. intros h Hh. by left. Qed.

Lemma place_grows_from m x m' :
  wf m → key_absent m (fst x) →
  load_below_Z (Z.of_nat (size m)) (Z.of_nat (buckets m)) = true →
  place hasher x m = Ret m' →
  grows_from m m' ∧ ∀ h, h ≠ fresh_ m →
                        data <$> nodes_ m' !! h = data <$> nodes_ m !! h.
Proof.
  intros Hwf Ha Hload Hrun.
  destruct (place_same_data m x m' Hwf Ha Hrun) as (_ & Hf & _ & Hd).
  assert (∀ h, h ≠ fresh_ m →
            data <$> nodes_ m' !! h = data <$> nodes_ m !! h) as Hsame.
  { intros h Hne. rewrite Hd. simpl. by rewrite lookup_insert_ne. }
  split; [|done]. split; [rewrite Hf; simpl; lia|]. intros h Hh.
  destruct (decide (h = fresh_ m)) as [->|Hne]; [by right|]. left.
  apply (fmap_is_Some data). rewrite <- Hsame by done. by apply fmap_is_Some.
Qed.

Lemma insert_footprint m x m' :
  wf m → insert hasher max_buckets x m = Ret m' → wf m' ∧ grows_from m m'.
Proof.
  intros Hwf Hrun. split; [by destruct (insert_wf m x m' Hwf Hrun)|].
  destruct (key_stored_dec m (fst x)) as [(h & b & Hb & Hkey)|Ha];
    [by destruct Hwf|..].
  - rewrite (insert_present m x h b Hwf Hb Hkey) in Hrun. injection Hrun as <-.
    apply grows_from_refl.
  - destruct (load_below_Z (Z.of_nat (size m)) (Z.of_nat (buckets m))) eqn:Hload.
    + rewrite insert_room_place in Hrun by done.
      by destruct (place_grows_from m x m' Hwf Ha Hload Hrun).
    + destruct (Z.le_gt_cases (next_prime (Z.of_nat (buckets m) * 2)) max_buckets)
        as [Hle|Hgt].
      * destruct (insert_rehash_nodes m x Hwf Ha Hload Hle)
          as (m1 & Hrun1 & _ & _ & Hf & Hnew).
        rewrite Hrun in Hrun1. injection Hrun1 as <-. split; [done|].
        intros h Hh. right. by apply Hnew.
      * destruct (insert_grow m x Hwf Ha Hload) as [_ Hthrow].
        by rewrite (Hthrow Hgt) in Hrun.
Qed.

(** *** Lookups of keys that are not stored, and [operator[]] *)

(** X17: on a reachable map, [at] of a stored key returns its value; for
    a key that is not stored, [at] throws [out_of_range], [find] returns
    [end()], and [erase] returns the map as it was. *)
Theorem absent_key_lookups m :
  reachable m →
  (∀ k v, (k, v) ∈ pairs m → at_ hasher k m = Ret v) ∧
  (∀ k, k ∉ (fst <$> pairs m) →
     at_ hasher k m = Throw out_of_range ∧
     find hasher k m = Ret (end_ m) ∧
     erase hasher k m = Ret m).
Proof.
  intros Hm. split.
  - intros k v Hin.
    destruct (reachable_present m k v Hm Hin) as (h & b & Hb & Hd).
    replace k with (key_of b) by (by rewrite Hd).
    replace v with (snd (data b)) by (by rewrite Hd).
    apply (at_present m h b); [by apply reachable_wf|done].
  - intros k Hk. pose proof (reachable_absent m k Hm Hk) as Ha.
    apply reachable_wf in Hm as Hwf.
    split_and!; [by apply at_absent|by apply wf_find_absent|by apply erase_absent].
Qed.

(** X18: [operator[]] of a key that is not stored, on a reachable map and
    when the bucket array the insertion needs can be had.  If the key
    object that is passed lies outside the nodes of the map, or if the
    insertion passes the load test, it returns a map with one more entry,
    the key with the default value appended, and a reference to that
    value, and an assignment through the reference is seen by [at] and
    [find].  If the key object lies in a node of the map and the insertion
    fails the load test, the rehash destroys that node before the key is
    read for [find]: the behaviour is undefined. *)
Theorem index_new_key m r k :
  reachable m → read_key r m = Ret k → k ∉ (fst <$> pairs m) →
  (grow (Z.of_nat (buckets m)) (Z.of_nat (size m)) <= max_buckets)%Z →
  (r = outside k ∨
   ((Z.of_nat (size m) + 1) * 2 ^ 54 < load_threshold * Z.of_nat (buckets m))%Z →
   ∃ m' h, index hasher default_value max_buckets r m = Ret (m', h) ∧
           size m' = S (size m) ∧
           pairs m' = pairs m ++ [(k, default_value)] ∧
           read_ref h m' = Ret default_value ∧
           ∀ v, ∃ m'', write_ref h v m' = Ret m'' ∧
                       at_ hasher k m'' = Ret v ∧
                       find hasher k m'' = Ret (Some h) ∧
                       deref m'' (Some h) = Ret (k, v) ∧
                       pairs m'' = pairs m ++ [(k, v)]) ∧
  (r ≠ outside k →
   (load_threshold * Z.of_nat (buckets m) <= (Z.of_nat (size m) + 1) * 2 ^ 54)%Z →
   index hasher default_value max_buckets r m = Undefined).
Proof.
  intros Hm Hr Hk Hfit. pose proof (reachable_absent m k Hm Hk) as Ha.
  apply reachable_wf in Hm as Hwf.
  destruct (insert_absent_fits m (k, default_value) Hwf Ha Hfit)
    as (m' & Hrun & Hwf' & Hp' & _).
  split.
  - intros Hstable.
    assert (read_key r m' = Ret k) as Hr'.
    { destruct r as [key|h0 sel]; [done|].
      destruct Hstable as [|Hroom%load_below_Z_spec]; [done|].
      simpl in Hr |- *. destruct (nodes_ m !! h0) as [b0|] eqn:Hb0; [|done].
      rewrite insert_room_place in Hrun by done.
      destruct (place_grows_from m (k, default_value) m' Hwf Ha Hroom Hrun)
        as [_ Hsame].
      assert (h0 ≠ fresh_ m) as Hne.
      { destruct Hwf as [(_ & _ & Hfr) _ _ _ _ _ _ _].
        assert (h0 < fresh_ m) by (apply Hfr; by exists b0). lia. }
      specialize (Hsame h0 Hne). rewrite Hb0 in Hsame.
      destruct (nodes_ m' !! h0) as [b1|]; [|done]. simpl in Hsame.
      injection Hsame as ->. done. }
    destruct (index_after_insert r m m' k Hwf' Hr Hrun Hr' Hp')
      as (h & b & Hi & Hb & Hd).
    exists m', h. split_and!; [done| |done| |].
    + rewrite !wf_size_pairs, Hp', length_app by done. simpl. lia.
    + unfold read_ref. by rewrite Hb, Hd.
    + intros v.
      destruct (write_ref_wf m' h b v Hwf' Hb) as (m'' & Hw & Hwf'' & Hh & _).
      exists m''.
      assert (key_of (set_second v b) = k) as Hkey by (simpl; by rewrite Hd).
      split_and!; [done| | | |].
      * rewrite <- Hkey. by rewrite (at_present m'' h (set_second v b)).
      * rewrite <- Hkey. by apply wf_find_present.
      * rewrite (deref_node m'' h (set_second v b)) by done. simpl.
        by rewrite Hd.
      * rewrite (write_ref_pairs m' h b v m'' Hwf' Hb Hw), Hp', fmap_app, Hd.
        simpl. rewrite decide_True by done. by rewrite fmap_other_keys.
  - intros Hin Hfull.
    destruct r as [key|h0 sel].
    { exfalso. apply Hin. simpl in Hr. by injection Hr as ->. }
    simpl in Hr. destruct (nodes_ m !! h0) as [b0|] eqn:Hb0; [|done].
    assert (load_below_Z (Z.of_nat (size m)) (Z.of_nat (buckets m)) = false)
      as Hload.
    { apply not_true_iff_false. rewrite load_below_Z_spec. lia. }
    assert (next_prime (Z.of_nat (buckets m) * 2) <= max_buckets)%Z as Hp.
    { revert Hfit. unfold grow. by rewrite (wf_load_below m Hwf), Hload. }
    destruct (insert_rehash_nodes m (k, default_value) Hwf Ha Hload Hp)
      as (m1 & Hrun1 & _ & _ & _ & Hnew).
    apply (index_dangling (inside h0 sel) m m1 k); [by simpl; rewrite Hb0|done|].
    simpl. destruct (nodes_ m1 !! h0) as [b1|] eqn:Hb1; [|done]. exfalso.
    assert (fresh_ m ≤ h0) by (apply Hnew; by exists b1).
    destruct Hwf as [(_ & _ & Hfr) _ _ _ _ _ _ _].
    assert (h0 < fresh_ m) by (apply Hfr; by exists b0). lia.
Qed.


(** *** Map objects in one memory *)

Implicit Types (mem : @Memory Key Value) (o : Object).

Lemma own_lookup mem o h :
  own mem o !! h = if decide (h ∈ obj_items o) then heap mem !! h else None.
Proof.
  unfold own. apply option_eq. intros b. rewrite map_lookup_filter_Some. simpl.
  destruct (decide (h ∈ obj_items o)); intuition congruence.
Qed.

Lemma own_heap mem o h b : own mem o !! h = Some b → heap mem !! h = Some b.
Proof. rewrite own_lookup. by destruct (decide _). Qed.

Lemma store_heap_lookup mem this o m' h :
  heap (store mem this o m') !! h =
  match nodes_ m' !! h with
  | Some b => Some b
  | None => if decide (h ∈ obj_items o) then None else heap mem !! h
  end.
Proof.
  unfold store. simpl. destruct (nodes_ m' !! h) as [b|] eqn:Hb.
  - by apply lookup_union_Some_l.
  - rewrite lookup_union_r by done. apply option_eq. intros b.
    rewrite map_lookup_filter_Some. simpl.
    destruct (decide (h ∈ obj_items o)); intuition congruence.
Qed.

(** A map whose parts are those of [m], at a later state of the
    allocator. *)
Lemma wf_later m m2 :
  wf m → items_ m2 = items_ m → nodes_ m2 = nodes_ m → table_ m2 = table_ m →
  fresh_ m ≤ fresh_ m2 → wf m2.
Proof.
  destruct m as [i n t f], m2 as [i2 n2 t2 f2]. simpl.
  intros [(Hnd & Hdom & Hfr) Hs Hr Hp Hk Hb Hc Hl] -> -> -> Hf.
  split; try done. split_and!; [done|done|]. simpl in *.
  intros h Hh. specialize (Hfr h Hh). lia.
Qed.

Lemma pairs_parts m m2 :
  items_ m2 = items_ m → nodes_ m2 = nodes_ m → pairs m2 = pairs m.
Proof. unfold pairs. by intros -> ->. Qed.

(** Distinct objects own distinct nodes, every object is a well-formed
    map, and the allocator has passed every node. *)
Record mem_ok mem : Prop := {
  ok_objects : ∀ i o, objects mem !! i = Some o → wf (load mem o);
  ok_disjoint : ∀ i j oi oj h, i ≠ j →
    objects mem !! i = Some oi → objects mem !! j = Some oj →
    h ∈ obj_items oi → h ∉ obj_items oj;
  ok_heap : ∀ h, is_Some (heap mem !! h) → h < brk mem
}.

Definition object_of m : Object :=
  {| obj_items := items_ m; obj_table := table_ m |}.

Lemma load_store mem this o m' :
  wf m' → load (store mem this o m') (object_of m') = m'.
Proof.
  intros [(_ & Hdom & _) _ _ _ _ _ _ _]. destruct m' as [i n t f].
  unfold load, object_of. simpl in *. f_equal.
  apply map_eq. intros h. rewrite own_lookup, store_heap_lookup. simpl.
  destruct (decide (h ∈ i)) as [Hin|Hnin].
  - apply Hdom in Hin as [b Hb]. by rewrite Hb.
  - destruct (n !! h) as [b|] eqn:Hb; [|done].
    exfalso. apply Hnin, Hdom. by exists b.
Qed.

(** The object at [this], which was [o] or did not exist, is given the
    state [m'], whose nodes are nodes of [o] and nodes allocated since. *)
Lemma store_ok mem this o m' :
  mem_ok mem →
  objects mem !! this = Some o ∨ (objects mem !! this = None ∧ o = no_object) →
  wf m' → brk mem ≤ fresh_ m' →
  (∀ h, is_Some (nodes_ m' !! h) → h ∈ obj_items o ∨ brk mem ≤ h) →
  mem_ok (store mem this o m') ∧
  ∀ j oj, j ≠ this → objects mem !! j = Some oj →
    objects (store mem this o m') !! j = Some oj ∧
    own (store mem this o m') oj = own mem oj.
Proof.
  intros [Hobj Hdis Hheap] Hthis Hwf' Hbrk Hnew.
  assert (∀ j oj h, j ≠ this → objects mem !! j = Some oj →
            h ∈ obj_items oj → h < brk mem ∧ h ∉ obj_items o) as Hother.
  { intros j oj h Hj Hoj Hin. split.
    - destruct (Hobj j oj Hoj) as [(_ & Hdom & _) _ _ _ _ _ _ _].
      apply Hdom in Hin as [b Hb]. apply Hheap. exists b. by apply (own_heap mem oj).
    - destruct Hthis as [Ho|[_ ->]]; [|apply not_elem_of_nil].
      intros Hin'. by apply (Hdis this j o oj h). }
  assert (∀ j oj, j ≠ this → objects mem !! j = Some oj →
            own (store mem this o m') oj = own mem oj) as Hframe.
  { intros j oj Hj Hoj. apply map_eq. intros h.
    rewrite !own_lookup, store_heap_lookup.
    destruct (decide (h ∈ obj_items oj)) as [Hin|]; [|done].
    destruct (Hother j oj h Hj Hoj Hin) as [Hlt Hno].
    destruct (nodes_ m' !! h) as [b|] eqn:Hb.
    - destruct (Hnew h) as [|]; [by exists b|done|lia].
    - by rewrite decide_False. }
  split; [|intros j oj Hj Hoj; split; [by simpl; rewrite lookup_insert_ne|by apply (Hframe j)]].
  split.
  - intros i oi Hoi. simpl in Hoi.
    destruct (decide (i = this)) as [->|Hi].
    + rewrite lookup_insert_eq in Hoi. injection Hoi as <-.
      fold (object_of m'). by rewrite load_store.
    + rewrite lookup_insert_ne in Hoi by done.
      apply (wf_later (load mem oi)); [by apply (Hobj i)|done| |done|done].
      simpl. by apply (Hframe i).
  - assert (∀ j oj h, j ≠ this → objects mem !! j = Some oj →
              h ∈ items_ m' → h ∉ obj_items oj) as Hnew'.
    { intros j oj h Hj Hoj Hin Hin'.
      destruct (Hother j oj h Hj Hoj Hin') as [Hlt Hno].
      destruct Hwf' as [(_ & Hdom & _) _ _ _ _ _ _ _].
      apply Hdom in Hin. destruct (Hnew h Hin); [done|lia]. }
    intros i j oi oj h Hij Hoi Hoj Hin. simpl in Hoi, Hoj.
    destruct (decide (i = this)) as [->|Hi], (decide (j = this)) as [->|Hj];
      [done|..].
    + rewrite lookup_insert_eq in Hoi. injection Hoi as <-.
      rewrite lookup_insert_ne in Hoj by done. by apply (Hnew' j).
    + rewrite lookup_insert_eq in Hoj. injection Hoj as <-.
      rewrite lookup_insert_ne in Hoi by done. intros Hin'.
      by apply (Hnew' i oi h).
    + rewrite lookup_insert_ne in Hoi, Hoj by done. by apply (Hdis i j oi oj).
  - intros h Hh. rewrite store_heap_lookup in Hh. simpl.
    destruct (nodes_ m' !! h) as [b|] eqn:Hb.
    + destruct Hwf' as [(_ & _ & Hfr) _ _ _ _ _ _ _]. apply Hfr. by exists b.
    + destruct (decide (h ∈ obj_items o)); [by destruct Hh|].
      specialize (Hheap h Hh). lia.
Qed.

(** The member functions that change an object. *)
Inductive method : (HashMap → outcome HashMap) → Prop :=
| method_insert x : method (insert hasher max_buckets x)
| method_erase key : method (erase hasher key)
| method_erase_iterator it : method (erase_iterator it)
| method_clear : method clear
| method_index r :
    method (λ m, p ← index hasher default_value max_buckets r m; Ret p.1).

Lemma grows_from_items m m' :
  wf m → wf m' → fresh_ m ≤ fresh_ m' →
  (∀ h, h ∈ items_ m' → h ∈ items_ m ∨ fresh_ m ≤ h) → grows_from m m'.
Proof.
  intros [(_ & Hdom & _) _ _ _ _ _ _ _] [(_ & Hdom' & _) _ _ _ _ _ _ _] Hf Hi.
  split; [done|]. intros h Hh%Hdom'.
  destruct (Hi h Hh) as [Hin|]; [left; by apply Hdom|by right].
Qed.

Lemma erase_iterator_footprint it m m' :
  wf m → erase_iterator it m = Ret m' → wf m' ∧ grows_from m m'.
Proof.
  intros Hwf Hrun. destruct (erase_iterator_node _ _ _ Hrun) as (h & b & -> & Hb).
  destruct (erase_iterator_wf m h b Hwf Hb)
    as (m1 & Hrun1 & Hwf1 & _ & Hi & _ & _ & Hf).
  rewrite Hrun in Hrun1. injection Hrun1 as <-. split; [done|].
  apply grows_from_items; [done|done|lia|]. intros h' Hin. left.
  rewrite Hi in Hin. by apply list_elem_of_filter in Hin as [_ ?].
Qed.

Lemma method_footprint f m m' :
  method f → wf m → f m = Ret m' → wf m' ∧ grows_from m m'.
Proof.
  intros [x|key|it| |r] Hwf Hrun.
  - by apply (insert_footprint m x).
  - destruct (key_stored_dec m key) as [(h & b & Hb & <-)|Ha]; [by destruct Hwf|..].
    + unfold erase in Hrun. rewrite (wf_find_present m h b Hwf Hb) in Hrun.
      by apply (erase_iterator_footprint (Some h)).
    + rewrite (erase_absent m key Hwf Ha) in Hrun. injection Hrun as <-.
      split; [done|apply grows_from_refl].
  - by apply (erase_iterator_footprint it).
  - destruct (clear_loop_spec (items_ m) m Hwf eq_refl)
      as (m1 & Hrun1 & Hwf1 & Hi & _ & Hf).
    unfold clear in Hrun. rewrite Hrun in Hrun1. injection Hrun1 as <-.
    split; [done|]. apply grows_from_items; [done|done|lia|].
    intros h Hin. rewrite Hi in Hin. by apply elem_of_nil in Hin.
  - apply bind_Ret in Hrun as ([m1 h] & Hi & Hret). injection Hret as <-.
    apply index_insert in Hi as (key & _ & Hins).
    by apply (insert_footprint m (key, default_value)).
Qed.

(** The copy constructor and [operator=]: the pairs of a well-formed map
    are inserted into new nodes. *)
Lemma HashMap_copy_fresh fr m :
  wf m →
  ∃ m', HashMap_copy hasher max_buckets fr m = Ret m' ∧ wf m' ∧
        pairs m' = pairs m ∧ buckets m' = buckets m ∧ fr ≤ fresh_ m' ∧
        ∀ h, is_Some (nodes_ m' !! h) → fr ≤ h.
Proof.
  intros Hwf. pose proof Hwf as [Hl Hs Hr Hp Hk [Hb37 Hb53] Hch Hld].
  set (c := @cleared Key Value (buckets m) fr).
  assert (wf c) as Hwfc by (by apply cleared_wf).
  assert (∀ y, y ∈ pairs m → key_absent c (fst y)) as Habs
    by (intros y _ h b Hb; by simpl in Hb).
  assert ((Z.of_nat (size c) + Z.of_nat (length (pairs m))) * 2 ^ 54
          < load_threshold * Z.of_nat (buckets c))%Z as Hroom.
  { unfold c. rewrite cleared_buckets, pairs_length by done.
    unfold size at 1. simpl. lia. }
  destruct (insert_all_room (insert hasher max_buckets) (pairs m)
              insert_room_place c Hwfc (pairs_keys_NoDup m Hl Hk) Habs Hroom)
    as (m' & Hrun & Hwf' & Hp' & Hb' & Hf').
  pose proof (insert_all_room_nodes (pairs m) c m' Hwfc
                (pairs_keys_NoDup m Hl Hk) Habs Hroom Hrun) as Hnodes.
  exists m'. unfold c in Hb'. rewrite cleared_buckets in Hb'.
  split_and!; [done|done|done|done|rewrite Hf'; simpl; lia|].
  intros h Hh. destruct (Hnodes h Hh) as [[b Hb]|]; [by simpl in Hb|done].
Qed.

(** A call of a member function on one object. *)
Lemma call_ok this f mem mem' :
  mem_ok mem → method f → call this f mem = Ret mem' →
  mem_ok mem' ∧
  ∀ j oj, j ≠ this → objects mem !! j = Some oj →
    objects mem' !! j = Some oj ∧ own mem' oj = own mem oj.
Proof.
  intros Hok Hf Hrun. unfold call in Hrun.
  destruct (objects mem !! this) as [o|] eqn:Ho; [|done].
  apply bind_Ret in Hrun as (m' & Hm' & Hret). injection Hret as <-.
  destruct (method_footprint f (load mem o) m' Hf) as [Hwf' [Hfr Hnew]];
    [by apply (ok_objects mem Hok this)|done|].
  apply store_ok; [done|by left|done|done|].
  intros h Hh. destruct (Hnew h Hh) as [[b Hb]|]; [left|by right].
  simpl in Hb. rewrite own_lookup in Hb. by destruct (decide (h ∈ obj_items o)).
Qed.

(** An assignment through a reference changes the object that owns the
    node, as [write_ref] does, and no other. *)
Lemma assign_through_ok h v mem mem' :
  mem_ok mem → assign_through h v mem = Ret mem' →
  mem_ok mem' ∧ objects mem' = objects mem ∧
  ∀ o, (h ∉ obj_items o → own mem' o = own mem o) ∧
       (h ∈ obj_items o → write_ref h v (load mem o) = Ret (load mem' o)).
Proof.
  intros [Hobj Hdis Hheap] Hrun. unfold assign_through in Hrun.
  destruct (heap mem !! h) as [b|] eqn:Hb; [|done]. injection Hrun as <-.
  set (mem' := {| heap := <[h := set_second v b]> (heap mem); brk := brk mem;
                  objects := objects mem |}).
  assert (∀ o, h ∉ obj_items o → own mem' o = own mem o) as Hout.
  { intros o Hnin. apply map_eq. intros h'. rewrite !own_lookup. simpl.
    destruct (decide (h' ∈ obj_items o)) as [Hin|]; [|done].
    rewrite lookup_insert_ne; [done|]. by intros ->. }
  assert (∀ o, h ∈ obj_items o →
            write_ref h v (load mem o) = Ret (load mem' o)) as Hin.
  { intros o Hin. unfold write_ref. simpl. rewrite own_lookup.
    rewrite decide_True, Hb by done. f_equal. unfold load, with_nodes. simpl.
    f_equal. apply map_eq. intros h'. rewrite own_lookup. simpl.
    destruct (decide (h' = h)) as [->|Hne].
    - by rewrite decide_True, !lookup_insert_eq.
    - rewrite !lookup_insert_ne by done. by rewrite own_lookup. }
  split; [|split; [done|intros o; split; [apply Hout|apply Hin]]]. split.
  - intros i o Ho. simpl in Ho. destruct (decide (h ∈ obj_items o)) as [Hi|Hi].
    + specialize (Hin o Hi).
      assert (nodes_ (load mem o) !! h = Some b) as Hn.
      { simpl. rewrite own_lookup. by rewrite decide_True. }
      destruct (write_ref_wf (load mem o) h b v (Hobj i o Ho) Hn)
        as (m1 & Hrun1 & Hwf1 & _).
      rewrite Hin in Hrun1. by injection Hrun1 as <-.
    + apply (wf_later (load mem o)); [by apply (Hobj i)|done| |done|done].
      simpl. by apply Hout.
  - done.
  - intros h' Hh'. simpl in *. destruct (decide (h' = h)) as [->|Hne].
    + apply Hheap. by exists b.
    + rewrite lookup_insert_ne in Hh' by done. by apply Hheap.
Qed.

(** The memories that constructors, member functions and assignments
    through references lead to. *)
Inductive mem_reachable : Memory → Prop :=
| mem_start : mem_reachable {| heap := ∅; brk := 0; objects := ∅ |}
| mem_construct this mem mem' :
    mem_reachable mem → construct this mem = Ret mem' → mem_reachable mem'
| mem_copy_construct this another mem mem' :
    mem_reachable mem →
    copy_construct hasher max_buckets this another mem = Ret mem' →
    mem_reachable mem'
| mem_assign this another mem mem' :
    mem_reachable mem →
    assign hasher max_buckets this another mem = Ret mem' →
    mem_reachable mem'
| mem_call this f mem mem' :
    mem_reachable mem → method f → call this f mem = Ret mem' →
    mem_reachable mem'
| mem_assign_through h v mem mem' :
    mem_reachable mem → assign_through h v mem = Ret mem' →
    mem_reachable mem'.

(** A sequence of such steps. *)
Inductive step : (@Memory Key Value → outcome (@Memory Key Value)) → Prop :=
| step_construct this : step (construct this)
| step_copy_construct this another :
    step (copy_construct hasher max_buckets this another)
| step_assign this another : step (assign hasher max_buckets this another)
| step_call this f : method f → step (call this f)
| step_assign_through h v : step (assign_through h v).

Fixpoint run (l : list (@Memory Key Value → outcome (@Memory Key Value)))
    (mem : @Memory Key Value) : outcome (@Memory Key Value) :=
  match l with
  | [] => Ret mem
  | s :: l' => mem' ← s mem; run l' mem'
  end.

Lemma run_reachable l : ∀ mem mem',
  Forall step l → mem_reachable mem → run l mem = Ret mem' →
  mem_reachable mem'.
Proof.
  induction l as [|s l IH]; intros mem mem' Hl Hm Hrun.
  - by injection Hrun as <-.
  - apply Forall_cons in Hl as [Hs Hl]. simpl in Hrun.
    apply bind_Ret in Hrun as (mem1 & H1 & Hrun).
    apply (IH mem1); [done| |done]. destruct Hs.
    + by apply (mem_construct this mem).
    + by apply (mem_copy_construct this another mem).
    + by apply (mem_assign this another mem).
    + by apply (mem_call this f mem).
    + by apply (mem_assign_through h v mem).
Qed.

Lemma load_no_object mem : nodes_ (load mem no_object) = ∅.
Proof.
  apply map_eq. intros h. simpl. rewrite own_lookup, lookup_empty.
  by rewrite decide_False by apply not_elem_of_nil.
Qed.

Lemma copy_construct_ok this another mem mem' src :
  mem_ok mem → objects mem !! another = Some src →
  copy_construct hasher max_buckets this another mem = Ret mem' →
  ∃ m', mem' = store mem this no_object m' ∧ objects mem !! this = None ∧
        HashMap_copy hasher max_buckets (brk mem) (load mem src) = Ret m' ∧
        wf m' ∧ pairs m' = pairs (load mem src) ∧
        buckets m' = buckets (load mem src) ∧
        mem_ok mem' ∧
        ∀ j oj, j ≠ this → objects mem !! j = Some oj →
          objects mem' !! j = Some oj ∧ own mem' oj = own mem oj.
Proof.
  intros Hok Hsrc Hrun. unfold copy_construct in Hrun. rewrite Hsrc in Hrun.
  destruct (objects mem !! this) as [o|] eqn:Ho; [done|].
  destruct (HashMap_copy_fresh (brk mem) (load mem src))
    as (m' & Hcopy & Hwf' & Hp & Hb & Hfr & Hnew);
    [by apply (ok_objects mem Hok another)|].
  rewrite Hcopy in Hrun. injection Hrun as <-.
  exists m'. split_and!; try done.
  all: apply store_ok; [done|by right|done|done|].
  all: intros h Hh; right; by apply Hnew.
Qed.

Lemma assign_ok this another mem mem' o src :
  mem_ok mem → another ≠ this →
  objects mem !! this = Some o → objects mem !! another = Some src →
  assign hasher max_buckets this another mem = Ret mem' →
  ∃ m', mem' = store mem this o m' ∧
        HashMap_copy hasher max_buckets (brk mem) (load mem src) = Ret m' ∧
        wf m' ∧ pairs m' = pairs (load mem src) ∧
        buckets m' = buckets (load mem src) ∧
        mem_ok mem' ∧
        ∀ j oj, j ≠ this → objects mem !! j = Some oj →
          objects mem' !! j = Some oj ∧ own mem' oj = own mem oj.
Proof.
  intros Hok Hne Ho Hsrc Hrun. unfold assign in Hrun.
  rewrite Ho, Hsrc, decide_False in Hrun by done.
  destruct (HashMap_copy_fresh (brk mem) (load mem src))
    as (m' & Hcopy & Hwf' & Hp & Hb & Hfr & Hnew);
    [by apply (ok_objects mem Hok another)|].
  change (assign_from hasher max_buckets (load mem o) (load mem src))
    with (HashMap_copy hasher max_buckets (brk mem) (load mem src)) in Hrun.
  rewrite Hcopy in Hrun. injection Hrun as <-.
  exists m'. split_and!; try done.
  all: apply store_ok; [done|by left|done|done|].
  all: intros h Hh; right; by apply Hnew.
Qed.

Theorem mem_reachable_ok mem : mem_reachable mem → mem_ok mem.
Proof.
  induction 1 as [|this mem mem' _ IH Hrun|this another mem mem' _ IH Hrun
                  |this another mem mem' _ IH Hrun|this f mem mem' _ IH Hf Hrun
                  |h v mem mem' _ IH Hrun].
  - split; simpl.
    + intros i o Ho. by rewrite lookup_empty in Ho.
    + intros i j oi oj h _ Ho. by rewrite lookup_empty in Ho.
    + intros h Hh. rewrite lookup_empty in Hh. by destruct Hh.
  - unfold construct in Hrun.
    destruct (objects mem !! this) as [o|] eqn:Ho; [done|]. injection Hrun as <-.
    apply store_ok; [done|by right| |done|].
    + apply cleared_wf; [done|done|constructor].
    + intros h Hh. simpl in Hh. rewrite lookup_empty in Hh. by destruct Hh.
  - unfold copy_construct in Hrun |- *.
    destruct (objects mem !! another) as [src|] eqn:Hsrc;
      [|by destruct (objects mem !! this)].
    destruct (copy_construct_ok this another mem mem' src IH Hsrc)
      as (m' & _ & _ & _ & _ & _ & _ & Hok & _); [|done].
    unfold copy_construct. by rewrite Hsrc.
  - destruct (decide (another = this)) as [->|Hne].
    + unfold assign in Hrun. destruct (objects mem !! this); [|done].
      rewrite decide_True in Hrun by done. by injection Hrun as <-.
    + destruct (objects mem !! this) as [o|] eqn:Ho;
        [|by unfold assign in Hrun; rewrite Ho in Hrun].
      destruct (objects mem !! another) as [src|] eqn:Hsrc;
        [|by unfold assign in Hrun; rewrite Ho, Hsrc in Hrun].
      by destruct (assign_ok this another mem mem' o src IH Hne Ho Hsrc Hrun)
        as (m' & _ & _ & _ & _ & _ & Hok & _).
  - by destruct (call_ok this f mem mem' IH Hf Hrun).
  - by destruct (assign_through_ok h v mem mem' IH Hrun).
Qed.

Lemma pairs_own mem mem' o :
  own mem' o = own mem o → pairs (load mem' o) = pairs (load mem o).
Proof. intros Hown. by apply pairs_parts. Qed.

(** An assignment through a reference to the value of a key of one
    object is seen by [at] on that object, and leaves the pairs of another
    object as they are. *)
Lemma write_independent mem i j oi oj k v0 v :
  mem_ok mem → i ≠ j → objects mem !! i = Some oi → objects mem !! j = Some oj →
  (k, v0) ∈ pairs (load mem oi) →
  ∃ h mem', find hasher k (load mem oi) = Ret (Some h) ∧
            assign_through h v mem = Ret mem' ∧
            at_ hasher k (load mem' oi) = Ret v ∧
            pairs (load mem' oj) = pairs (load mem oj).
Proof.
  intros Hok Hij Hi Hj Hin. pose proof (ok_objects mem Hok i oi Hi) as Hwf.
  destruct (pairs_node (load mem oi) k v0) as (h & bi & Hh & Hd);
    [by destruct Hwf|done|].
  assert (key_of bi = k) as Hk by (by rewrite Hd).
  assert (h ∈ obj_items oi) as Hown.
  { simpl in Hh. rewrite own_lookup in Hh. by destruct (decide (h ∈ obj_items oi)). }
  assert (assign_through h v mem =
          Ret {| heap := <[h := set_second v bi]> (heap mem); brk := brk mem;
                 objects := objects mem |}) as Hrun.
  { unfold assign_through. by rewrite (own_heap mem oi h bi Hh). }
  destruct (assign_through_ok h v mem _ Hok Hrun) as (_ & _ & Hview).
  eexists h, _. split_and!; [|exact Hrun| |].
  - rewrite <- Hk. by apply wf_find_present.
  - destruct (Hview oi) as [_ Hw]. specialize (Hw Hown).
    destruct (write_ref_wf (load mem oi) h bi v Hwf Hh) as (m1 & Hw1 & Hwf1 & Hh1 & _).
    rewrite Hw in Hw1. injection Hw1 as Hm1. rewrite Hm1.
    rewrite <- Hk. exact (at_present m1 h (set_second v bi) Hwf1 Hh1).
  - destruct (Hview oj) as [Hout _]. apply pairs_own, Hout.
    by apply (ok_disjoint mem Hok i j oi oj).
Qed.

(** A member function called on one object leaves the pairs of another
    object as they are. *)
Lemma call_independent mem i j oj f mem' :
  mem_ok mem → i ≠ j → objects mem !! j = Some oj → method f →
  call i f mem = Ret mem' →
  objects mem' !! j = Some oj ∧ pairs (load mem' oj) = pairs (load mem oj).
Proof.
  intros Hok Hij Hj Hf Hrun.
  destruct (call_ok i f mem mem' Hok Hf Hrun) as [_ Hframe].
  destruct (Hframe j oj) as [Hob Hown]; [done|done|].
  split; [done|by apply pairs_own].
Qed.

(** In [mem'] the object at [dst] is a copy of the object [so] at [src]
    of [mem]: it has the pairs of [so] in their order and as many buckets,
    in nodes of its own, and [so] is as it was.  An assignment through a
    reference to a value of either object is seen in that object and
    leaves the pairs of the other as they are, and so does a member
    function called on either object. *)
Definition copied mem mem' (dst src : nat) (so : Object) : Prop :=
  ∃ c, objects mem' !! dst = Some c ∧ objects mem' !! src = Some so ∧
       pairs (load mem' c) = pairs (load mem so) ∧
       buckets (load mem' c) = buckets (load mem so) ∧
       pairs (load mem' so) = pairs (load mem so) ∧
       (∀ h, h ∈ obj_items c → h ∉ obj_items so) ∧
       (∀ k v0 v, (k, v0) ∈ pairs (load mem so) →
          (∃ h mem'', find hasher k (load mem' c) = Ret (Some h) ∧
                      assign_through h v mem' = Ret mem'' ∧
                      at_ hasher k (load mem'' c) = Ret v ∧
                      pairs (load mem'' so) = pairs (load mem so)) ∧
          (∃ h mem'', find hasher k (load mem' so) = Ret (Some h) ∧
                      assign_through h v mem' = Ret mem'' ∧
                      at_ hasher k (load mem'' so) = Ret v ∧
                      pairs (load mem'' c) = pairs (load mem so))) ∧
       (∀ f mem'', method f →
          (call dst f mem' = Ret mem'' →
             objects mem'' !! src = Some so ∧
             pairs (load mem'' so) = pairs (load mem so)) ∧
          (call src f mem' = Ret mem'' →
             objects mem'' !! dst = Some c ∧
             pairs (load mem'' c) = pairs (load mem so))).

Lemma copied_intro mem mem' dst src so m' :
  mem_ok mem' → dst ≠ src → wf m' →
  objects mem' !! dst = Some (object_of m') → load mem' (object_of m') = m' →
  objects mem' !! src = Some so → own mem' so = own mem so →
  pairs m' = pairs (load mem so) → buckets m' = buckets (load mem so) →
  copied mem mem' dst src so.
Proof.
  intros Hok Hne Hwf' Hdst Hload Hsrc Hown Hp Hb.
  assert (pairs (load mem' so) = pairs (load mem so)) as Hso by (by apply pairs_own).
  exists (object_of m'). rewrite Hload. split_and!; try done.
  - intros h. by apply (ok_disjoint mem' Hok dst src).
  - intros k v0 v Hin. split.
    + destruct (write_independent mem' dst src (object_of m') so k v0 v)
        as (h & mem'' & Hf & Hw & Hat & Hfr); try done.
      { by rewrite Hload, Hp. }
      exists h, mem''. rewrite Hload in Hf. split_and!; try done.
      by rewrite Hfr.
    + destruct (write_independent mem' src dst so (object_of m') k v0 v)
        as (h & mem'' & Hf & Hw & Hat & Hfr); try done.
      { by rewrite Hso. }
      exists h, mem''. split_and!; try done. by rewrite Hfr, Hload.
  - intros f mem'' Hf. split; intros Hrun.
    + destruct (call_independent mem' dst src so f mem'' Hok Hne Hsrc Hf Hrun)
        as [? Hfr].
      split; [done|]. by rewrite Hfr.
    + destruct (call_independent mem' src dst (object_of m') f mem'' Hok
                  ltac:(done) Hdst Hf Hrun) as [? Hfr].
      split; [done|]. by rewrite Hfr, Hload.
Qed.

(** C10: in a reachable memory, with the map object [so] at [src]: the
    copy constructor run for a new object, and [operator=] run on another
    object, return and leave at the destination a map with the pairs of
    the source in the same order and as many buckets, in list nodes of its
    own; the source is as it was; after the copy, an assignment through a
    reference to a value of the copy, and any member function called on
    the copy, leaves the pairs of the source as they are, and the other
    way round; an assignment of an object to itself returns the memory as
    it was. *)
Theorem copy_independent mem src so :
  mem_reachable mem → objects mem !! src = Some so →
  assign hasher max_buckets src src mem = Ret mem ∧
  (∀ dst, objects mem !! dst = None →
     ∃ mem', copy_construct hasher max_buckets dst src mem = Ret mem' ∧
             copied mem mem' dst src so) ∧
  (∀ dst, dst ≠ src → is_Some (objects mem !! dst) →
     ∃ mem', assign hasher max_buckets dst src mem = Ret mem' ∧
             copied mem mem' dst src so).
Proof.
  intros Hm Hsrc. pose proof (mem_reachable_ok mem Hm) as Hok.
  destruct (HashMap_copy_fresh (brk mem) (load mem so))
    as (m' & Hcopy & Hwf' & Hp & Hb & _); [by apply (ok_objects mem Hok src)|].
  split_and!.
  - unfold assign. rewrite Hsrc. by rewrite decide_True.
  - intros dst Hnone.
    assert (dst ≠ src) as Hne by (intros ->; by rewrite Hsrc in Hnone).
    assert (copy_construct hasher max_buckets dst src mem
            = Ret (store mem dst no_object m')) as Hrun.
    { unfold copy_construct. by rewrite Hnone, Hsrc, Hcopy. }
    exists (store mem dst no_object m'). split; [done|].
    destruct (copy_construct_ok dst src mem _ so Hok Hsrc Hrun)
      as (m1 & _ & _ & _ & _ & _ & _ & Hok' & Hframe).
    destruct (Hframe src so) as [Hso Hown]; [done|done|].
    apply (copied_intro mem _ dst src so m'); try done.
    + simpl. by rewrite lookup_insert_eq.
    + by apply load_store.
  - intros dst Hne [o Ho].
    assert (assign hasher max_buckets dst src mem = Ret (store mem dst o m'))
      as Hrun.
    { unfold assign. rewrite Ho, Hsrc, decide_False by done.
      change (assign_from hasher max_buckets (load mem o) (load mem so))
        with (HashMap_copy hasher max_buckets (brk mem) (load mem so)).
      by rewrite Hcopy. }
    exists (store mem dst o m'). split; [done|].
    destruct (assign_ok dst src mem _ o so Hok ltac:(done) Ho Hsrc Hrun)
      as (m1 & _ & _ & _ & _ & _ & Hok' & Hframe).
    destruct (Hframe src so) as [Hso Hown]; [done|done|].
    apply (copied_intro mem _ dst src so m'); try done.
    + simpl. by rewrite lookup_insert_eq.
    + by apply load_store.
Qed.

End Proofs.

(** * Instances

    Maps from [nat] to [nat] hashed by the identity, with room for 1000
    buckets, or for 2^52. *)

Definition identity_hash (k : nat) : nat := k.

Definition small_memory : Z := 1000.
Definition large_memory : Z := 2 ^ 52.

Lemma small_memory_exact : (small_memory < 2 ^ 53)%Z.
Proof. done. Qed.

Lemma large_memory_exact : (large_memory < 2 ^ 53)%Z.
Proof. done. Qed.

(** Thirty pairs with distinct keys, the keys 0, 37 and 74 with the same
    ideal slot; the insertions pass one rehash. *)
Definition thirty_pairs : list (nat * nat) :=
  (λ k, (k, 2 * k)) <$> ([0; 37; 74] ++ seq 1 27).

Definition thirty_map : @HashMap nat nat :=
  match HashMap_range identity_hash small_memory thirty_pairs with
  | Ret m => m
  | _ => HashMap_new
  end.

Lemma thirty_map_run :
  insert_all (insert identity_hash small_memory) thirty_pairs HashMap_new
  = Ret thirty_map.
Proof. by vm_compute. Qed.

Lemma thirty_map_reachable : reachable identity_hash 0 small_memory thirty_map.
Proof.
  apply (insert_all_reachable identity_hash 0 small_memory thirty_pairs
           HashMap_new); [constructor|apply thirty_map_run].
Qed.

(** Twenty-two pairs fill 37 buckets up to the threshold; the next new key
    is inserted after a rehash to 79 buckets. *)
Definition full_pairs : list (nat * nat) := (λ k, (k, 2 * k)) <$> seq 0 22.

Definition full_map : @HashMap nat nat :=
  match HashMap_range identity_hash small_memory full_pairs with
  | Ret m => m
  | _ => HashMap_new
  end.

Definition grown_map : @HashMap nat nat :=
  match insert identity_hash small_memory (100, 7) full_map with
  | Ret m => m
  | _ => HashMap_new
  end.

Lemma full_map_reachable : reachable identity_hash 0 small_memory full_map.
Proof.
  apply (insert_all_reachable identity_hash 0 small_memory full_pairs
           HashMap_new); [constructor|by vm_compute].
Qed.

(** The keys 0 and 37 have the ideal slot 0, the key 2 the ideal slot 2. *)
Definition collided_pairs : list (nat * nat) := [(0, 0); (37, 0); (2, 0)].

Definition collided_map : @HashMap nat nat :=
  match HashMap_range identity_hash small_memory collided_pairs with
  | Ret m => m
  | _ => HashMap_new
  end.

Lemma collided_map_reachable :
  reachable identity_hash 0 small_memory collided_map.
Proof.
  apply (insert_all_reachable identity_hash 0 small_memory collided_pairs
           HashMap_new); [constructor|by vm_compute].
Qed.

(** ** The theorems at these instances *)

Lemma distinct_inserts_witness :
  ∃ m, insert_all (insert identity_hash small_memory) thirty_pairs HashMap_new
       = Ret m ∧
       size m = length thirty_pairs ∧
       (∀ k v, (k, v) ∈ thirty_pairs →
          ∃ h, find identity_hash k m = Ret (Some h) ∧
               deref m (Some h) = Ret (k, v)) ∧
       traverse (size m) m (begin_ m) = Ret thirty_pairs.
Proof.
  apply (distinct_inserts identity_hash small_memory small_memory_exact
           thirty_pairs); [compute_done|by vm_compute].
Defined.

Lemma insert_present_noop_witness :
  insert identity_hash small_memory (37, 5) thirty_map = Ret thirty_map ∧
  at_ identity_hash 37 thirty_map = Ret 74.
Proof.
  apply (insert_present_noop identity_hash 0 small_memory small_memory_exact
           thirty_map 37 74 5 thirty_map_reachable).
  compute_done.
Defined.

Lemma erase_reinsert_witness :
  ∃ m', erase identity_hash 37 thirty_map = Ret m' ∧
        find identity_hash 37 m' = Ret (end_ m') ∧
        S (size m') = size thirty_map ∧
        pairs m' = filter (λ x, fst x ≠ 37) (pairs thirty_map) ∧
        ∃ m'', insert identity_hash small_memory (37, 5) m' = Ret m'' ∧
               pairs m'' = pairs m' ++ [(37, 5)] ∧
               buckets m'' = buckets thirty_map ∧
               at_ identity_hash 37 m'' = Ret 5.
Proof.
  apply (erase_reinsert identity_hash 0 small_memory small_memory_exact
           thirty_map 37 74 5 thirty_map_reachable).
  compute_done.
Defined.

Lemma table_list_bijection_witness :
  NoDup (items_ thirty_map) ∧
  (∀ h, h ∈ items_ thirty_map →
     ∃ b, nodes_ thirty_map !! h = Some b ∧
          ∀ i, table_ thirty_map !! i = Some (Some h) ↔ i = id_in_table b) ∧
  (∀ i h, table_ thirty_map !! i = Some (Some h) → h ∈ items_ thirty_map).
Proof.
  exact (table_list_bijection identity_hash 0 small_memory small_memory_exact
           thirty_map thirty_map_reachable).
Defined.

Lemma robin_hood_balance_witness :
  (table_ collided_map !! 0 = Some None → 1 = 0) ∧
  (∀ h' b', table_ collided_map !! 0 = Some (Some h') →
     nodes_ collided_map !! h' = Some b' → 1 ≤ S (distance_to_ideal b')).
Proof.
  apply (robin_hood_balance identity_hash 0 small_memory small_memory_exact
           collided_map collided_map_reachable 0 1
           {| data := (37, 0); distance_to_ideal := 1; id_in_table := 1 |});
    [vm_compute; lia|done|done].
Defined.

Lemma growth_policy_witness :
  let n := Z.of_nat (buckets full_map) in
  let sz := Z.of_nat (size full_map) in
  let p := next_prime (n * 2) in
  buckets (@HashMap_new nat nat) = 37 ∧
  (prime p ∧ (n * 2 <= p)%Z ∧ ∀ q, prime q → (n * 2 <= q)%Z → (p <= q)%Z) ∧
  (((sz + 1) * 2 ^ 54 < load_threshold * n)%Z →
     rehash_if_needed small_memory (insert identity_hash small_memory) full_map
     = Ret full_map ∧
     ∃ m', insert identity_hash small_memory (100, 7) full_map = Ret m' ∧
           buckets m' = buckets full_map ∧
           pairs m' = pairs full_map ++ [(100, 7)]) ∧
  ((load_threshold * n <= (sz + 1) * 2 ^ 54)%Z → (p <= small_memory)%Z →
     ∃ m1 m',
       rehash_if_needed small_memory (insert identity_hash small_memory) full_map
       = Ret m1 ∧
       insert_all (insert identity_hash small_memory) (pairs full_map)
         (cleared (Z.to_nat p) (fresh_ full_map)) = Ret m1 ∧
       pairs m1 = pairs full_map ∧ Z.of_nat (buckets m1) = p ∧
       insert identity_hash small_memory (100, 7) full_map = Ret m' ∧
       Z.of_nat (buckets m') = p ∧ pairs m' = pairs full_map ++ [(100, 7)]) ∧
  ((n <= 11229331)%Z →
     ((sz + 1) * 2 ^ 54 < load_threshold * n)%Z ↔ (5 * (sz + 1) < 3 * n)%Z).
Proof.
  apply (growth_policy identity_hash 0 small_memory small_memory_exact
           full_map (100, 7) full_map_reachable).
  compute_done.
Defined.

Lemma load_after_insert_witness :
  (Z.of_nat (size grown_map) * 2 ^ 54
   < load_threshold * Z.of_nat (buckets grown_map))%Z ∧
  ((Z.of_nat (buckets grown_map) <= 11229331)%Z →
     (5 * Z.of_nat (size grown_map) < 3 * Z.of_nat (buckets grown_map))%Z).
Proof.
  apply (load_after_insert identity_hash 0 small_memory small_memory_exact
           full_map (100, 7) grown_map full_map_reachable).
  by vm_compute.
Defined.

(** A memory with a map object at address 1 that holds three pairs, two
    of them with the same ideal slot, and an empty map object at
    address 2. *)
Definition no_memory : @Memory nat nat :=
  {| heap := ∅; brk := 0; objects := ∅ |}.

Definition two_objects_steps : list (@Memory nat nat → outcome Memory) :=
  [construct 1;
   call 1 (insert identity_hash small_memory (0, 10));
   call 1 (insert identity_hash small_memory (37, 20));
   call 1 (insert identity_hash small_memory (2, 30));
   construct 2].

Definition two_objects : @Memory nat nat :=
  match run two_objects_steps no_memory with
  | Ret mem => mem
  | _ => no_memory
  end.

Definition first_object : @Object := {|
  obj_items := [0; 1; 2];
  obj_table := [Some 0; Some 1; Some 2] ++ replicate 34 None
|}.

Lemma two_objects_reachable :
  mem_reachable identity_hash 0 small_memory two_objects.
Proof.
  apply (run_reachable identity_hash 0 small_memory two_objects_steps no_memory);
    [|apply mem_start|by vm_compute].
  repeat constructor.
Qed.

Lemma copy_independent_witness :
  assign identity_hash small_memory 1 1 two_objects = Ret two_objects ∧
  (∀ dst, objects two_objects !! dst = None →
     ∃ mem', copy_construct identity_hash small_memory dst 1 two_objects
             = Ret mem' ∧
             copied identity_hash 0 small_memory two_objects mem' dst 1
               first_object) ∧
  (∀ dst, dst ≠ 1 → is_Some (objects two_objects !! dst) →
     ∃ mem', assign identity_hash small_memory dst 1 two_objects = Ret mem' ∧
             copied identity_hash 0 small_memory two_objects mem' dst 1
               first_object).
Proof.
  apply (copy_independent identity_hash 0 small_memory small_memory_exact
           two_objects 1 first_object two_objects_reachable).
  by vm_compute.
Defined.

(** ** Statements of the specification that fail *)

(** C5 as stated fails: scanning from slot 0, the ideal slot of key 0, the
    occupied slots 0, 1 and 2 hold displacements 0, 1 and 0. *)
Lemma probe_nondecreasing_counterexample :
  ∃ m, reachable identity_hash 0 small_memory m ∧
       ¬ probe_nondecreasing identity_hash m.
Proof.
  exists collided_map. split; [apply collided_map_reachable|].
  intros Hmono.
  assert (1 ≤ 0); [|lia].
  apply (Hmono 0 1 1
    {| data := (37, 0); distance_to_ideal := 1; id_in_table := 1 |} 2
    {| data := (2, 0); distance_to_ideal := 0; id_in_table := 2 |});
    [|by vm_compute..].
  intros i Hi. destruct i as [|[|[|i]]]; [by vm_compute..|lia].
Qed.


(** C9 fails for a key object stored in the map: in [m[m.at(11)]] on
    [full_map] the key is the value 22 in the node of key 11.  The
    insertion of (22, Value()) succeeds with a rehash to 79 buckets, after
    which node 11 no longer exists; the read of the key in [find(key)] is
    then undefined.  With the same key held outside the map, [operator[]]
    returns as C9 says. *)
Theorem index_reference_dangling :
  reachable identity_hash 0 small_memory full_map ∧
  read_key (inside 11 snd) full_map = Ret 22 ∧
  (22 ∉ (fst <$> pairs full_map)) ∧
  (∃ m1, insert identity_hash small_memory (22, 0) full_map = Ret m1 ∧
         pairs m1 = pairs full_map ++ [(22, 0)] ∧
         buckets m1 = 79 ∧
         nodes_ m1 !! 11 = None ∧
         read_key (inside 11 snd) m1 = Undefined) ∧
  index identity_hash 0 small_memory (inside 11 snd) full_map = Undefined ∧
  (∃ m' h, index identity_hash 0 small_memory (outside 22) full_map
           = Ret (m', h) ∧
           size m' = S (size full_map) ∧
           pairs m' = pairs full_map ++ [(22, 0)] ∧
           read_ref h m' = Ret 0).
Proof.
  split; [apply full_map_reachable|].
  split; [by vm_compute|].
  split; [compute_done|].
  split.
  - destruct (insert identity_hash small_memory (22, 0) full_map)
      as [m1| | |] eqn:Hi; try by vm_compute in Hi.
    exists m1. split; [done|].
    assert (Ret m1 = insert identity_hash small_memory (22, 0) full_map)
      as Hm by done.
    vm_compute in Hm. injection Hm as ->. repeat split; by vm_compute.
  - split; [by vm_compute|].
    destruct (index identity_hash 0 small_memory (outside 22) full_map)
      as [[m' h]| | |] eqn:Hi; try by vm_compute in Hi.
    exists m', h. split; [done|].
    assert (Ret (m', h)
            = index identity_hash 0 small_memory (outside 22) full_map)
      as Hm by done.
    vm_compute in Hm. injection Hm as -> ->. repeat split; by vm_compute.
Qed.


(** C6 and C7 as stated fail at the bucket count 22458671.  The map below
    holds the keys 0 .. 13475201 in 22458671 buckets; inserting one more
    key passes the load test although 13475203 / 22458671 is above 3/5. *)

Definition many : nat := Z.to_nat 13475202.

Definition many_pairs (n : nat) : list (nat * nat) := (λ k, (k, 0)) <$> seq 0 n.

Lemma many_spec : many = Z.to_nat 13475202.
Proof. reflexivity. Qed.

#[global] Opaque many.

Lemma many_pairs_keys n : fst <$> many_pairs n = seq 0 n.
Proof.
  unfold many_pairs. rewrite <- list_fmap_compose. apply list_fmap_id.
Qed.

Lemma many_pairs_length n : length (many_pairs n) = n.
Proof. unfold many_pairs. by rewrite length_fmap, length_seq. Qed.

Lemma large_map :
  ∃ m, reachable identity_hash 0 large_memory m ∧ wf identity_hash m ∧
       pairs m = many_pairs many ∧
       Z.of_nat (buckets m) = 22458671%Z ∧ Z.of_nat (size m) = 13475202%Z.
Proof.
  destruct (insert_all_distinct identity_hash large_memory large_memory_exact
              (many_pairs many) HashMap_new) as [Hfit _].
  - apply HashMap_new_wf.
  - rewrite many_pairs_keys. apply NoDup_seq.
  - intros x _ h b Hb. by simpl in Hb.
  - rewrite many_pairs_length in Hfit.
    change (Z.of_nat (buckets HashMap_new)) with 37%Z in Hfit.
    change (Z.of_nat (size HashMap_new)) with 0%Z in Hfit.
    assert (buckets_after 37 0 many = 22458671%Z) as Hgrown.
    { rewrite many_spec. apply (buckets_after_fast_correct 64). by vm_compute. }
    rewrite Hgrown in Hfit.
    destruct Hfit as (m & Hrun & Hwf & Hp & Hb); [by vm_compute|].
    rewrite pairs_new, app_nil_l in Hp.
    exists m. split_and!; [|exact Hwf|exact Hp|exact Hb|].
    + apply (insert_all_reachable identity_hash 0 large_memory
               (many_pairs many) HashMap_new); [constructor|exact Hrun].
    + rewrite (wf_size_pairs identity_hash m Hwf), Hp, many_pairs_length.
      rewrite many_spec. lia.
Qed.

Lemma large_map_insert :
  ∃ (m m' : @HashMap nat nat),
    reachable identity_hash 0 large_memory m ∧ wf identity_hash m ∧
    (many ∉ fst <$> pairs m) ∧
    Z.of_nat (buckets m) = 22458671%Z ∧ Z.of_nat (size m) = 13475202%Z ∧
    insert identity_hash large_memory (many, 0) m = Ret m' ∧
    buckets m' = buckets m ∧ Z.of_nat (size m') = 13475203%Z.
Proof.
  destruct large_map as (m & Hm & Hwf & Hp & Hb & Hs).
  assert (load_below_Z (Z.of_nat (size m)) (Z.of_nat (buckets m)) = true) as Hload.
  { rewrite Hs, Hb. by vm_compute. }
  assert (many ∉ (fst <$> pairs m)) as Hnew.
  { rewrite Hp, many_pairs_keys, elem_of_seq. lia. }
  assert (key_absent m many) as Ha.
  { apply (key_absent_pairs m many); [by destruct Hwf|done]. }
  destruct (insert_room identity_hash large_memory large_memory_exact m
              (many, 0) Hwf Ha Hload) as (m' & Hrun & Hwf' & Hp' & Hb').
  exists m, m'. split_and!; try done.
  rewrite (wf_size_pairs identity_hash m' Hwf'), Hp', length_app.
  rewrite <- (wf_size_pairs identity_hash m Hwf). simpl length. lia.
Qed.

Lemma growth_policy_counterexample :
  ∃ (m : @HashMap nat nat) x m',
    reachable identity_hash 0 large_memory m ∧
    (fst x ∉ fst <$> pairs m) ∧
    (3 * Z.of_nat (buckets m) <= 5 * (Z.of_nat (size m) + 1))%Z ∧
    rehash_if_needed large_memory (insert identity_hash large_memory) m = Ret m ∧
    insert identity_hash large_memory x m = Ret m' ∧
    buckets m' = buckets m.
Proof.
  destruct large_map_insert as (m & m' & Hm & Hwf & Hnew & Hb & Hs & Hrun & Hb' & _).
  exists m, (many, 0), m'. split_and!; [done|done|lia| |done|done].
  apply (rehash_room identity_hash large_memory); [done|].
  rewrite Hs, Hb. by vm_compute.
Qed.

Lemma load_after_insert_counterexample :
  ∃ (m : @HashMap nat nat) x m',
    reachable identity_hash 0 large_memory m ∧
    insert identity_hash large_memory x m = Ret m' ∧
    (3 * Z.of_nat (buckets m') <= 5 * Z.of_nat (size m'))%Z.
Proof.
  destruct large_map_insert as (m & m' & Hm & _ & _ & Hb & _ & Hrun & Hb' & Hs').
  exists m, (many, 0), m'. split_and!; [done|done|]. rewrite Hb'. lia.
Qed.

(** ** The load test and the prime search *)

(** X15: for sizes below 2^53, the test
    [static_cast<double>(size() + 1) / table_.size() < MAX_LOAD_FACTOR]
    holds exactly when [(size + 1) * 2^54 < 10808639535185919 * buckets]. *)
Theorem load_test_threshold sz n :
  (0 <= sz)%Z → (sz + 1 < 2 ^ 53)%Z → (1 <= n < 2 ^ 53)%Z →
  load_below sz n = true ↔ ((sz + 1) * 2 ^ 54 < load_threshold * n)%Z.
Proof.
  intros Hsz Hsz' Hn. rewrite (load_below_exact sz n) by done.
  apply load_below_Z_spec.
Qed.

(** X16: for [n >= 2], the inner loop of the prime search accepts exactly
    the primes, and the search from [n] returns the smallest prime that is
    at least [n]. *)
Theorem prime_search n :
  (2 <= n)%Z →
  (trial_division n = true ↔ prime n) ∧
  prime (next_prime n) ∧ (n <= next_prime n)%Z ∧
  ∀ q, prime q → (n <= q)%Z → (next_prime n <= q)%Z.
Proof.
  intros Hn. split; [by apply trial_division_prime|by apply next_prime_least].
Qed.

(** ** The further properties at instances *)

(** A range in which the key 1 occurs twice. *)
Definition repeated_pairs : list (nat * nat) := [(1, 10); (2, 20); (1, 30); (3, 40)].

Definition repeated_map : @HashMap nat nat :=
  match HashMap_range identity_hash small_memory repeated_pairs with
  | Ret m => m
  | _ => HashMap_new
  end.

Lemma iteration_visits_pairs_witness :
  traverse 30 thirty_map (begin_ thirty_map) = Ret (pairs thirty_map) ∧
  length (pairs thirty_map) = size thirty_map.
Proof.
  apply (iteration_visits_pairs identity_hash 0 small_memory small_memory_exact
           thirty_map 30 thirty_map_reachable).
  vm_compute. lia.
Defined.

Lemma clear_empties_witness :
  ∃ m', clear thirty_map = Ret m' ∧
        reachable identity_hash 0 small_memory m' ∧ size m' = 0 ∧
        empty m' = true ∧ begin_ m' = end_ m' ∧
        buckets m' = buckets thirty_map ∧
        ∀ key, find identity_hash key m' = Ret (end_ m') ∧
               at_ identity_hash key m' = Throw out_of_range.
Proof.
  exact (clear_empties identity_hash 0 small_memory small_memory_exact
           thirty_map thirty_map_reachable).
Defined.

Lemma range_constructor_witness :
  ∃ m, HashMap_range identity_hash small_memory repeated_pairs = Ret m ∧
       reachable identity_hash 0 small_memory m ∧
       pairs m = first_by_key [] repeated_pairs.
Proof.
  apply (range_constructor identity_hash 0 small_memory small_memory_exact
           repeated_pairs).
  by vm_compute.
Defined.

Lemma erase_iterator_others_witness :
  ∃ m', erase_iterator (Some 23) thirty_map = Ret m' ∧
        deref m' (Some 23) = Undefined ∧
        (∀ h', h' ≠ 23 → deref m' (Some h') = deref thirty_map (Some h')) ∧
        items_ m' = filter (λ x, x ≠ 23) (items_ thirty_map) ∧
        buckets m' = buckets thirty_map.
Proof.
  apply (erase_iterator_others identity_hash 0 small_memory small_memory_exact
           thirty_map 23 thirty_map_reachable).
  compute_done.
Defined.

Lemma insert_keeps_iterators_witness :
  ∃ m', insert identity_hash small_memory (100, 7) thirty_map = Ret m' ∧
        items_ m' = items_ thirty_map ++ [fresh_ thirty_map] ∧
        ∀ h, h ∈ items_ thirty_map →
             deref m' (Some h) = deref thirty_map (Some h).
Proof.
  apply (insert_keeps_iterators identity_hash 0 small_memory small_memory_exact
           thirty_map (100, 7) thirty_map_reachable);
    [compute_done|by vm_compute].
Defined.

Lemma rehash_invalidates_iterators_witness :
  ∃ m', insert identity_hash small_memory (100, 7) full_map = Ret m' ∧
        pairs m' = pairs full_map ++ [(100, 7)] ∧
        ∀ h, h ∈ items_ full_map → deref m' (Some h) = Undefined.
Proof.
  apply (rehash_invalidates_iterators identity_hash 0 small_memory
           small_memory_exact full_map (100, 7) full_map_reachable);
    [compute_done|by vm_compute|by vm_compute].
Defined.

Lemma buckets_prime_witness :
  prime (Z.of_nat (buckets thirty_map)) ∧ 37 ≤ buckets thirty_map.
Proof.
  exact (buckets_prime identity_hash 0 small_memory small_memory_exact
           thirty_map thirty_map_reachable).
Defined.

Lemma displacement_from_ideal_witness :
  ∃ b, nodes_ collided_map !! 1 = Some b ∧
       1 = (identity_hash (fst (data b)) mod buckets collided_map
            + distance_to_ideal b) mod buckets collided_map ∧
       distance_to_ideal b < buckets collided_map.
Proof.
  apply (displacement_from_ideal identity_hash 0 small_memory small_memory_exact
           collided_map 1 1 collided_map_reachable).
  by vm_compute.
Defined.

Lemma keys_unique_and_room_witness :
  NoDup (fst <$> pairs thirty_map) ∧ size thirty_map < buckets thirty_map ∧
  ∃ e, table_ thirty_map !! e = Some None.
Proof.
  exact (keys_unique_and_room identity_hash 0 small_memory small_memory_exact
           thirty_map thirty_map_reachable).
Defined.

Lemma insert_preserves_values_witness :
  ∃ m', insert identity_hash small_memory (100, 7) full_map = Ret m' ∧
        pairs m' = (if decide (100 ∈ (fst <$> pairs full_map)) then pairs full_map
                    else pairs full_map ++ [(100, 7)]) ∧
        ∀ k v, (k, v) ∈ pairs full_map → at_ identity_hash k m' = Ret v.
Proof.
  apply (insert_preserves_values identity_hash 0 small_memory small_memory_exact
           full_map (100, 7) full_map_reachable).
  intros _. by vm_compute.
Defined.

Lemma index_assign_present_witness :
  ∃ h m', index identity_hash 0 small_memory (outside 37) thirty_map
          = Ret (thirty_map, h) ∧
          write_ref h 5 thirty_map = Ret m' ∧
          reachable identity_hash 0 small_memory m' ∧
          at_ identity_hash 37 m' = Ret 5 ∧
          pairs m' =
            (λ x, if decide (fst x = 37) then (37, 5) else x) <$> pairs thirty_map ∧
          table_ m' = table_ thirty_map.
Proof.
  apply (index_assign_present identity_hash 0 small_memory small_memory_exact
           thirty_map (outside 37) 37 74 5 thirty_map_reachable);
    [done|compute_done].
Defined.

Lemma load_test_threshold_witness :
  load_below 22 37 = true ↔ ((22 + 1) * 2 ^ 54 < load_threshold * 37)%Z.
Proof. apply (load_test_threshold 22 37); [lia|done|done]. Defined.

Lemma prime_search_witness :
  (trial_division 74 = true ↔ prime 74) ∧
  prime (next_prime 74) ∧ (74 <= next_prime 74)%Z ∧
  ∀ q, prime q → (74 <= q)%Z → (next_prime 74 <= q)%Z.
Proof. apply (prime_search 74). lia. Defined.

Lemma erase_preserves_others_witness :
  ∃ m', erase identity_hash 37 thirty_map = Ret m' ∧
        pairs m' = filter (λ x, fst x ≠ 37) (pairs thirty_map) ∧
        ∀ k v, k ≠ 37 → (k, v) ∈ pairs thirty_map →
               at_ identity_hash k m' = Ret v.
Proof.
  exact (erase_preserves_others identity_hash 0 small_memory small_memory_exact
           thirty_map 37 thirty_map_reachable).
Defined.

Lemma find_total_witness :
  ∃ it, find identity_hash 74 thirty_map = Ret it ∧
        (∀ v, (74, v) ∈ pairs thirty_map → deref thirty_map it = Ret (74, v)) ∧
        (74 ∉ (fst <$> pairs thirty_map) ↔ it = end_ thirty_map).
Proof.
  exact (find_total identity_hash 0 small_memory small_memory_exact
           thirty_map 74 thirty_map_reachable).
Defined.

Lemma absent_key_lookups_witness :
  (∀ k v, (k, v) ∈ pairs thirty_map → at_ identity_hash k thirty_map = Ret v) ∧
  (∀ k, k ∉ (fst <$> pairs thirty_map) →
     at_ identity_hash k thirty_map = Throw out_of_range ∧
     find identity_hash k thirty_map = Ret (end_ thirty_map) ∧
     erase identity_hash k thirty_map = Ret thirty_map).
Proof.
  exact (absent_key_lookups identity_hash 0 small_memory small_memory_exact
           thirty_map thirty_map_reachable).
Defined.

(** [m[m.at(15)]] on [full_map]: the key object is the value 30 in the
    node of key 15, and the insertion of 30 rehashes. *)
Lemma index_new_key_witness :
  (inside 15 snd = outside 30 ∨
   ((Z.of_nat (size full_map) + 1) * 2 ^ 54
    < load_threshold * Z.of_nat (buckets full_map))%Z →
   ∃ m' h, index identity_hash 0 small_memory (inside 15 snd) full_map
           = Ret (m', h) ∧
           size m' = S (size full_map) ∧
           pairs m' = pairs full_map ++ [(30, 0)] ∧
           read_ref h m' = Ret 0 ∧
           ∀ v, ∃ m'', write_ref h v m' = Ret m'' ∧
                       at_ identity_hash 30 m'' = Ret v ∧
                       find identity_hash 30 m'' = Ret (Some h) ∧
                       deref m'' (Some h) = Ret (30, v) ∧
                       pairs m'' = pairs full_map ++ [(30, v)]) ∧
  (inside 15 snd ≠ outside 30 →
   (load_threshold * Z.of_nat (buckets full_map)
    <= (Z.of_nat (size full_map) + 1) * 2 ^ 54)%Z →
   index identity_hash 0 small_memory (inside 15 snd) full_map = Undefined).
Proof.
  apply (index_new_key identity_hash 0 small_memory small_memory_exact
           full_map (inside 15 snd) 30 full_map_reachable);
    [by vm_compute|compute_done|by vm_compute].
Defined.
